(** * qfrm option pricing: European and LowExercisePrice valuation methods

    A shallow embedding of [qfrm/options/European.py] and
    [qfrm/options/LowExercisePrice.py].

    Numbers.  Python floats and numpy float arrays are embedded as the real
    numbers [R] of the Standard Library, so every statement below is about the
    exact arithmetic that the floating-point code approximates; rounding is not
    modelled.  Integers (step and path counts) are [Z] where the source reads
    them and [nat] once they size a sequence.  Tuples, [Vec]s and numpy vectors
    are lists; the finite-difference grid is a list of rows.

    Failure.  Python exceptions are the [Raise] branch of [result]. *)

From Stdlib Require Import Reals Lra Lia ZArith String List.
Import ListNotations.
Local Open Scope R_scope.

(** ** Exceptions and fallible results *)

Inductive exn : Type :=
| AssertionError (msg : string)   (* a failed [assert] statement *)
| ZeroDivisionError               (* float or int division by zero *)
| ValueError                      (* math domain error, numpy/scipy shape error *)
| IndexError                      (* index out of bounds *)
| TypeError                       (* arithmetic on [None] *)
| NonFinite                       (* numpy produced inf or nan: outside [R] *)
| SingularMatrix.                 (* the linear solve met a zero pivot *)

Inductive result (A : Type) : Type :=
| Ok (a : A)
| Raise (e : exn).
Arguments Ok {A} a.
Arguments Raise {A} e.

Definition bind {A B : Type} (m : result A) (k : A -> result B) : result B :=
  match m with
  | Ok a => k a
  | Raise e => Raise e
  end.

Notation "x <- m ;; k" := (bind m (fun x => k))
  (at level 61, m at next level, right associativity).

Definition py_assert (c : bool) (msg : string) : result unit :=
  if c then Ok tt else Raise (AssertionError msg).

Definition is_AssertionError {A : Type} (r : result A) : Prop :=
  exists msg, r = Raise (AssertionError msg).

(** Comparisons of floats, as booleans. *)
Definition Rltb (x y : R) : bool := if Rlt_dec x y then true else false.
Definition Rleb (x y : R) : bool := if Rle_dec x y then true else false.
Definition Reqb (x y : R) : bool := if Req_dec_T x y then true else false.

(** ** Sequences *)

(** Python slice [l[lo:hi]] for [0 <= lo <= hi]. *)
Definition slice {A : Type} (l : list A) (lo hi : nat) : list A :=
  firstn (hi - lo) (skipn lo l).

(** Elementwise binary operation; like [zip], it stops at the shorter
    operand.  Every use below is on operands of equal length (see the
    [length_*] lemmas), so the length-mismatch failure of numpy and of [Vec]
    is never reached. *)
Fixpoint map2 {A B C : Type} (f : A -> B -> C) (xs : list A) (ys : list B)
  : list C :=
  match xs, ys with
  | x :: xs', y :: ys' => f x y :: map2 f xs' ys'
  | _, _ => []
  end.

(** [l[i] = x] for an index in range; the list is unchanged otherwise (the
    code below only writes in range). *)
Fixpoint set_nth {A : Type} (i : nat) (x : A) (l : list A) : list A :=
  match l, i with
  | [], _ => []
  | _ :: l', O => x :: l'
  | y :: l', S i' => y :: set_nth i' x l'
  end.

(** Python's builtin [sum]: a left fold starting from [0]. *)
Definition py_sum (xs : list R) : R := fold_left Rplus xs 0.

(** ** qfrm.util.Util and qfrm.vec.Vec *)

Module Util.

(** Modelled from the spec: [Util.arange], [Util.log] and [Util.cumsum] of
    qfrm/util.py are missing from the sources.  The call sites say what they
    are: [arange(0, n + 1)] is [0..n], [arange(n, -1)] is [n..0],
    [arange(1, n + 1)] is [1..n]; [log] is the elementwise natural logarithm
    and [cumsum] the sequence of cumulative sums. *)
Definition arange_incr (lo len : nat) : list nat := seq lo len.
Definition arange_decr (n : nat) : list nat := rev (seq 0 (S n)).

Definition log (ks : list nat) : list R := map (fun k => ln (INR k)) ks.

Fixpoint cumsum_from (acc : R) (xs : list R) : list R :=
  match xs with
  | [] => []
  | x :: xs' => (acc + x) :: cumsum_from (acc + x) xs'
  end.
Definition cumsum (xs : list R) : list R := cumsum_from 0 xs.

End Util.

Module Vec.

(** Modelled from the spec: the vectorized tuple [Vec] of qfrm/vec.py is
    missing from the sources.  Section 4.4 of the specification describes it
    as a fixed-length sequence with elementwise power, product, sum and
    exponential, a scalar operand being applied to every element. *)
Definition t := list R.

(** [Vec(b) ** ks] *)
Definition pow (b : R) (ks : list nat) : t := map (fun k => b ^ k) ks.
(** [xs * ys], [xs + ys], [xs - ys] *)
Definition mul (xs ys : t) : t := map2 Rmult xs ys.
Definition add (xs ys : t) : t := map2 Rplus xs ys.
Definition sub (xs ys : t) : t := map2 Rminus xs ys.
(** [xs * c], [xs - c], [Vec(c) - xs] for a scalar [c] *)
Definition scale (xs : t) (c : R) : t := map (fun x => x * c) xs.
Definition sub_scalar (xs : t) (c : R) : t := map (fun x => x - c) xs.
Definition scalar_sub (c : R) (xs : t) : t := map (fun x => c - x) xs.
(** [ks * c] for a vector of integers [ks] *)
Definition scale_int (ks : list nat) (c : R) : t := map (fun k => INR k * c) ks.
(** [xs.max(c)] and [xs.exp] *)
Definition max (xs : t) (c : R) : t := map (fun x => Rmax x c) xs.
Definition exp (xs : t) : t := map Rtrigo_def.exp xs.

End Vec.

(** ** The option object (qfrm.OptionValuation) *)

(** The underlying: [Stock(S0=..., vol=..., q=...)]. *)
Record Stock : Type := {
  S0 : R;
  vol : R;
  q : R
}.

(** The lattice constants, the dictionary returned by [LT_specs]. *)
Record LatticeSpecs : Type := {
  u : R;
  d : R;
  p : R;
  df_dt : R;
  df_T : R
}.

Inductive Method : Type := BS | LT | MC | FD.

(** A price or value tree: one inner sequence per time step. *)
Definition tree : Type := list (list R).

(** [PriceSpec]: the arguments of [calc_px] and whatever the pricing method
    adds with [px_spec.add(...)].  An attribute that was never set is [None]
    (so [getattr(px_spec, name, default)] is [getattr]). *)
Record PriceSpec : Type := {
  method : Method;
  nsteps : option Z;
  npaths : option Z;
  keep_hist : option bool;
  px : option R;
  sub_method : option string;
  px_LT_specs : option LatticeSpecs;
  ref_tree : option tree;
  opt_tree : option tree;
  px_call : option R;
  px_put : option R;
  d1 : option R;
  d2 : option R
}.

Definition getattr {A : Type} (attr : option A) (default : A) : A :=
  match attr with
  | Some a => a
  | None => default
  end.

Record OptionValuation : Type := {
  ref : Stock;
  right : string;
  K : R;
  T : R;
  rf_r : R;
  px_spec : PriceSpec
}.

Definition set_px_spec (self : OptionValuation) (ps : PriceSpec) : OptionValuation :=
  {| ref := ref self; right := right self; K := K self; T := T self;
     rf_r := rf_r self; px_spec := ps |}.

(** [self.K = k; self.right = rt] *)
Definition set_K_right (self : OptionValuation) (k : R) (rt : string) : OptionValuation :=
  {| ref := ref self; right := rt; K := k; T := T self;
     rf_r := rf_r self; px_spec := px_spec self |}.

(** [PriceSpec(method=..., nsteps=..., npaths=..., keep_hist=...)] *)
Definition new_PriceSpec (m : Method) (ns np : option Z) (kh : bool) : PriceSpec :=
  {| method := m; nsteps := ns; npaths := np; keep_hist := Some kh;
     px := None; sub_method := None; px_LT_specs := None;
     ref_tree := None; opt_tree := None;
     px_call := None; px_put := None; d1 := None; d2 := None |}.

(** [px_spec.add(px=..., sub_method=..., LT_specs=..., ref_tree=..., opt_tree=...)] *)
Definition add_LT (ps : PriceSpec) (out : R) (sm : string) (sp : LatticeSpecs)
  (S_tree O_tree : option tree) : PriceSpec :=
  {| method := method ps; nsteps := nsteps ps; npaths := npaths ps;
     keep_hist := keep_hist ps;
     px := Some out; sub_method := Some sm; px_LT_specs := Some sp;
     ref_tree := S_tree; opt_tree := O_tree;
     px_call := px_call ps; px_put := px_put ps; d1 := d1 ps; d2 := d2 ps |}.

(** [px_spec.add(px=..., sub_method=..., px_call=..., px_put=..., d1=..., d2=...)] *)
Definition add_BS (ps : PriceSpec) (out : option R) (sm : string)
  (c pt x1 x2 : R) : PriceSpec :=
  {| method := method ps; nsteps := nsteps ps; npaths := npaths ps;
     keep_hist := keep_hist ps;
     px := out; sub_method := Some sm; px_LT_specs := px_LT_specs ps;
     ref_tree := ref_tree ps; opt_tree := opt_tree ps;
     px_call := Some c; px_put := Some pt; d1 := Some x1; d2 := Some x2 |}.

(** [px_spec.add(px=..., sub_method=...)] *)
Definition add_FD (ps : PriceSpec) (out : R) (sm : string) : PriceSpec :=
  {| method := method ps; nsteps := nsteps ps; npaths := npaths ps;
     keep_hist := keep_hist ps;
     px := Some out; sub_method := Some sm; px_LT_specs := px_LT_specs ps;
     ref_tree := ref_tree ps; opt_tree := opt_tree ps;
     px_call := px_call ps; px_put := px_put ps; d1 := d1 ps; d2 := d2 ps |}.

(** Modelled from the spec: the property [signCP] of qfrm/OptionValuation.py
    is missing from the sources.  The glossary of the specification: +1 for a
    call, -1 for a put.  Any other right has no sign ([None] in Python). *)
Definition signCP (self : OptionValuation) : option R :=
  if String.eqb (right self) "call" then Some 1
  else if String.eqb (right self) "put" then Some (-1)
  else None.

(** Modelled from the spec: [OptionValuation.LT_specs] is missing from the
    sources.  Section 4.1 of the specification: the Cox-Ross-Rubinstein
    constants for [dt = T/n], with [u*d = 1], [p] the risk-neutral up
    probability for the rates [r] and [q], [df_dt = e^(-r dt)] and
    [df_T = e^(-r T)]; invalid input is signalled when [n < 1], [vol <= 0] or
    [T <= 0]. *)
Definition LT_specs (self : OptionValuation) (n : Z) : result LatticeSpecs :=
  if (n <? 1)%Z then Raise ValueError
  else if Rleb (vol (ref self)) 0 then Raise ValueError
  else if Rleb (T self) 0 then Raise ValueError
  else
    let dt := T self / IZR n in
    let up := exp (vol (ref self) * sqrt dt) in
    let dn := 1 / up in
    let a := exp ((rf_r self - q (ref self)) * dt) in
    Ok {| u := up; d := dn; p := (a - dn) / (up - dn);
          df_dt := exp (- rf_r self * dt);
          df_T := exp (- rf_r self * T self) |}.

(** ** European._calc_LT *)

(** The terminal prices, [S = Vec(d)**decr_n * Vec(u)**incr_n * S0]. *)
Definition European_S (sp : LatticeSpecs) (s0 : R) (n : nat) : list R :=
  let incr_n := Util.arange_incr 0 (n + 1) in
  let decr_n := Util.arange_decr n in
  Vec.scale (Vec.mul (Vec.pow (d sp) decr_n) (Vec.pow (u sp) incr_n)) s0.

(** The terminal payoffs, [O = ((S - K) * signCP).max(0)]. *)
Definition European_O (S_ : list R) (k sgn : R) : list R :=
  Vec.max (Vec.scale (Vec.sub_scalar S_ k) sgn) 0.

(** One turn of the loop [for i in range(n, 0, -1)], on the loop variables
    [(S, O, S_tree, O_tree)] (written [S_], [O_] here). *)
Definition European_LT_step (sp : LatticeSpecs) (i : nat)
  (st : list R * list R * tree * tree) : list R * list R * tree * tree :=
  let '(S_, O_, S_tree, O_tree) := st in
  let O' := Vec.scale (Vec.add (Vec.scale (slice O_ 0 i) (1 - p sp))
                               (Vec.scale (skipn 1 O_) (p sp)))
                      (df_dt sp) in
  let S' := Vec.scale (slice S_ 1 (i + 1)) (d sp) in
  (S', O', S' :: S_tree, O' :: O_tree).

(** The loop [for i in range(n, 0, -1)]: [i = n, n-1, ..., 1]. *)
Fixpoint European_LT_loop (sp : LatticeSpecs) (i : nat)
  (st : list R * list R * tree * tree) : list R * list R * tree * tree :=
  match i with
  | O => st
  | S i' => European_LT_loop sp i' (European_LT_step sp i st)
  end.

(** [O_tree[0][0]] *)
Definition tree_root (t : tree) : result R :=
  match t with
  | (o :: _) :: _ => Ok o
  | _ => Raise IndexError
  end.

(** The log-space weights of the [else] branch:
    [csl = (0.,) + Vec(Util.cumsum(Util.log(Util.arange(1, n + 1))))] *)
Definition European_csl (n : nat) : list R :=
  0 :: Util.cumsum (Util.log (Util.arange_incr 1 n)).

(** [Vec(csl[n]) - csl - tuple(reversed(csl)) + incr_n * math.log(p)
     + decr_n * math.log(1 - p)], given the two logarithms. *)
Definition European_tmp (n : nat) (log_p log_1p : R) : list R :=
  let csl := European_csl n in
  let incr_n := Util.arange_incr 0 (n + 1) in
  let decr_n := Util.arange_decr n in
  Vec.add (Vec.add (Vec.sub (Vec.scalar_sub (nth n csl 0) csl) (rev csl))
                   (Vec.scale_int incr_n log_p))
          (Vec.scale_int decr_n log_1p).

(** [math.log(x)]: a domain error for [x <= 0]. *)
Definition math_log (x : R) : result R :=
  if Rleb x 0 then Raise ValueError else Ok (ln x).

(** The body of [_calc_LT] after the lattice constants are known: the price
    and the two trees ([None] when no history is kept). *)
Definition European_LT_price (sp : LatticeSpecs) (s0 k sgn : R) (n : nat)
  (keep : bool) : result (R * option tree * option tree) :=
  let S_ := European_S sp s0 n in
  let O_ := European_O S_ k sgn in
  if keep then
    let '(_, _, S_tree, O_tree) := European_LT_loop sp n (S_, O_, [S_], [O_]) in
    out <- tree_root O_tree ;;
    Ok (out, Some S_tree, Some O_tree)
  else
    log_p <- math_log (p sp) ;;
    log_1p <- math_log (1 - p sp) ;;
    let tmp := European_tmp n log_p log_1p in
    let out := py_sum (Vec.mul (Vec.scale (Vec.exp tmp) (df_T sp)) O_) in
    Ok (out, None, None).

Definition European_calc_LT (self : OptionValuation) : result OptionValuation :=
  let n := getattr (nsteps (px_spec self)) 3%Z in
  sp <- LT_specs self n ;;
  sgn <- match signCP self with
         | Some s => Ok s
         | None => Raise TypeError
         end ;;
  r <- European_LT_price sp (S0 (ref self)) (K self) sgn (Z.to_nat n)
         (getattr (keep_hist (px_spec self)) false) ;;
  let '(out, S_tree, O_tree) := r in
  Ok (set_px_spec self
        (add_LT (px_spec self) out "binary tree; Hull p.135" sp S_tree O_tree)).

(** ** LowExercisePrice._calc_LT *)

(** [S = S0 * d ** np.arange(n, -1, -1) * u ** np.arange(0, n + 1)] *)
Definition LowExercisePrice_S (sp : LatticeSpecs) (s0 : R) (n : nat) : list R :=
  map2 Rmult (map (fun k => s0 * d sp ^ k) (rev (seq 0 (n + 1))))
             (map (fun k => u sp ^ k) (seq 0 (n + 1))).

(** [O = np.maximum((S - 0.01), 0)] *)
Definition LowExercisePrice_O (S_ : list R) : list R :=
  map (fun s => Rmax (s - 1 / 100) 0) S_.

Definition LowExercisePrice_LT_step (sp : LatticeSpecs) (i : nat)
  (st : list R * list R * tree * tree) : list R * list R * tree * tree :=
  let '(S_, O_, S_tree, O_tree) := st in
  let O' := map (fun x => df_dt sp * x)
                (map2 Rplus (map (fun o => (1 - p sp) * o) (slice O_ 0 i))
                            (map (fun o => p sp * o) (skipn 1 O_))) in
  let S' := map (fun s => d sp * s) (slice S_ 1 (i + 1)) in
  (S', O', S' :: S_tree, O' :: O_tree).

Fixpoint LowExercisePrice_LT_loop (sp : LatticeSpecs) (i : nat)
  (st : list R * list R * tree * tree) : list R * list R * tree * tree :=
  match i with
  | O => st
  | S i' => LowExercisePrice_LT_loop sp i' (LowExercisePrice_LT_step sp i st)
  end.

(** [csl = np.insert(np.cumsum(np.log(np.arange(n) + 1)), 0, 0)] *)
Definition LowExercisePrice_csl (n : nat) : list R :=
  0 :: Util.cumsum (map (fun k => ln (INR (k + 1))) (seq 0 n)).

(** [csl[n] - csl - csl[::-1] + np.log(p) * np.arange(n + 1)
     + np.log(1 - p) * np.arange(n + 1)[::-1]] *)
Definition LowExercisePrice_tmp (n : nat) (log_p log_1p : R) : list R :=
  let csl := LowExercisePrice_csl n in
  map2 Rplus
    (map2 Rplus
       (map2 Rminus (map (fun c => nth n csl 0 - c) csl) (rev csl))
       (map (fun k => log_p * INR k) (seq 0 (n + 1))))
    (map (fun k => log_1p * INR k) (rev (seq 0 (n + 1)))).

(** [np.log(x)]: [-inf] or [nan] for [x <= 0], which then reaches the price. *)
Definition np_log (x : R) : result R :=
  if Rleb x 0 then Raise NonFinite else Ok (ln x).

Definition LowExercisePrice_LT_price (sp : LatticeSpecs) (s0 : R) (n : nat)
  (keep : bool) : result (R * option tree * option tree) :=
  let S_ := LowExercisePrice_S sp s0 n in
  let O_ := LowExercisePrice_O S_ in
  if keep then
    let '(_, _, S_tree, O_tree) := LowExercisePrice_LT_loop sp n (S_, O_, [S_], [O_]) in
    out <- tree_root O_tree ;;
    Ok (out, Some S_tree, Some O_tree)
  else
    log_p <- np_log (p sp) ;;
    log_1p <- np_log (1 - p sp) ;;
    let tmp := LowExercisePrice_tmp n log_p log_1p in
    let out := df_T sp * py_sum (map2 Rmult (map exp tmp) O_) in
    Ok (out, None, None).

Definition LowExercisePrice_calc_LT (self : OptionValuation) : result OptionValuation :=
  let n := getattr (nsteps (px_spec self)) 3%Z in
  sp <- LT_specs self n ;;
  r <- LowExercisePrice_LT_price sp (S0 (ref self)) (Z.to_nat n)
         (getattr (keep_hist (px_spec self)) false) ;;
  let '(out, S_tree, O_tree) := r in
  Ok (set_px_spec self
        (add_LT (px_spec self) out
           "Binomial tree with the strike price is $0.01; Hull Ch.135"
           sp S_tree O_tree)).

(** ** European._calc_BS *)

(** [x / y] and [math.sqrt(x)] on floats. *)
Definition py_div (x y : R) : result R :=
  if Reqb y 0 then Raise ZeroDivisionError else Ok (x / y).

Definition math_sqrt (x : R) : result R :=
  if Rltb x 0 then Raise ValueError else Ok (sqrt x).

Section BlackScholes.

(** [Util.norm_cdf] of qfrm/util.py is missing from the sources and the
    specification does not describe it: the analytic method takes it as a
    parameter [N]. *)
Variable norm_cdf : R -> R.

Definition European_calc_BS (self : OptionValuation) : result OptionValuation :=
  let s0 := S0 (ref self) in
  let sigma := vol (ref self) in
  ratio <- py_div s0 (K self) ;;
  lg <- math_log ratio ;;
  sqrt_T <- math_sqrt (T self) ;;
  x1 <- py_div (lg + (rf_r self + sigma ^ 2 / 2) * T self) (sigma * sqrt_T) ;;
  let x2 := x1 - sigma * sqrt_T in
  let N := norm_cdf in
  let c := s0 * exp (- q (ref self) * T self) * N x1
           - K self * exp (- rf_r self * T self) * N x2 in
  let pt := - s0 * exp (- q (ref self) * T self) * N (- x1)
            + K self * exp (- rf_r self * T self) * N (- x2) in
  let out := match signCP self with
             | Some s => if Reqb s 1 then Some c
                         else if Reqb s (-1) then Some pt else None
             | None => None
             end in
  Ok (set_px_spec self
        (add_BS (px_spec self) out "standard; Hull p.335" c pt x1 x2)).

(** [European._calc_MC] and [European._calc_FD]: [return self]. *)
Definition European_calc_MC (self : OptionValuation) : result OptionValuation :=
  Ok self.
Definition European_calc_FD (self : OptionValuation) : result OptionValuation :=
  Ok self.

(** Modelled from the spec: [OptionValuation.calc_px] is missing from the
    sources.  The specification calls it the orchestration wrapper that
    dispatches to a named method and stores results: the arguments are saved
    in a fresh [PriceSpec] and the hook [_calc_<method>] is called. *)
Definition European_calc_px (self : OptionValuation) (m : Method)
  (ns np : option Z) (kh : bool) : result OptionValuation :=
  let self' := set_px_spec self (new_PriceSpec m ns np kh) in
  match m with
  | BS => European_calc_BS self'
  | LT => European_calc_LT self'
  | MC => European_calc_MC self'
  | FD => European_calc_FD self'
  end.

End BlackScholes.

(** ** numpy and scipy pieces used by the finite-difference method *)

(** A dense matrix as the list of its rows: [f[j][i]] is the entry at price
    index [j] and time index [i]. *)
Definition matrix : Type := list (list R).

(** [np.zeros((rows, cols))] *)
Definition zeros (rows cols : nat) : matrix := repeat (repeat 0 cols) rows.

(** [f[j, i]], [f[:, i]] *)
Definition get (f : matrix) (j i : nat) : R := nth i (nth j f []) 0.
Definition col (f : matrix) (i : nat) : list R := map (fun row => nth i row 0) f.

(** [f[:, i] = v], [f[j, :] = v] and [f[lo:hi, i] = v] *)
Definition set_col (f : matrix) (i : nat) (v : list R) : matrix :=
  map2 (fun row x => set_nth i x row) f v.
Definition set_row (f : matrix) (j : nat) (v : list R) : matrix :=
  set_nth j v f.
Definition set_col_slice (f : matrix) (lo hi i : nat) (v : list R) : matrix :=
  firstn lo f ++ map2 (fun row x => set_nth i x row) (slice f lo hi) v ++ skipn hi f.

(** [np.linspace(a, b, num)]: [arange(num) * step + a] with
    [step = (b - a) / (num - 1)], the last sample then set to [b]. *)
Definition linspace (a b : R) (num : nat) : list R :=
  match num with
  | O => []
  | S O => [a]
  | S (S _ as m) => map (fun i => INR i * ((b - a) / INR m) + a) (seq 0 m) ++ [b]
  end.

(** [np.interp(x, xp, fp)] for increasing [xp]: [fp[0]] to the left of the
    samples, [fp[-1]] at and to the right of the last one, and on the segment
    [xp[j] <= x < xp[j+1]] the value
    [(fp[j+1] - fp[j]) / (xp[j+1] - xp[j]) * (x - xp[j]) + fp[j]]. *)
Fixpoint interp_scan (x : R) (xp fp : list R) : R :=
  match xp, fp with
  | x0 :: ((x1 :: _) as xp'), f0 :: ((f1 :: _) as fp') =>
      if Rltb x x1 then (f1 - f0) / (x1 - x0) * (x - x0) + f0
      else interp_scan x xp' fp'
  | _, f0 :: _ => f0
  | _, [] => 0
  end.

Definition interp (x : R) (xp fp : list R) : R :=
  match xp, fp with
  | x0 :: _, f0 :: _ => if Rltb x x0 then f0 else interp_scan x xp fp
  | _, _ => 0
  end.

(** [sparse.diags((lower, main, upper), [-1, 0, 1])]: a square tridiagonal
    matrix of the size of [main]. *)
Record Tridiag : Type := {
  lower : list R;
  main : list R;
  upper : list R
}.

(** The product [B . x], computed row by row: [carry] is the term of the
    sub-diagonal, [lower[i-1] * x[i-1]], handed from one row to the next. *)
Fixpoint tri_mul_from (carry : R) (lo mn up x : list R) : list R :=
  match mn, x with
  | b :: mn', x0 :: x' =>
      (carry + b * x0 + hd 0 up * hd 0 x')
      :: tri_mul_from (hd 0 lo * x0) (tl lo) mn' (tl up) x'
  | _, _ => []
  end.

Definition tri_mul (B : Tridiag) (x : list R) : list R :=
  tri_mul_from 0 (lower B) (main B) (upper B) x.

(** Row [i] of [B . x] by its indices:
    [lower[i-1] * x[i-1] + main[i] * x[i] + upper[i] * x[i+1]]. *)
Definition tri_row (B : Tridiag) (x : list R) (i : nat) : R :=
  match i with
  | O => 0
  | S i' => nth i' (lower B) 0 * nth i' x 0
  end
  + nth i (main B) 0 * nth i x 0
  + nth i (upper B) 0 * nth (S i) x 0.

(** The exact solve of a tridiagonal system by elimination without pivoting.
    The system is given as its first row [b * x0 + ... = d0] and, for each
    further unknown, the tuple [(c, a, b', d')]: [c] couples the previous row
    to this unknown, [a] this row to the previous unknown, [b'] is the
    diagonal entry and [d'] the right-hand side. *)
Fixpoint eliminate (b d0 : R) (rest : list (R * R * R * R)) : option (list R) :=
  if Reqb b 0 then None
  else
    match rest with
    | [] => Some [d0 / b]
    | (c, a, b', d') :: rest' =>
        match eliminate (b' - a * c / b) (d' - a * d0 / b) rest' with
        | Some (x1 :: xs) => Some ((d0 - c * x1) / b :: x1 :: xs)
        | _ => None
        end
    end.

(** [sparse.linalg.spsolve(B, rhs)].  scipy's routine is external: it is
    modelled by the elimination above, which returns the solution of
    [B . x = rhs] whenever it returns (lemma [spsolve_sound]) and that solution
    is then the only one (lemma [spsolve_unique]); [None] stands for a zero
    pivot. *)
Definition spsolve (B : Tridiag) (rhs : list R) : option (list R) :=
  match main B, rhs with
  | b :: bs, d0 :: ds =>
      eliminate b d0 (combine (combine (combine (upper B) (lower B)) bs) ds)
  | _, _ => None
  end.

(** ** LowExercisePrice._calc_FD *)

(** A boolean as a float factor, as in [np.maximum(...) * (S_vec >= K2)]. *)
Definition float_of_bool (b : bool) : R := if b then 1 else 0.

Section FiniteDifference.

(** The local variables of [_calc_FD] once the assertions have passed:
    [is_call] is [self.right == 'call'], [s0] is [S0], [sigma] is [vol],
    [qd] is [q] (a [Stock] always has the attribute, so the [try] around
    its read never fails); the hard-coded [K = 0.01] and [K2 = 0] are [FD_K] and
    [FD_K2]. *)
Variables (is_call : bool) (s0 sigma ttm r qd : R).
Variables (px_paths time_steps : nat).

Definition FD_K : R := 1 / 100.
Definition FD_K2 : R := 0.

Definition FD_M : nat := px_paths - 1.
Definition FD_N : nat := time_steps - 1.

Definition S_max : R := s0 * 2.
Definition S_min : R := 0.
Definition d_t : R := ttm / INR (time_steps - 1).
Definition S_vec : list R := linspace S_min S_max px_paths.
Definition t_vec : list R := linspace 0 ttm time_steps.

(** [S_vec[-1]] and [S_vec[0]] *)
Definition S_last : R := last S_vec 0.
Definition S_first : R := nth 0 S_vec 0.

Definition init_cond : list R :=
  if is_call
  then map (fun s => Rmax (s - FD_K) 0 * float_of_bool (Rleb FD_K2 s)) S_vec
  else map (fun s => Rmax (FD_K - s) 0 * float_of_bool (Rleb s FD_K2)) S_vec.

(** A scalar bound [0] is applied to the whole row by the assignment
    [f_px[0,:] = upper_bound]: it is the row of zeros here. *)
Definition upper_bound : list R :=
  if is_call
  then repeat 0 time_steps
  else map (fun t => Rmax (FD_K - S_first) 0 * float_of_bool (Rleb S_first FD_K2)
                     * exp (- r * (ttm - t))) t_vec.

Definition lower_bound : list R :=
  if is_call
  then map (fun t => Rmax (S_last - FD_K) 0 * float_of_bool (Rleb FD_K2 S_last)
                     * exp (- r * (ttm - t))) t_vec
  else repeat 0 time_steps.

Definition j_list : list nat := seq 0 (FD_M + 1).
Definition a_coef (j : nat) : R :=
  0.5 * d_t * ((r - qd) * INR j - sigma ^ 2 * INR j ^ 2).
Definition b_coef (j : nat) : R :=
  1 + d_t * (sigma ^ 2 * INR j ^ 2 + r).
Definition c_coef (j : nat) : R :=
  0.5 * d_t * (- (r - qd) * INR j - sigma ^ 2 * INR j ^ 2).
Definition a_list : list R := map a_coef j_list.
Definition b_list : list R := map b_coef j_list.
Definition c_list : list R := map c_coef j_list.

(** [data = (a_list[2:M], b_list[1:M], c_list[1:M-1])];
    [B = sparse.diags(data, [-1, 0, 1]).tocsc()] *)
Definition FD_B : Tridiag :=
  {| lower := slice a_list 2 FD_M;
     main := slice b_list 1 FD_M;
     upper := slice c_list 1 (FD_M - 1) |}.

(** The grid before the loop: [np.zeros], [f_px[:,-1] = S_vec], then
    [f_px[:,N] = init_cond], [f_px[0,:] = upper_bound],
    [f_px[M,:] = lower_bound]. *)
Definition FD_init : matrix :=
  let f0 := zeros px_paths time_steps in
  let f1 := set_col f0 (time_steps - 1) S_vec in
  let f2 := set_col f1 FD_N init_cond in
  let f3 := set_row f2 0 upper_bound in
  set_row f3 FD_M lower_bound.

(** [Offset[0] = -a_list[1]*f_px[0,idx]] then
    [Offset[-1] = -c_list[M-1]*f_px[M,idx]], on the array [Offset] that
    lives across the turns of the loop. *)
Definition FD_Offset (f : matrix) (idx : nat) (Offset : list R) : list R :=
  let Offset1 := set_nth 0 (- nth 1 a_list 0 * get f 0 idx) Offset in
  set_nth (length Offset1 - 1) (- nth (FD_M - 1) c_list 0 * get f FD_M idx) Offset1.

(** [f_px[1:M,idx] = sparse.linalg.spsolve(B, f_px[1:M,idx+1] + Offset)] *)
Definition FD_solve (idx : nat) (st : matrix * list R) : result (matrix * list R) :=
  let '(f, Offset) := st in
  let Offset' := FD_Offset f idx Offset in
  match spsolve FD_B (map2 Rplus (slice (col f (idx + 1)) 1 FD_M) Offset') with
  | Some x => Ok (set_col_slice f 1 FD_M idx x, Offset')
  | None => Raise SingularMatrix
  end.

(** [f_px[:,-1] = init_cond; f_px[0,:] = upper_bound; f_px[-1,:] = lower_bound] *)
Definition FD_reapply (f : matrix) : matrix :=
  let f1 := set_col f (time_steps - 1) init_cond in
  let f2 := set_row f1 0 upper_bound in
  set_row f2 (px_paths - 1) lower_bound.

(** One turn of the loop [for idx in np.arange(N-1,-1,-1)], as written, and
    the same turn without the three re-assignments. *)
Definition FD_step (idx : nat) (st : matrix * list R) : result (matrix * list R) :=
  st' <- FD_solve idx st ;;
  Ok (FD_reapply (fst st'), snd st').

Definition FD_step_bare (idx : nat) (st : matrix * list R) : result (matrix * list R) :=
  FD_solve idx st.

(** The loop runs [idx = k-1, ..., 0]. *)
Fixpoint FD_loop (step : nat -> matrix * list R -> result (matrix * list R))
  (k : nat) (st : matrix * list R) : result (matrix * list R) :=
  match k with
  | O => Ok st
  | S idx => st' <- step idx st ;; FD_loop step idx st'
  end.

(** The grid after the loop, with [Offset = np.zeros(M-1)] at its start. *)
Definition FD_grid_with (step : nat -> matrix * list R -> result (matrix * list R))
  : result matrix :=
  st <- FD_loop step FD_N (FD_init, repeat 0 (FD_M - 1)) ;;
  Ok (fst st).

Definition FD_grid : result matrix := FD_grid_with FD_step.
Definition FD_grid_bare : result matrix := FD_grid_with FD_step_bare.

(** [float(np.interp(S0, S_vec, f_px[:,0]))] *)
Definition FD_price_of (f : matrix) : R := interp s0 S_vec (col f 0).

Definition FD_price : result R := f <- FD_grid ;; Ok (FD_price_of f).
Definition FD_price_bare : result R := f <- FD_grid_bare ;; Ok (FD_price_of f).

End FiniteDifference.

(** The size checks that numpy and scipy make on the way: each raises where
    the source line named in the comment runs. *)
Definition FD_shape (px_paths time_steps : Z) : result (nat * nat) :=
  if (px_paths - 1 =? 0)%Z then Raise ZeroDivisionError      (* d_px = S_max/(px_paths-1) *)
  else if (time_steps - 1 =? 0)%Z then Raise ZeroDivisionError (* d_t = ttm/(time_steps-1) *)
  else if (px_paths <? 0)%Z then Raise ValueError             (* np.linspace(.., px_paths) *)
  else if (time_steps <? 0)%Z then Raise ValueError           (* np.linspace(.., time_steps) *)
  else if (time_steps =? 0)%Z then Raise IndexError           (* f_px[:,-1] = S_vec *)
  else if (px_paths =? 0)%Z then Raise IndexError             (* S_vec[-1], S_vec[0] *)
  else if (px_paths =? 2)%Z then Raise ValueError             (* sparse.diags: empty diagonal *)
  else Ok (Z.to_nat px_paths, Z.to_nat time_steps).

Definition LowExercisePrice_calc_FD_with
  (price : bool -> R -> R -> R -> R -> R -> nat -> nat -> result R)
  (self : OptionValuation) : result OptionValuation :=
  _ <- py_assert (String.eqb (right self) "call" || String.eqb (right self) "put")
         "right must be call or put" ;;
  _ <- py_assert (Rltb 0 (vol (ref self))) "vol must be >=0" ;;
  _ <- py_assert (Rltb 0 (K self)) "K must be > 0" ;;
  _ <- py_assert (Rltb 0 (T self)) "T must be > 0" ;;
  _ <- py_assert (Rleb 0 (S0 (ref self))) "S must be >= 0" ;;
  _ <- py_assert (Rleb 0 (rf_r self)) "r must be >= 0" ;;
  let time_steps := getattr (nsteps (px_spec self)) 3%Z in
  let px_paths := getattr (npaths (px_spec self)) 3%Z in
  shape <- FD_shape px_paths time_steps ;;
  out <- price (String.eqb (right self) "call") (S0 (ref self)) (vol (ref self))
           (T self) (rf_r self) (q (ref self)) (fst shape) (snd shape) ;;
  Ok (set_px_spec self (add_FD (px_spec self) out "Implicit Method")).

Definition LowExercisePrice_calc_FD : OptionValuation -> result OptionValuation :=
  LowExercisePrice_calc_FD_with FD_price.

(** [_calc_FD] with the three re-assignments deleted from the loop body. *)
Definition LowExercisePrice_calc_FD_bare : OptionValuation -> result OptionValuation :=
  LowExercisePrice_calc_FD_with FD_price_bare.

(** [LowExercisePrice._calc_BS] and [_calc_MC]: [return self]. *)
Definition LowExercisePrice_calc_BS (self : OptionValuation) : result OptionValuation :=
  Ok self.
Definition LowExercisePrice_calc_MC (self : OptionValuation) : result OptionValuation :=
  Ok self.

(** [LowExercisePrice.calc_px]: [self.K=0.01; self.right='call'] and then the
    dispatch of the base class.

    Modelled from the spec: [OptionValuation.calc_px] is missing from the
    sources.  The specification calls it the orchestration wrapper that
    dispatches to a named method and stores results: the arguments are saved
    in a fresh [PriceSpec] and the hook [_calc_<method>] is called. *)
Definition LowExercisePrice_calc_px (self : OptionValuation) (m : Method)
  (ns np : option Z) (kh : bool) : result OptionValuation :=
  let self1 := set_K_right self (1 / 100) "call" in
  let self2 := set_px_spec self1 (new_PriceSpec m ns np kh) in
  match m with
  | BS => LowExercisePrice_calc_BS self2
  | LT => LowExercisePrice_calc_LT self2
  | MC => LowExercisePrice_calc_MC self2
  | FD => LowExercisePrice_calc_FD self2
  end.

(** ** Specification-side definitions used in the statements *)

(** One backward step of a value level and of a price level, in the words of
    the specification: each new value is [df_dt * ((1-p)*O[j] + p*O[j+1])] and
    each new price is [d * S[j+1]]. *)
Definition roll_O (sp : LatticeSpecs) (O_ : list R) : list R :=
  map2 (fun x y => df_dt sp * ((1 - p sp) * x + p sp * y)) O_ (tl O_).

Definition roll_S (sp : LatticeSpecs) (S_ : list R) : list R :=
  map (fun s => d sp * s) (tl S_).

(** The levels [g^m top, ..., g^1 top] that [m] turns of the loop prepend. *)
Definition levels (g : list R -> list R) (m : nat) (top : list R) : tree :=
  map (fun k => Nat.iter k g top) (rev (seq 1 m)).

(** The binomial expectation [sum_i C(n,i) * p^i * (1-p)^(n-i) * a(i)]. *)
Definition binomial_sum (n : nat) (pr : R) (a : nat -> R) : R :=
  sum_f_R0 (fun i => C n i * pr ^ i * (1 - pr) ^ (n - i) * a i) n.

(** [log(k!)], the entries of [csl]. *)
Definition logFact (k : nat) : R := ln (INR (fact k)).

(** The price stored by a pricing call, if any. *)
Definition price_of (r : result OptionValuation) : result (option R) :=
  o <- r ;; Ok (px (px_spec o)).

(** The exponent of weight [i], as the specification writes it:
    [logFact[n] - logFact[i] - logFact[n-i] + i*log(p) + (n-i)*log(1-p)]. *)
Definition log_weight (n : nat) (log_p log_1p : R) (i : nat) : R :=
  logFact n - logFact i - logFact (n - i) + INR i * log_p + INR (n - i) * log_1p.

(** The same object with [keep_hist] and with [nsteps] set in its [px_spec]. *)
Definition with_keep_hist (self : OptionValuation) (kh : bool) : OptionValuation :=
  set_px_spec self
    {| method := method (px_spec self); nsteps := nsteps (px_spec self);
       npaths := npaths (px_spec self); keep_hist := Some kh;
       px := px (px_spec self); sub_method := sub_method (px_spec self);
       px_LT_specs := px_LT_specs (px_spec self);
       ref_tree := ref_tree (px_spec self); opt_tree := opt_tree (px_spec self);
       px_call := px_call (px_spec self); px_put := px_put (px_spec self);
       d1 := d1 (px_spec self); d2 := d2 (px_spec self) |}.

(** The full-history tree in the words of the specification: [n + 1] steps
    ordered from the valuation date to maturity, step [i] with [i + 1]
    elements; the terminal prices and payoffs; the backward relation between
    consecutive steps. *)
Definition full_history_tree (sp : LatticeSpecs) (s0 k sgn : R) (n : nat)
  (S_tree O_tree : tree) : Prop :=
  length S_tree = S n /\ length O_tree = S n /\
  (forall i, (i <= n)%nat ->
     length (nth i S_tree []) = S i /\ length (nth i O_tree []) = S i) /\
  (forall i, (i <= n)%nat ->
     nth i (nth n S_tree []) 0 = s0 * d sp ^ (n - i) * u sp ^ i) /\
  (forall i, (i <= n)%nat ->
     nth i (nth n O_tree []) 0 = Rmax (sgn * (nth i (nth n S_tree []) 0 - k)) 0) /\
  (forall i j, (i < n)%nat -> (j <= i)%nat ->
     nth j (nth i O_tree []) 0
     = df_dt sp * ((1 - p sp) * nth j (nth (S i) O_tree []) 0
                   + p sp * nth (S j) (nth (S i) O_tree []) 0) /\
     nth j (nth i S_tree []) 0 = d sp * nth (S j) (nth (S i) S_tree []) 0).

(** The price component of the result of the body of [_calc_LT]. *)
Definition LT_out (r : result (R * option tree * option tree)) : result R :=
  x <- r ;; Ok (fst (fst x)).

(** A grid of [rows] price levels and [cols] time levels. *)
Definition shaped (rows cols : nat) (f : matrix) : Prop :=
  length f = rows /\ forall j, (j < rows)%nat -> length (nth j f []) = cols.

(** The invariant of the finite-difference loop: the grid has its shape and
    already holds the terminal and boundary values, so that the three
    re-assignments leave it as it is. *)
Definition FD_invariant (is_call : bool) (s0 ttm r : R) (px_paths time_steps : nat)
  (f : matrix) : Prop :=
  shaped px_paths time_steps f
  /\ FD_reapply is_call s0 ttm r px_paths time_steps f = f.

(** The array [Offset] holds zeros between its two ends. *)
Definition mid_zero (Offset : list R) : Prop :=
  forall i, (0 < i)%nat -> (i < length Offset - 1)%nat -> nth i Offset 0 = 0.

(** Row dominance of a tridiagonal system in the form that [eliminate]
    takes: [couple rest] is the size of the coupling of the first row of
    [rest] to the unknown before it, and in every row the diagonal entry
    exceeds the sum of the sizes of its two neighbours. *)
Definition couple (rest : list (R * R * R * R)) : R :=
  match rest with
  | [] => 0
  | (c, _, _, _) :: _ => Rabs c
  end.

Fixpoint dominant (rest : list (R * R * R * R)) : Prop :=
  match rest with
  | [] => True
  | (_, a, b', _) :: rest' => Rabs a + couple rest' < b' /\ dominant rest'
  end.

(** Row dominance of the matrix [B] of the finite-difference method: in row
    [j] the diagonal entry exceeds the sizes of the neighbours that the row
    has inside the matrix. *)
Definition FD_dominant (sigma ttm r qd : R) (px_paths time_steps : nat) : Prop :=
  forall j, (1 <= j < FD_M px_paths)%nat ->
    (if Nat.leb 2 j then Rabs (a_coef sigma ttm r qd time_steps j) else 0)
    + (if Nat.ltb j (FD_M px_paths - 1)
       then Rabs (c_coef sigma ttm r qd time_steps j) else 0)
    < b_coef sigma ttm r time_steps j.

(** The preconditions that [_calc_FD] asserts. *)
Definition FD_preconditions (self : OptionValuation) : Prop :=
  (right self = "call"%string \/ right self = "put"%string)
  /\ 0 < vol (ref self) /\ 0 < K self /\ 0 < T self
  /\ 0 <= S0 (ref self) /\ 0 <= rf_r self.

(** ... and their violation, case by case. *)
Definition FD_violation (self : OptionValuation) : Prop :=
  (right self <> "call"%string /\ right self <> "put"%string)
  \/ vol (ref self) <= 0 \/ K self <= 0 \/ T self <= 0
  \/ S0 (ref self) < 0 \/ rf_r self < 0.

(** ** Quantities read off the body of the tree engine *)

(** The terminal price of node [i] of an [n]-step lattice, entry [i] of
    [S = d**decr_n * u**incr_n * S0]. *)
Definition node_price (sp : LatticeSpecs) (s0 : R) (n i : nat) : R :=
  d sp ^ (n - i) * u sp ^ i * s0.

(** The terminal payoff of one price, an entry of
    [O = ((S - K) * signCP).max(0)]. *)
Definition payoff (s k sgn : R) : R := Rmax ((s - k) * sgn) 0.

(** The expected growth of the price over one step of the lattice. *)
Definition growth (sp : LatticeSpecs) : R := p sp * u sp + (1 - p sp) * d sp.

(** The discount that a mode applies: [df_dt^n] step by step, [df_T] at once. *)
Definition LT_discount (sp : LatticeSpecs) (n : nat) (keep : bool) : R :=
  if keep then df_dt sp ^ n else df_T sp.

(** The same option quoted in another unit of money: the underlying price
    and the strike both multiplied by [lam]. *)
Definition rescaled (self : OptionValuation) (lam : R) : OptionValuation :=
  {| ref := {| S0 := lam * S0 (ref self); vol := vol (ref self);
               q := q (ref self) |};
     right := right self; K := lam * K self; T := T self;
     rf_r := rf_r self; px_spec := px_spec self |}.

(** Strictly increasing samples, what [np.interp] expects of [xp]. *)
Definition increasing (xp : list R) : Prop :=
  forall i j, (i < j)%nat -> (j < length xp)%nat -> nth i xp 0 < nth j xp 0.

(** * Properties *)

(** ** Comparisons *)

Lemma Rleb_true (x y : R) : x <= y -> Rleb x y = true.
Proof. intros H. unfold Rleb. now destruct (Rle_dec x y). Qed.

Lemma Rleb_false (x y : R) : y < x -> Rleb x y = false.
Proof. intros H. unfold Rleb. destruct (Rle_dec x y); [lra|reflexivity]. Qed.

Lemma Rltb_true (x y : R) : x < y -> Rltb x y = true.
Proof. intros H. unfold Rltb. now destruct (Rlt_dec x y). Qed.

Lemma Rltb_false (x y : R) : y <= x -> Rltb x y = false.
Proof. intros H. unfold Rltb. destruct (Rlt_dec x y); [lra|reflexivity]. Qed.

(** ** Sequences *)

Lemma length_map2 {A B C : Type} (f : A -> B -> C) (xs : list A) (ys : list B) :
  length (map2 f xs ys) = Nat.min (length xs) (length ys).
Proof.
  revert ys; induction xs as [|x xs IH]; intros [|y ys]; simpl; auto.
Qed.

Lemma nth_map2 {A B C : Type} (f : A -> B -> C) (xs : list A) (ys : list B)
  (i : nat) (da : A) (db : B) (dc : C) :
  (i < length xs)%nat -> (i < length ys)%nat ->
  nth i (map2 f xs ys) dc = f (nth i xs da) (nth i ys db).
Proof.
  revert ys i; induction xs as [|x xs IH]; intros [|y ys] [|i]; simpl;
    intros H1 H2; try lia; auto.
  apply IH; lia.
Qed.

Lemma map2_map_l {A A' B C : Type} (f : A' -> B -> C) (g : A -> A')
  (xs : list A) (ys : list B) :
  map2 f (map g xs) ys = map2 (fun x y => f (g x) y) xs ys.
Proof.
  revert ys; induction xs as [|x xs IH]; intros [|y ys]; simpl; auto.
  now rewrite IH.
Qed.

Lemma map2_map_r {A B B' C : Type} (f : A -> B' -> C) (g : B -> B')
  (xs : list A) (ys : list B) :
  map2 f xs (map g ys) = map2 (fun x y => f x (g y)) xs ys.
Proof.
  revert ys; induction xs as [|x xs IH]; intros [|y ys]; simpl; auto.
  now rewrite IH.
Qed.

Lemma map_map2 {A B C D : Type} (g : C -> D) (f : A -> B -> C)
  (xs : list A) (ys : list B) :
  map g (map2 f xs ys) = map2 (fun x y => g (f x y)) xs ys.
Proof.
  revert ys; induction xs as [|x xs IH]; intros [|y ys]; simpl; auto.
  now rewrite IH.
Qed.

Lemma map2_ext {A B C : Type} (f g : A -> B -> C) (xs : list A) (ys : list B) :
  (forall x y, f x y = g x y) -> map2 f xs ys = map2 g xs ys.
Proof.
  intros H; revert ys; induction xs as [|x xs IH]; intros [|y ys]; simpl; auto.
  now rewrite H, IH.
Qed.

Lemma map2_firstn_l {A B C : Type} (f : A -> B -> C) (xs : list A) (ys : list B) :
  map2 f (firstn (length ys) xs) ys = map2 f xs ys.
Proof.
  revert ys; induction xs as [|x xs IH]; intros [|y ys]; simpl; auto.
  now rewrite IH.
Qed.

Lemma slice_0 {A : Type} (l : list A) (i : nat) : slice l 0 i = firstn i l.
Proof. unfold slice; simpl. now rewrite Nat.sub_0_r. Qed.

Lemma slice_tail {A : Type} (l : list A) (i : nat) :
  length l = S i -> slice l 1 (i + 1) = tl l.
Proof.
  intros H; unfold slice. replace (i + 1 - 1)%nat with i by lia.
  destruct l as [|x l]; simpl in *; [discriminate|].
  apply firstn_all2; lia.
Qed.

Lemma skipn_1 {A : Type} (l : list A) : skipn 1 l = tl l.
Proof. now destruct l. Qed.

Lemma length_tl {A : Type} (l : list A) : length (tl l) = (length l - 1)%nat.
Proof. destruct l; simpl; lia. Qed.

Lemma nth_tl {A : Type} (l : list A) (i : nat) (dflt : A) :
  nth i (tl l) dflt = nth (S i) l dflt.
Proof. destruct l; simpl; auto. now destruct i. Qed.

Lemma nth_rev_seq (n i : nat) :
  (i <= n)%nat -> nth i (rev (seq 0 (S n))) 0%nat = (n - i)%nat.
Proof.
  intros H. rewrite rev_nth by (rewrite length_seq; lia).
  rewrite length_seq, seq_nth by lia. lia.
Qed.

Lemma py_sum_fold (xs : list R) (acc : R) :
  fold_left Rplus xs acc = acc + fold_left Rplus xs 0.
Proof.
  revert acc; induction xs as [|x xs IH]; intros acc; simpl; [lra|].
  rewrite (IH (acc + x)), (IH (0 + x)). lra.
Qed.

Lemma py_sum_cons (x : R) (xs : list R) : py_sum (x :: xs) = x + py_sum xs.
Proof. unfold py_sum; simpl. rewrite py_sum_fold. lra. Qed.

(** [sum] of a sequence of [n + 1] floats, as an indexed sum. *)
Lemma py_sum_nth (xs : list R) (n : nat) :
  length xs = S n -> py_sum xs = sum_f_R0 (fun i => nth i xs 0) n.
Proof.
  revert xs; induction n as [|n IH]; intros xs H.
  - destruct xs as [|x [|y xs]]; try discriminate. rewrite py_sum_cons; simpl.
    unfold py_sum; simpl; lra.
  - destruct xs as [|x xs]; [discriminate|]. rewrite py_sum_cons.
    rewrite decomp_sum by lia. simpl pred. simpl nth at 1.
    f_equal. rewrite (IH xs) by (simpl in H; lia). apply sum_eq; intros i _. reflexivity.
Qed.

(** ** The backward walk of the binomial tree *)

Lemma length_roll_O (sp : LatticeSpecs) (O_ : list R) :
  length (roll_O sp O_) = (length O_ - 1)%nat.
Proof. unfold roll_O. rewrite length_map2, length_tl. lia. Qed.

Lemma length_roll_S (sp : LatticeSpecs) (S_ : list R) :
  length (roll_S sp S_) = (length S_ - 1)%nat.
Proof. unfold roll_S. now rewrite length_map, length_tl. Qed.

Lemma nth_roll_O (sp : LatticeSpecs) (O_ : list R) (j : nat) :
  (S j < length O_)%nat ->
  nth j (roll_O sp O_) 0
  = df_dt sp * ((1 - p sp) * nth j O_ 0 + p sp * nth (S j) O_ 0).
Proof.
  intros H. unfold roll_O.
  rewrite (nth_map2 _ _ _ _ 0 0) by (rewrite ?length_tl; lia).
  now rewrite nth_tl.
Qed.

Lemma nth_roll_S (sp : LatticeSpecs) (S_ : list R) (j : nat) :
  (S j < length S_)%nat ->
  nth j (roll_S sp S_) 0 = d sp * nth (S j) S_ 0.
Proof.
  intros H. unfold roll_S.
  rewrite (nth_indep _ 0 (d sp * 0)) by (rewrite length_map, length_tl; lia).
  rewrite (map_nth (fun s => d sp * s)). now rewrite nth_tl.
Qed.

Lemma length_iter_roll_O (sp : LatticeSpecs) (k : nat) (O_ : list R) :
  length (Nat.iter k (roll_O sp) O_) = (length O_ - k)%nat.
Proof.
  induction k as [|k IH]; simpl; [lia|]. rewrite length_roll_O, IH. lia.
Qed.

Lemma length_iter_roll_S (sp : LatticeSpecs) (k : nat) (S_ : list R) :
  length (Nat.iter k (roll_S sp) S_) = (length S_ - k)%nat.
Proof.
  induction k as [|k IH]; simpl; [lia|]. rewrite length_roll_S, IH. lia.
Qed.

Lemma iter_shift {A : Type} (g : A -> A) (k : nat) (x : A) :
  Nat.iter k g (g x) = g (Nat.iter k g x).
Proof. induction k as [|k IH]; simpl; congruence. Qed.

(** The two slices of a turn of the loop are the level and its tail. *)
Lemma European_LT_step_roll sp i S_ O_ S_tree O_tree :
  length S_ = S i -> length O_ = S i ->
  European_LT_step sp i (S_, O_, S_tree, O_tree)
  = (roll_S sp S_, roll_O sp O_, roll_S sp S_ :: S_tree, roll_O sp O_ :: O_tree).
Proof.
  intros HS HO. unfold European_LT_step.
  assert (EO : Vec.scale (Vec.add (Vec.scale (slice O_ 0 i) (1 - p sp))
                                  (Vec.scale (skipn 1 O_) (p sp))) (df_dt sp)
               = roll_O sp O_).
  { unfold Vec.scale, Vec.add, roll_O. rewrite slice_0, skipn_1.
    rewrite map_map2, map2_map_l, map2_map_r.
    replace i with (length (tl O_)) at 1 by (rewrite length_tl; lia).
    rewrite map2_firstn_l. apply map2_ext; intros; ring. }
  assert (ES : Vec.scale (slice S_ 1 (i + 1)) (d sp) = roll_S sp S_).
  { unfold Vec.scale, roll_S. rewrite slice_tail by assumption.
    apply map_ext; intros; ring. }
  now rewrite EO, ES.
Qed.

Lemma LowExercisePrice_LT_step_roll sp i S_ O_ S_tree O_tree :
  length S_ = S i -> length O_ = S i ->
  LowExercisePrice_LT_step sp i (S_, O_, S_tree, O_tree)
  = (roll_S sp S_, roll_O sp O_, roll_S sp S_ :: S_tree, roll_O sp O_ :: O_tree).
Proof.
  intros HS HO. unfold LowExercisePrice_LT_step.
  assert (EO : map (fun x => df_dt sp * x)
                 (map2 Rplus (map (fun o => (1 - p sp) * o) (slice O_ 0 i))
                             (map (fun o => p sp * o) (skipn 1 O_)))
               = roll_O sp O_).
  { unfold roll_O. rewrite slice_0, skipn_1.
    rewrite map_map2, map2_map_l, map2_map_r.
    replace i with (length (tl O_)) at 1 by (rewrite length_tl; lia).
    rewrite map2_firstn_l. reflexivity. }
  assert (ES : map (fun s => d sp * s) (slice S_ 1 (i + 1)) = roll_S sp S_).
  { unfold roll_S. now rewrite slice_tail by assumption. }
  now rewrite EO, ES.
Qed.

Lemma levels_S (g : list R -> list R) (m : nat) (top : list R) :
  levels g (S m) top = Nat.iter (S m) g top :: levels g m top.
Proof.
  unfold levels. rewrite seq_S, rev_app_distr. reflexivity.
Qed.

Lemma levels_shift (g : list R -> list R) (m : nat) (top : list R) :
  levels g (S m) top = levels g m (g top) ++ [g top].
Proof.
  unfold levels. simpl seq. simpl rev. rewrite map_app. simpl.
  f_equal. rewrite <- seq_shift, <- map_rev, map_map.
  apply map_ext; intros k. simpl. now rewrite iter_shift.
Qed.

(** A loop of [m] turns started on a level of [m + 1] elements prepends the
    [m] shorter levels. *)
Lemma LT_loop_levels
  (loop : LatticeSpecs -> nat -> list R * list R * tree * tree
          -> list R * list R * tree * tree)
  (step : LatticeSpecs -> nat -> list R * list R * tree * tree
          -> list R * list R * tree * tree) sp :
  (forall i st, loop sp (S i) st = loop sp i (step sp (S i) st)) ->
  (forall st, loop sp O st = st) ->
  (forall i S_ O_ S_tree O_tree,
      length S_ = S i -> length O_ = S i ->
      step sp i (S_, O_, S_tree, O_tree)
      = (roll_S sp S_, roll_O sp O_, roll_S sp S_ :: S_tree, roll_O sp O_ :: O_tree)) ->
  forall m S_ O_ S_tree O_tree,
    length S_ = S m -> length O_ = S m ->
    loop sp m (S_, O_, S_tree, O_tree)
    = (Nat.iter m (roll_S sp) S_, Nat.iter m (roll_O sp) O_,
       levels (roll_S sp) m S_ ++ S_tree, levels (roll_O sp) m O_ ++ O_tree).
Proof.
  intros Hloop Hloop0 Hstep. induction m as [|m IH]; intros S_ O_ S_tree O_tree HS HO.
  - now rewrite Hloop0.
  - rewrite Hloop, Hstep by assumption.
    rewrite IH by (rewrite ?length_roll_S, ?length_roll_O; lia).
    rewrite !(levels_shift _ m), <- !app_assoc. simpl.
    now rewrite !iter_shift.
Qed.

Lemma European_LT_loop_levels sp m S_ O_ S_tree O_tree :
  length S_ = S m -> length O_ = S m ->
  European_LT_loop sp m (S_, O_, S_tree, O_tree)
  = (Nat.iter m (roll_S sp) S_, Nat.iter m (roll_O sp) O_,
     levels (roll_S sp) m S_ ++ S_tree, levels (roll_O sp) m O_ ++ O_tree).
Proof.
  apply (LT_loop_levels European_LT_loop European_LT_step); auto.
  intros; now apply European_LT_step_roll.
Qed.

Lemma LowExercisePrice_LT_loop_levels sp m S_ O_ S_tree O_tree :
  length S_ = S m -> length O_ = S m ->
  LowExercisePrice_LT_loop sp m (S_, O_, S_tree, O_tree)
  = (Nat.iter m (roll_S sp) S_, Nat.iter m (roll_O sp) O_,
     levels (roll_S sp) m S_ ++ S_tree, levels (roll_O sp) m O_ ++ O_tree).
Proof.
  apply (LT_loop_levels LowExercisePrice_LT_loop LowExercisePrice_LT_step); auto.
  intros; now apply LowExercisePrice_LT_step_roll.
Qed.

(** Level [i] of a finished tree is the terminal level rolled [n - i] times. *)
Lemma nth_levels (g : list R -> list R) (n i : nat) (top : list R) :
  (i <= n)%nat -> nth i (levels g n top ++ [top]) [] = Nat.iter (n - i) g top.
Proof.
  intros H.
  assert (E : levels g n top ++ [top]
              = map (fun k => Nat.iter k g top) (rev (seq 0 (S n)))).
  { unfold levels. simpl seq. simpl rev. rewrite map_app. reflexivity. }
  rewrite E. rewrite (nth_indep _ [] ((fun k => Nat.iter k g top) 0%nat))
    by (rewrite length_map, length_rev, length_seq; lia).
  rewrite (map_nth (fun k => Nat.iter k g top)). now rewrite nth_rev_seq.
Qed.

Lemma length_levels (g : list R -> list R) (n : nat) (top : list R) :
  length (levels g n top ++ [top]) = S n.
Proof.
  unfold levels. rewrite length_app, length_map, length_rev, length_seq. simpl; lia.
Qed.

(** ** The binomial collapse of the backward walk *)

Lemma C_n_0 (n : nat) : C n 0 = 1.
Proof.
  unfold C. rewrite Nat.sub_0_r. simpl fact at 2. simpl INR at 2.
  field. apply INR_fact_neq_0.
Qed.

Lemma C_n_n (n : nat) : C n n = 1.
Proof.
  unfold C. rewrite Nat.sub_diag. simpl fact at 3. simpl INR at 3.
  field. apply INR_fact_neq_0.
Qed.

Lemma exp_pow_INR (x : R) (n : nat) : exp x ^ n = exp (INR n * x).
Proof.
  induction n as [|n IH].
  - simpl. now rewrite Rmult_0_l, exp_0.
  - rewrite S_INR. simpl pow. rewrite IH, <- exp_plus. f_equal; ring.
Qed.

(** Pascal's rule, summed: one backward step turns the weights of [k] steps
    into those of [k + 1]. *)
Lemma pascal_sum (k : nat) (pr : R) (a : nat -> R) :
  sum_f_R0 (fun i => C k i * pr ^ i * (1 - pr) ^ (k - i)
                     * ((1 - pr) * a i + pr * a (S i))) k
  = binomial_sum (S k) pr a.
Proof.
  unfold binomial_sum. set (w := 1 - pr).
  set (f := fun i => C k i * pr ^ i * w ^ (k - i)).
  rewrite (sum_eq _ (fun i => f i * w * a i + f i * pr * a (S i)))
    by (intros; unfold f; ring).
  rewrite sum_plus.
  destruct k as [|k].
  - unfold f. cbn [sum_f_R0].
    rewrite (C_n_0 1), (C_n_n 1), (C_n_0 0). simpl. ring.
  - rewrite (decomp_sum (fun i => f i * w * a i)) by lia. simpl pred.
    rewrite (tech5 (fun i => f i * pr * a (S i))).
    rewrite (decomp_sum _ (S (S k))) by lia. simpl pred.
    rewrite (tech5 _ k).
    assert (E0 : C (S (S k)) 0 * pr ^ 0 * w ^ (S (S k) - 0) * a 0%nat
                 = f 0%nat * w * a 0%nat).
    { unfold f. rewrite !C_n_0. simpl. ring. }
    assert (El : C (S (S k)) (S (S k)) * pr ^ S (S k) * w ^ (S (S k) - S (S k))
                 * a (S (S k))
                 = f (S k) * pr * a (S (S k))).
    { unfold f. rewrite !C_n_n, !Nat.sub_diag. simpl. ring. }
    assert (Em : sum_f_R0 (fun i => C (S (S k)) (S i) * pr ^ S i
                                    * w ^ (S (S k) - S i) * a (S i)) k
                 = sum_f_R0 (fun i => f (S i) * w * a (S i)) k
                   + sum_f_R0 (fun i => f i * pr * a (S i)) k).
    { rewrite <- sum_plus. apply sum_eq; intros i Hi.
      rewrite <- (pascal (S k) i) by lia. unfold f.
      replace (S (S k) - S i)%nat with (S (S k - S i)) by lia.
      replace (S k - i)%nat with (S (S k - S i)) by lia.
      simpl. ring. }
    rewrite E0, El, Em. ring.
Qed.

Lemma sum_lincomb (f a b : nat -> R) (x y : R) (n : nat) :
  sum_f_R0 (fun i => f i * (x * a i + y * b i)) n
  = x * sum_f_R0 (fun i => f i * a i) n + y * sum_f_R0 (fun i => f i * b i) n.
Proof.
  rewrite !scal_sum, <- sum_plus. apply sum_eq; intros; ring.
Qed.

(** After [k] backward steps, entry [j] is the discounted binomial
    expectation of the [k + 1] entries above it. *)
Lemma nth_iter_roll_O (sp : LatticeSpecs) (O_ : list R) (k j : nat) :
  (j + k < length O_)%nat ->
  nth j (Nat.iter k (roll_O sp) O_) 0
  = df_dt sp ^ k * binomial_sum k (p sp) (fun i => nth (j + i) O_ 0).
Proof.
  revert j; induction k as [|k IH]; intros j H.
  - unfold binomial_sum. simpl. rewrite C_n_0, Nat.add_0_r. ring.
  - simpl Nat.iter. rewrite nth_roll_O by (rewrite length_iter_roll_O; lia).
    rewrite IH by lia. rewrite (IH (S j)) by lia.
    rewrite <- pascal_sum. unfold binomial_sum.
    rewrite (sum_lincomb (fun i => C k i * p sp ^ i * (1 - p sp) ^ (k - i))
               (fun i => nth (j + i) O_ 0) (fun i => nth (j + S i) O_ 0)).
    rewrite (sum_eq (fun i => _ * nth (S j + i) O_ 0)
                    (fun i => C k i * p sp ^ i * (1 - p sp) ^ (k - i)
                              * nth (j + S i) O_ 0)).
    + simpl pow. ring.
    + intros i _. now replace (j + S i)%nat with (S j + i)%nat by lia.
Qed.

(** ** The terminal level and the log-space weights *)

Lemma map2_map_same {A B C D : Type} (f : B -> C -> D) (g : A -> B) (h : A -> C)
  (l : list A) :
  map2 f (map g l) (map h l) = map (fun x => f (g x) (h x)) l.
Proof. induction l as [|x l IH]; simpl; congruence. Qed.

Lemma rev_seq_map (n : nat) :
  rev (seq 0 (S n)) = map (fun i => (n - i)%nat) (seq 0 (S n)).
Proof.
  apply (nth_ext _ _ 0%nat ((fun i => (n - i)%nat) 0%nat)).
  - now rewrite length_rev, length_map.
  - intros i Hi. rewrite length_rev, length_seq in Hi.
    rewrite nth_rev_seq by lia.
    rewrite (map_nth (fun i => (n - i)%nat)), seq_nth by lia. reflexivity.
Qed.

Lemma rev_map_seq {A : Type} (f : nat -> A) (n : nat) :
  rev (map f (seq 0 (S n))) = map (fun i => f (n - i)%nat) (seq 0 (S n)).
Proof. now rewrite <- map_rev, rev_seq_map, map_map. Qed.

Lemma nth_map_seq (f : nat -> R) (n i : nat) :
  (i < n)%nat -> nth i (map f (seq 0 n)) 0 = f i.
Proof.
  intros H. rewrite (nth_indep _ 0 (f 0%nat)) by (now rewrite length_map, length_seq).
  now rewrite (map_nth f), seq_nth.
Qed.

Lemma py_sum_map_seq (f : nat -> R) (n : nat) :
  py_sum (map f (seq 0 (S n))) = sum_f_R0 f n.
Proof.
  rewrite (py_sum_nth _ n) by (now rewrite length_map, length_seq).
  apply sum_eq; intros i Hi. apply nth_map_seq; lia.
Qed.

Lemma European_S_map (sp : LatticeSpecs) (s0 : R) (n : nat) :
  European_S sp s0 n
  = map (fun i => d sp ^ (n - i) * u sp ^ i * s0) (seq 0 (S n)).
Proof.
  unfold European_S, Vec.scale, Vec.mul, Vec.pow, Util.arange_decr, Util.arange_incr.
  replace (n + 1)%nat with (S n) by lia.
  rewrite rev_seq_map, map_map, map2_map_same, map_map. reflexivity.
Qed.

Lemma LowExercisePrice_S_map (sp : LatticeSpecs) (s0 : R) (n : nat) :
  LowExercisePrice_S sp s0 n
  = map (fun i => s0 * d sp ^ (n - i) * u sp ^ i) (seq 0 (S n)).
Proof.
  unfold LowExercisePrice_S. replace (n + 1)%nat with (S n) by lia.
  rewrite rev_seq_map, map_map, map2_map_same. reflexivity.
Qed.

Lemma European_O_map (S_ : list R) (k sgn : R) :
  European_O S_ k sgn = map (fun s => Rmax ((s - k) * sgn) 0) S_.
Proof. unfold European_O, Vec.max, Vec.scale, Vec.sub_scalar. now rewrite !map_map. Qed.

Lemma logFact_S (k : nat) : logFact (S k) = logFact k + ln (INR (S k)).
Proof.
  unfold logFact. rewrite fact_simpl, mult_INR, ln_mult, Rplus_comm; auto.
  - apply lt_0_INR; lia.
  - apply INR_fact_lt_0.
Qed.

Lemma cumsum_logFact (len a : nat) :
  Util.cumsum_from (logFact a) (map (fun k => ln (INR k)) (seq (S a) len))
  = map logFact (seq (S a) len).
Proof.
  revert a; induction len as [|len IH]; intros a; simpl; [reflexivity|].
  rewrite <- logFact_S. now rewrite IH.
Qed.

Lemma logFact_0 : logFact 0 = 0.
Proof. unfold logFact. simpl. apply ln_1. Qed.

(** [csl[k] = log(k!)] for [k = 0..n], in both classes. *)
Lemma European_csl_logFact (n : nat) :
  European_csl n = map logFact (seq 0 (S n)).
Proof.
  unfold European_csl, Util.cumsum, Util.log, Util.arange_incr.
  rewrite <- logFact_0 at 2. rewrite cumsum_logFact. simpl. now rewrite logFact_0.
Qed.

Lemma LowExercisePrice_csl_logFact (n : nat) :
  LowExercisePrice_csl n = map logFact (seq 0 (S n)).
Proof.
  rewrite <- European_csl_logFact.
  unfold LowExercisePrice_csl, European_csl, Util.log, Util.arange_incr.
  do 2 f_equal. rewrite <- seq_shift, map_map.
  apply map_ext; intros k. now rewrite Nat.add_1_r.
Qed.

Lemma European_tmp_map (n : nat) (log_p log_1p : R) :
  European_tmp n log_p log_1p = map (log_weight n log_p log_1p) (seq 0 (S n)).
Proof.
  unfold European_tmp, Vec.add, Vec.sub, Vec.scalar_sub, Vec.scale_int,
    Util.arange_decr, Util.arange_incr.
  replace (n + 1)%nat with (S n) by lia.
  rewrite European_csl_logFact, rev_map_seq, rev_seq_map.
  rewrite nth_map_seq by lia.
  rewrite !map_map, !map2_map_same. reflexivity.
Qed.

Lemma LowExercisePrice_tmp_map (n : nat) (log_p log_1p : R) :
  LowExercisePrice_tmp n log_p log_1p = map (log_weight n log_p log_1p) (seq 0 (S n)).
Proof.
  unfold LowExercisePrice_tmp.
  replace (n + 1)%nat with (S n) by lia.
  rewrite LowExercisePrice_csl_logFact, rev_map_seq, rev_seq_map.
  rewrite nth_map_seq by lia.
  rewrite !map_map, !map2_map_same.
  apply map_ext; intros i. unfold log_weight. ring.
Qed.

(** Exponentiating the log-space weight gives the binomial probability. *)
Lemma exp_log_weight (n i : nat) (pr : R) :
  0 < pr < 1 -> (i <= n)%nat ->
  exp (log_weight n (ln pr) (ln (1 - pr)) i) = C n i * pr ^ i * (1 - pr) ^ (n - i).
Proof.
  intros [Hp0 Hp1] Hi. unfold log_weight, logFact, C.
  unfold Rminus at 1 2. rewrite !exp_plus, !exp_Ropp.
  rewrite !exp_ln by apply INR_fact_lt_0.
  rewrite <- !exp_pow_INR, !exp_ln by lra.
  field. split; apply INR_fact_neq_0.
Qed.

(** ** The two evaluation strategies of [_calc_LT] *)

Lemma length_European_S sp s0 n : length (European_S sp s0 n) = S n.
Proof. now rewrite European_S_map, length_map, length_seq. Qed.

Lemma length_European_O S_ k sgn : length (European_O S_ k sgn) = length S_.
Proof. now rewrite European_O_map, length_map. Qed.

Lemma length_LowExercisePrice_S sp s0 n : length (LowExercisePrice_S sp s0 n) = S n.
Proof. now rewrite LowExercisePrice_S_map, length_map, length_seq. Qed.

Lemma length_LowExercisePrice_O S_ : length (LowExercisePrice_O S_) = length S_.
Proof. unfold LowExercisePrice_O. now rewrite length_map. Qed.

Lemma LowExercisePrice_O_European sp s0 n :
  LowExercisePrice_O (LowExercisePrice_S sp s0 n)
  = European_O (European_S sp s0 n) (1 / 100) 1.
Proof.
  rewrite European_O_map, European_S_map, LowExercisePrice_S_map.
  unfold LowExercisePrice_O. rewrite !map_map.
  apply map_ext; intros i. f_equal. ring.
Qed.

Lemma LowExercisePrice_S_European sp s0 n :
  LowExercisePrice_S sp s0 n = European_S sp s0 n.
Proof.
  rewrite European_S_map, LowExercisePrice_S_map.
  apply map_ext; intros i. ring.
Qed.

(** The root of a finished value tree is the terminal level rolled [n] times. *)
Lemma tree_root_levels (sp : LatticeSpecs) (n : nat) (O_ : list R) :
  length O_ = S n ->
  tree_root (levels (roll_O sp) n O_ ++ [O_])
  = Ok (nth 0 (Nat.iter n (roll_O sp) O_) 0).
Proof.
  intros H.
  pose proof (nth_levels (roll_O sp) n 0 O_ (Nat.le_0_l n)) as E.
  rewrite Nat.sub_0_r in E.
  pose proof (length_iter_roll_O sp n O_) as L. rewrite H in L.
  destruct (levels (roll_O sp) n O_ ++ [O_]) as [|l t] eqn:Et.
  - pose proof (length_levels (roll_O sp) n O_) as Ll. rewrite Et in Ll. discriminate.
  - simpl in E. subst l. destruct (Nat.iter n (roll_O sp) O_) as [|o os].
    + cbn [length] in L. lia.
    + reflexivity.
Qed.

(** Full-history mode, both classes: the result and its trees. *)
Lemma European_LT_price_keep sp s0 k sgn n :
  let S_ := European_S sp s0 n in
  let O_ := European_O S_ k sgn in
  European_LT_price sp s0 k sgn n true
  = Ok (nth 0 (Nat.iter n (roll_O sp) O_) 0,
        Some (levels (roll_S sp) n S_ ++ [S_]),
        Some (levels (roll_O sp) n O_ ++ [O_])).
Proof.
  intros S_ O_. unfold European_LT_price. fold S_. fold O_.
  rewrite European_LT_loop_levels
    by (unfold O_, S_; rewrite ?length_European_O, length_European_S; reflexivity).
  rewrite tree_root_levels
    by (unfold O_, S_; rewrite length_European_O, length_European_S; reflexivity).
  reflexivity.
Qed.

Lemma LowExercisePrice_LT_price_keep sp s0 n :
  let S_ := LowExercisePrice_S sp s0 n in
  let O_ := LowExercisePrice_O S_ in
  LowExercisePrice_LT_price sp s0 n true
  = Ok (nth 0 (Nat.iter n (roll_O sp) O_) 0,
        Some (levels (roll_S sp) n S_ ++ [S_]),
        Some (levels (roll_O sp) n O_ ++ [O_])).
Proof.
  intros S_ O_. unfold LowExercisePrice_LT_price. fold S_. fold O_.
  rewrite LowExercisePrice_LT_loop_levels
    by (unfold O_, S_; rewrite ?length_LowExercisePrice_O, length_LowExercisePrice_S;
        reflexivity).
  rewrite tree_root_levels
    by (unfold O_, S_; rewrite length_LowExercisePrice_O, length_LowExercisePrice_S;
        reflexivity).
  reflexivity.
Qed.

Lemma math_log_Ok (x : R) : 0 < x -> math_log x = Ok (ln x).
Proof.
  intros H. unfold math_log, Rleb. destruct (Rle_dec x 0); [lra|reflexivity].
Qed.

Lemma np_log_Ok (x : R) : 0 < x -> np_log x = Ok (ln x).
Proof.
  intros H. unfold np_log, Rleb. destruct (Rle_dec x 0); [lra|reflexivity].
Qed.

(** Collapse mode, both classes: the discounted binomial expectation of the
    terminal payoffs. *)
Lemma European_LT_price_collapse sp s0 k sgn n :
  0 < p sp < 1 ->
  European_LT_price sp s0 k sgn n false
  = Ok (df_T sp * binomial_sum n (p sp)
                    (fun i => nth i (European_O (European_S sp s0 n) k sgn) 0),
        None, None).
Proof.
  intros Hp. unfold European_LT_price.
  rewrite math_log_Ok, math_log_Ok by lra. simpl bind.
  do 3 f_equal.
  set (O_ := European_O (European_S sp s0 n) k sgn).
  assert (EO : O_ = map (fun i => nth i O_ 0) (seq 0 (S n))).
  { apply (nth_ext _ _ 0 0).
    - unfold O_. now rewrite length_map, length_seq, length_European_O, length_European_S.
    - intros i Hi. unfold O_ in Hi.
      rewrite length_European_O, length_European_S in Hi.
      now rewrite nth_map_seq. }
  rewrite EO at 1. rewrite European_tmp_map.
  unfold Vec.mul, Vec.scale, Vec.exp. rewrite !map_map, map2_map_same.
  rewrite py_sum_map_seq. unfold binomial_sum. rewrite scal_sum.
  apply sum_eq; intros i Hi. rewrite exp_log_weight by assumption. ring.
Qed.

Lemma LowExercisePrice_LT_price_collapse sp s0 n :
  0 < p sp < 1 ->
  LowExercisePrice_LT_price sp s0 n false
  = Ok (df_T sp * binomial_sum n (p sp)
                    (fun i => nth i (LowExercisePrice_O (LowExercisePrice_S sp s0 n)) 0),
        None, None).
Proof.
  intros Hp. unfold LowExercisePrice_LT_price.
  rewrite np_log_Ok, np_log_Ok by lra. simpl bind.
  do 3 f_equal.
  set (O_ := LowExercisePrice_O (LowExercisePrice_S sp s0 n)).
  assert (EO : O_ = map (fun i => nth i O_ 0) (seq 0 (S n))).
  { apply (nth_ext _ _ 0 0).
    - unfold O_. now rewrite length_map, length_seq, length_LowExercisePrice_O,
        length_LowExercisePrice_S.
    - intros i Hi. unfold O_ in Hi.
      rewrite length_LowExercisePrice_O, length_LowExercisePrice_S in Hi.
      now rewrite nth_map_seq. }
  rewrite EO at 1. rewrite LowExercisePrice_tmp_map.
  rewrite map_map, map2_map_same.
  rewrite py_sum_map_seq. unfold binomial_sum. f_equal.
  apply sum_eq; intros i Hi. rewrite exp_log_weight by assumption. ring.
Qed.

Lemma nth_map_R (f : R -> R) (l : list R) (i : nat) :
  (i < length l)%nat -> nth i (map f l) 0 = f (nth i l 0).
Proof.
  intros H. rewrite (nth_indep _ 0 (f 0)) by (now rewrite length_map).
  apply map_nth.
Qed.

(** The trees that the backward walk builds satisfy the specification of the
    full-history tree. *)
Lemma levels_full_history (sp : LatticeSpecs) (s0 k sgn : R) (n : nat) :
  let S_ := European_S sp s0 n in
  let O_ := European_O S_ k sgn in
  full_history_tree sp s0 k sgn n
    (levels (roll_S sp) n S_ ++ [S_]) (levels (roll_O sp) n O_ ++ [O_]).
Proof.
  intros S_ O_.
  assert (LS : length S_ = S n) by apply length_European_S.
  assert (LO : length O_ = S n)
    by (unfold O_; now rewrite length_European_O).
  unfold full_history_tree. rewrite !length_levels.
  repeat split.
  - rewrite nth_levels, length_iter_roll_S by assumption. lia.
  - rewrite nth_levels, length_iter_roll_O by assumption. lia.
  - intros i Hi. rewrite nth_levels, Nat.sub_diag by lia. simpl Nat.iter.
    unfold S_. rewrite European_S_map, nth_map_seq by lia. ring.
  - intros i Hi. rewrite !nth_levels, Nat.sub_diag by lia. simpl Nat.iter.
    unfold O_. rewrite European_O_map, nth_map_R by lia.
    f_equal. ring.
  - rewrite !nth_levels by lia.
    replace (n - i)%nat with (S (n - S i)) by lia. simpl Nat.iter.
    apply nth_roll_O. rewrite length_iter_roll_O. lia.
  - rewrite !nth_levels by lia.
    replace (n - i)%nat with (S (n - S i)) by lia. simpl Nat.iter.
    apply nth_roll_S. rewrite length_iter_roll_S. lia.
Qed.

(** C4.  Full-history mode of [European._calc_LT] and of
    [LowExercisePrice._calc_LT], for every step count [n] (so for every
    [n >= 1]): the call returns the value at step 0 of the value tree, and the
    two stored trees are the full-history trees of the specification: [n + 1]
    steps from the valuation date to maturity, step [i] with [i + 1] elements,
    terminal prices [S0 * d^(n-i) * u^i], terminal values
    [max(signCP*(S-K), 0)] (with [K = 0.01] and [signCP = 1] in
    [LowExercisePrice]), each earlier value [df_dt*((1-p)*O[j] + p*O[j+1])] and
    each earlier price [d*S[j+1]]. *)
Theorem C4_full_history_tree (sp : LatticeSpecs) (s0 k sgn : R) (n : nat) :
  (exists S_tree O_tree,
      European_LT_price sp s0 k sgn n true
      = Ok (nth 0 (nth 0 O_tree []) 0, Some S_tree, Some O_tree)
      /\ full_history_tree sp s0 k sgn n S_tree O_tree)
  /\
  (exists S_tree O_tree,
      LowExercisePrice_LT_price sp s0 n true
      = Ok (nth 0 (nth 0 O_tree []) 0, Some S_tree, Some O_tree)
      /\ full_history_tree sp s0 (1 / 100) 1 n S_tree O_tree).
Proof.
  split.
  - eexists; eexists; split; [|apply levels_full_history].
    rewrite European_LT_price_keep.
    rewrite (nth_levels (roll_O sp) n 0) by lia. now rewrite Nat.sub_0_r.
  - eexists; eexists; split; [|apply levels_full_history].
    rewrite LowExercisePrice_LT_price_keep.
    rewrite LowExercisePrice_O_European, LowExercisePrice_S_European.
    rewrite (nth_levels (roll_O sp) n 0) by lia. now rewrite Nat.sub_0_r.
Qed.

(** C2.  Collapse mode of [European._calc_LT] and of
    [LowExercisePrice._calc_LT], for every step count [n] and [0 < p < 1]: the
    price is [df_T] times the sum over [i = 0..n] of
    [O[i] * C(n,i) * p^i * (1-p)^(n-i)]; [csl] holds [log(k!)] for [k = 0..n],
    built as [0] followed by the cumulative sums of [log(1..n)]; the exponent
    of weight [i] is
    [logFact[n] - logFact[i] - logFact[n-i] + i*log(p) + (n-i)*log(1-p)] and
    its exponential is the binomial probability. *)
Theorem C2_collapse_closed_form (sp : LatticeSpecs) (s0 k sgn : R) (n : nat) :
  0 < p sp < 1 ->
  European_LT_price sp s0 k sgn n false
  = Ok (df_T sp * binomial_sum n (p sp)
                    (fun i => nth i (European_O (European_S sp s0 n) k sgn) 0),
        None, None)
  /\ LowExercisePrice_LT_price sp s0 n false
     = Ok (df_T sp * binomial_sum n (p sp)
                       (fun i => nth i (LowExercisePrice_O (LowExercisePrice_S sp s0 n)) 0),
           None, None)
  /\ European_csl n = map logFact (seq 0 (S n))
  /\ LowExercisePrice_csl n = map logFact (seq 0 (S n))
  /\ European_tmp n (ln (p sp)) (ln (1 - p sp))
     = map (log_weight n (ln (p sp)) (ln (1 - p sp))) (seq 0 (S n))
  /\ LowExercisePrice_tmp n (ln (p sp)) (ln (1 - p sp))
     = map (log_weight n (ln (p sp)) (ln (1 - p sp))) (seq 0 (S n))
  /\ (forall i, (i <= n)%nat ->
        exp (log_weight n (ln (p sp)) (ln (1 - p sp)) i)
        = C n i * p sp ^ i * (1 - p sp) ^ (n - i)).
Proof.
  intros Hp. repeat split.
  - now apply European_LT_price_collapse.
  - now apply LowExercisePrice_LT_price_collapse.
  - apply European_csl_logFact.
  - apply LowExercisePrice_csl_logFact.
  - apply European_tmp_map.
  - apply LowExercisePrice_tmp_map.
  - intros i Hi. now apply exp_log_weight.
Qed.

Lemma C2_collapse_closed_form_witness :
  let sp := {| u := 2; d := 1 / 2; p := 1 / 2; df_dt := 1; df_T := 1 |} in
  European_LT_price sp 42 40 1 2 false
  = Ok (df_T sp * binomial_sum 2 (p sp)
                    (fun i => nth i (European_O (European_S sp 42 2) 40 1) 0),
        None, None).
Proof.
  intros sp.
  apply (C2_collapse_closed_form sp 42 40 1 2).
  simpl. lra.
Defined.

(** ** The lattice constants *)

Lemma LT_specs_Ok (self : OptionValuation) (n : Z) :
  (1 <= n)%Z -> 0 < vol (ref self) -> 0 < T self ->
  LT_specs self n
  = Ok {| u := exp (vol (ref self) * sqrt (T self / IZR n));
          d := 1 / exp (vol (ref self) * sqrt (T self / IZR n));
          p := (exp ((rf_r self - q (ref self)) * (T self / IZR n))
                - 1 / exp (vol (ref self) * sqrt (T self / IZR n)))
               / (exp (vol (ref self) * sqrt (T self / IZR n))
                  - 1 / exp (vol (ref self) * sqrt (T self / IZR n)));
          df_dt := exp (- rf_r self * (T self / IZR n));
          df_T := exp (- rf_r self * T self) |}.
Proof.
  intros Hn Hv HT. unfold LT_specs, Rleb.
  destruct (Z.ltb_spec n 1); [lia|].
  destruct (Rle_dec (vol (ref self)) 0); [lra|].
  destruct (Rle_dec (T self) 0); [lra|]. reflexivity.
Qed.

Lemma LT_specs_inv (self : OptionValuation) (n : Z) (sp : LatticeSpecs) :
  LT_specs self n = Ok sp ->
  (1 <= n)%Z /\ 0 < vol (ref self) /\ 0 < T self.
Proof.
  unfold LT_specs, Rleb. intros H.
  destruct (Z.ltb_spec n 1); [discriminate|].
  destruct (Rle_dec (vol (ref self)) 0); [discriminate|].
  destruct (Rle_dec (T self) 0); [discriminate|]. repeat split; lra || lia.
Qed.

(** [n] steps of per-step discounting make the discount over the horizon. *)
Lemma LT_specs_discount (self : OptionValuation) (n : Z) (sp : LatticeSpecs) :
  LT_specs self n = Ok sp -> df_dt sp ^ Z.to_nat n = df_T sp.
Proof.
  intros H. destruct (LT_specs_inv _ _ _ H) as (Hn & Hv & HT).
  rewrite LT_specs_Ok in H by assumption. injection H as <-. simpl.
  rewrite exp_pow_INR. f_equal.
  rewrite INR_IZR_INZ, Z2Nat.id by lia. field.
  apply not_0_IZR. lia.
Qed.

Lemma LT_specs_with_keep_hist (self : OptionValuation) (kh : bool) (n : Z) :
  LT_specs (with_keep_hist self kh) n = LT_specs self n.
Proof. reflexivity. Qed.

(** What [_calc_LT] stores as the price, in each class and each mode. *)
Lemma European_calc_LT_price (self : OptionValuation) (sp : LatticeSpecs)
  (sgn : R) (kh : bool) :
  LT_specs self (getattr (nsteps (px_spec self)) 3%Z) = Ok sp ->
  signCP self = Some sgn ->
  price_of (European_calc_LT (with_keep_hist self kh))
  = o <- LT_out (European_LT_price sp (S0 (ref self)) (K self) sgn
                   (Z.to_nat (getattr (nsteps (px_spec self)) 3%Z)) kh) ;;
    Ok (Some o).
Proof.
  intros Hsp Hsgn. unfold European_calc_LT, price_of, LT_out.
  change (nsteps (px_spec (with_keep_hist self kh))) with (nsteps (px_spec self)).
  rewrite LT_specs_with_keep_hist, Hsp. simpl bind at 2.
  change (signCP (with_keep_hist self kh)) with (signCP self). rewrite Hsgn.
  simpl.
  destruct (European_LT_price _ _ _ _ _ _) as [[[out St] Ot]|e]; reflexivity.
Qed.

Lemma LowExercisePrice_calc_LT_price (self : OptionValuation) (sp : LatticeSpecs)
  (kh : bool) :
  LT_specs self (getattr (nsteps (px_spec self)) 3%Z) = Ok sp ->
  price_of (LowExercisePrice_calc_LT (with_keep_hist self kh))
  = o <- LT_out (LowExercisePrice_LT_price sp (S0 (ref self))
                   (Z.to_nat (getattr (nsteps (px_spec self)) 3%Z)) kh) ;;
    Ok (Some o).
Proof.
  intros Hsp. unfold LowExercisePrice_calc_LT, price_of, LT_out.
  change (nsteps (px_spec (with_keep_hist self kh))) with (nsteps (px_spec self)).
  rewrite LT_specs_with_keep_hist, Hsp. simpl.
  destruct (LowExercisePrice_LT_price _ _ _ _) as [[[out St] Ot]|e]; reflexivity.
Qed.

(** The two modes of the body of [_calc_LT] agree as soon as [n] per-step
    discounts make the horizon discount. *)
Lemma LT_price_modes_agree (sp : LatticeSpecs) (s0 k sgn : R) (n : nat) :
  0 < p sp < 1 -> df_dt sp ^ n = df_T sp ->
  LT_out (European_LT_price sp s0 k sgn n true)
  = LT_out (European_LT_price sp s0 k sgn n false)
  /\ LT_out (LowExercisePrice_LT_price sp s0 n true)
     = LT_out (LowExercisePrice_LT_price sp s0 n false).
Proof.
  intros Hp Hdf. split.
  - rewrite European_LT_price_keep, European_LT_price_collapse by assumption.
    unfold LT_out; simpl. f_equal.
    rewrite nth_iter_roll_O
      by (rewrite length_European_O, length_European_S; lia).
    now rewrite Hdf.
  - rewrite LowExercisePrice_LT_price_keep, LowExercisePrice_LT_price_collapse
      by assumption.
    unfold LT_out; simpl. f_equal.
    rewrite nth_iter_roll_O
      by (rewrite length_LowExercisePrice_O, length_LowExercisePrice_S; lia).
    now rewrite Hdf.
Qed.

(** C1.  For every valid parameter set ([n >= 1], [vol > 0], [T > 0], lattice
    constants with [0 < p < 1]) the price stored by [_calc_LT] in full-history
    mode ([keep_hist = True]) is the price stored in collapse mode
    ([keep_hist = False]): the two are equal as real numbers, hence within
    every tolerance.  This holds for [European] (for a right that has a sign)
    and for [LowExercisePrice]. *)
Theorem C1_full_history_equals_collapse (self : OptionValuation) (sp : LatticeSpecs) :
  (1 <= getattr (nsteps (px_spec self)) 3)%Z ->
  0 < vol (ref self) -> 0 < T self ->
  LT_specs self (getattr (nsteps (px_spec self)) 3%Z) = Ok sp ->
  0 < p sp < 1 ->
  (signCP self <> None ->
   exists v,
     price_of (European_calc_LT (with_keep_hist self true)) = Ok (Some v)
     /\ price_of (European_calc_LT (with_keep_hist self false)) = Ok (Some v))
  /\
  (exists v,
     price_of (LowExercisePrice_calc_LT (with_keep_hist self true)) = Ok (Some v)
     /\ price_of (LowExercisePrice_calc_LT (with_keep_hist self false)) = Ok (Some v)).
Proof.
  intros Hn Hv HT Hsp Hp.
  pose proof (LT_specs_discount _ _ _ Hsp) as Hdf.
  split.
  - intros Hs. destruct (signCP self) as [sgn|] eqn:Es; [|congruence].
    destruct (LT_price_modes_agree sp (S0 (ref self)) (K self) sgn _ Hp Hdf) as [E _].
    rewrite !(European_calc_LT_price self sp sgn) by assumption.
    rewrite E, European_LT_price_collapse by assumption.
    eexists; split; reflexivity.
  - destruct (LT_price_modes_agree sp (S0 (ref self)) 0 0 _ Hp Hdf) as [_ E].
    rewrite !(LowExercisePrice_calc_LT_price self sp) by assumption.
    rewrite E, LowExercisePrice_LT_price_collapse by assumption.
    eexists; split; reflexivity.
Qed.

(** The Cox-Ross-Rubinstein probability is a probability when the drift per
    step is dominated by the volatility per step. *)
Lemma CRR_p_bounds (self : OptionValuation) (n : Z) (sp : LatticeSpecs) :
  LT_specs self n = Ok sp ->
  Rabs (rf_r self - q (ref self)) * sqrt (T self / IZR n) < vol (ref self) ->
  0 < p sp < 1.
Proof.
  intros H Hdom. destruct (LT_specs_inv _ _ _ H) as (Hn & Hv & HT).
  rewrite LT_specs_Ok in H by assumption. injection H as <-. simpl.
  set (dt := T self / IZR n) in *.
  assert (Hdt : 0 < dt).
  { unfold dt. apply Rdiv_lt_0_compat; [assumption|]. apply IZR_lt. lia. }
  set (s := sqrt dt) in *.
  assert (Hs : 0 < s) by (apply sqrt_lt_R0; assumption).
  assert (Hss : s * s = dt) by (apply sqrt_sqrt; lra).
  set (g := rf_r self - q (ref self)) in *.
  assert (Hg : - (vol (ref self) * s) < g * dt < vol (ref self) * s).
  { rewrite <- Hss. unfold Rabs in Hdom. destruct (Rcase_abs g); split; nra. }
  set (U := exp (vol (ref self) * s)).
  assert (HU : 1 / U = exp (- (vol (ref self) * s))).
  { unfold U. rewrite exp_Ropp. field. apply Rgt_not_eq, exp_pos. }
  assert (Hlo : 1 / U < exp (g * dt))
    by (rewrite HU; apply exp_increasing; lra).
  assert (Hhi : exp (g * dt) < U) by (apply exp_increasing; lra).
  assert (Hden : 0 < U - 1 / U) by lra.
  split.
  - apply Rdiv_lt_0_compat; lra.
  - apply (Rmult_lt_reg_r (U - 1 / U)); [assumption|].
    unfold Rdiv at 1. rewrite Rmult_assoc, Rinv_l by lra. lra.
Qed.

Lemma C1_full_history_equals_collapse_witness :
  let self :=
    {| ref := {| S0 := 42; vol := 0.2; q := 0 |};
       right := "call"; K := 40; T := 0.5; rf_r := 0.1;
       px_spec := new_PriceSpec LT (Some 2%Z) None false |} in
  exists v,
    price_of (European_calc_LT (with_keep_hist self true)) = Ok (Some v)
    /\ price_of (European_calc_LT (with_keep_hist self false)) = Ok (Some v).
Proof.
  intros self.
  assert (Hn : (1 <= getattr (nsteps (px_spec self)) 3)%Z) by (simpl; lia).
  assert (Hv : 0 < vol (ref self)) by (simpl; lra).
  assert (HT : 0 < T self) by (simpl; lra).
  pose proof (LT_specs_Ok self _ Hn Hv HT) as Hsp.
  refine (proj1 (C1_full_history_equals_collapse self _ Hn Hv HT Hsp _) _).
  - apply (CRR_p_bounds self _ _ Hsp). simpl.
    assert (Hs : 0 <= sqrt (0.5 / 2)) by apply sqrt_pos.
    assert (Hss : sqrt (0.5 / 2) * sqrt (0.5 / 2) = 0.5 / 2) by (apply sqrt_sqrt; lra).
    replace (0.1 - 0) with 0.1 by lra. rewrite Rabs_pos_eq by lra. nra.
  - discriminate.
Defined.

(** ** Zero steps *)

Lemma C3_zero_steps_counterexample :
  let sp := {| u := 2; d := 1 / 2; p := 1 / 2; df_dt := 1 / 2; df_T := 1 / 2 |} in
  let self :=
    {| ref := {| S0 := 2; vol := 1; q := 0 |};
       right := "call"; K := 1; T := 1; rf_r := 1;
       px_spec := new_PriceSpec LT (Some 0%Z) None true |} in
  ~ (LT_out (European_LT_price sp 2 1 1 0 true)
     = Ok (df_T sp * Rmax (1 * (2 - 1)) 0))
  /\ ~ (exists v, price_of (European_calc_LT self) = Ok (Some v))
  /\ ~ (exists v, price_of (European_calc_LT (with_keep_hist self false)) = Ok (Some v)).
Proof.
  intros sp self. repeat split.
  - rewrite European_LT_price_keep. unfold LT_out. simpl.
    intros H. injection H as H. revert H.
    replace ((1 * 1 * 2 - 1) * 1) with 1 by ring.
    replace (1 * (2 - 1)) with 1 by ring.
    rewrite Rmax_left by lra. lra.
  - intros [v H]. discriminate H.
  - intros [v H]. discriminate H.
Qed.

Lemma LT_specs_zero (self : OptionValuation) : LT_specs self 0 = Raise ValueError.
Proof. reflexivity. Qed.

(** C3, as the code has it.  With [nsteps = 0] the lattice parameter builder
    signals invalid input, so [_calc_LT] stores no price, in either mode and in
    either class.  The body of the tree engine run with [n = 0] on given
    lattice constants returns the undiscounted payoff [max(signCP*(S0-K), 0)]
    in full-history mode, and [df_T * max(signCP*(S0-K), 0)] in collapse mode
    (there for [0 < p < 1]). *)
Theorem C3_zero_steps (self : OptionValuation) (sp : LatticeSpecs) (s0 k sgn : R) :
  getattr (nsteps (px_spec self)) 3%Z = 0%Z ->
  0 < p sp < 1 ->
  European_calc_LT self = Raise ValueError
  /\ LowExercisePrice_calc_LT self = Raise ValueError
  /\ LT_out (European_LT_price sp s0 k sgn 0 true) = Ok (Rmax (sgn * (s0 - k)) 0)
  /\ LT_out (European_LT_price sp s0 k sgn 0 false)
     = Ok (df_T sp * Rmax (sgn * (s0 - k)) 0)
  /\ LT_out (LowExercisePrice_LT_price sp s0 0 true) = Ok (Rmax (s0 - 1 / 100) 0)
  /\ LT_out (LowExercisePrice_LT_price sp s0 0 false)
     = Ok (df_T sp * Rmax (s0 - 1 / 100) 0).
Proof.
  intros Hn Hp.
  assert (E0 : nth 0 (European_O (European_S sp s0 0) k sgn) 0
               = Rmax (sgn * (s0 - k)) 0).
  { rewrite European_O_map, European_S_map. simpl. f_equal. ring. }
  assert (L0 : nth 0 (LowExercisePrice_O (LowExercisePrice_S sp s0 0)) 0
               = Rmax (s0 - 1 / 100) 0).
  { rewrite LowExercisePrice_S_map. unfold LowExercisePrice_O. simpl. f_equal. ring. }
  assert (B0 : forall a, binomial_sum 0 (p sp) a = a 0%nat).
  { intros a. unfold binomial_sum. simpl. rewrite C_n_0. ring. }
  repeat split.
  - unfold European_calc_LT. now rewrite Hn, LT_specs_zero.
  - unfold LowExercisePrice_calc_LT. now rewrite Hn, LT_specs_zero.
  - rewrite European_LT_price_keep. unfold LT_out.
    cbv zeta. cbn [bind fst]. unfold Nat.iter; cbn [nat_rect]. now rewrite E0.
  - rewrite European_LT_price_collapse by assumption. unfold LT_out.
    cbn [bind fst]. now rewrite B0, E0.
  - rewrite LowExercisePrice_LT_price_keep. unfold LT_out.
    cbv zeta. cbn [bind fst]. unfold Nat.iter; cbn [nat_rect]. now rewrite L0.
  - rewrite LowExercisePrice_LT_price_collapse by assumption. unfold LT_out.
    cbn [bind fst]. now rewrite B0, L0.
Qed.

Lemma C3_zero_steps_witness :
  let sp := {| u := 2; d := 1 / 2; p := 1 / 2; df_dt := 1 / 2; df_T := 1 / 2 |} in
  let self :=
    {| ref := {| S0 := 2; vol := 1; q := 0 |};
       right := "call"; K := 1; T := 1; rf_r := 1;
       px_spec := new_PriceSpec LT (Some 0%Z) None true |} in
  European_calc_LT self = Raise ValueError
  /\ LT_out (European_LT_price sp 2 1 1 0 true) = Ok (Rmax (1 * (2 - 1)) 0).
Proof.
  intros sp self.
  assert (Hn : getattr (nsteps (px_spec self)) 3%Z = 0%Z) by reflexivity.
  assert (Hp : 0 < p sp < 1) by (simpl; lra).
  pose proof (C3_zero_steps self sp 2 1 1 Hn Hp) as (H1 & _ & H3 & _).
  split; assumption.
Defined.

(** ** Put-call parity of the analytic method *)

Lemma py_div_Ok (x y : R) : y <> 0 -> py_div x y = Ok (x / y).
Proof.
  intros H. unfold py_div, Reqb. destruct (Req_dec_T y 0); [contradiction|reflexivity].
Qed.

Lemma math_sqrt_Ok (x : R) : 0 <= x -> math_sqrt x = Ok (sqrt x).
Proof.
  intros H. unfold math_sqrt, Rltb. destruct (Rlt_dec x 0); [lra|reflexivity].
Qed.

(** C9.  For every distribution function [N] that is symmetric,
    [N(-x) = 1 - N(x)], as the standard normal one is, and every input with
    [S0 > 0], [K > 0], [vol > 0] and [T > 0], [_calc_BS] returns, and the call
    and put prices that it stores satisfy
    [px_call - px_put = S0*e^(-q*T) - K*e^(-r*T)]. *)
Theorem C9_put_call_parity (N : R -> R) (self : OptionValuation) :
  (forall x, N (- x) = 1 - N x) ->
  0 < S0 (ref self) -> 0 < K self -> 0 < vol (ref self) -> 0 < T self ->
  exists o c pt,
    European_calc_BS N self = Ok o
    /\ px_call (px_spec o) = Some c /\ px_put (px_spec o) = Some pt
    /\ c - pt = S0 (ref self) * exp (- q (ref self) * T self)
                - K self * exp (- rf_r self * T self).
Proof.
  intros Hsym HS HK Hv HT.
  assert (Hratio : 0 < S0 (ref self) / K self) by (apply Rdiv_lt_0_compat; assumption).
  assert (Hsq : 0 < sqrt (T self)) by (apply sqrt_lt_R0; assumption).
  unfold European_calc_BS.
  rewrite py_div_Ok by lra. cbn [bind].
  rewrite math_log_Ok by assumption. cbn [bind].
  rewrite math_sqrt_Ok by lra. cbn [bind].
  rewrite py_div_Ok by (apply Rgt_not_eq; apply Rmult_lt_0_compat; assumption).
  cbn [bind].
  eexists; eexists; eexists. split; [reflexivity|].
  split; [reflexivity|]. split; [reflexivity|].
  rewrite !Hsym. ring.
Qed.

Lemma C9_put_call_parity_witness :
  let N := fun x => 1 / 2 + atan x / PI in
  let self :=
    {| ref := {| S0 := 42; vol := 0.2; q := 0 |};
       right := "put"; K := 40; T := 0.5; rf_r := 0.1;
       px_spec := new_PriceSpec BS None None false |} in
  exists o c pt,
    European_calc_BS N self = Ok o
    /\ px_call (px_spec o) = Some c /\ px_put (px_spec o) = Some pt
    /\ c - pt = S0 (ref self) * exp (- q (ref self) * T self)
                - K self * exp (- rf_r self * T self).
Proof.
  intros N self.
  apply (C9_put_call_parity N self); simpl; try lra.
  intros x. unfold N. rewrite atan_opp. field.
  apply Rgt_not_eq, PI_RGT_0.
Defined.

(** ** The tridiagonal solve *)

Lemma length_tri_mul_from carry lo mn up x :
  length (tri_mul_from carry lo mn up x) = Nat.min (length mn) (length x).
Proof.
  revert carry lo up x; induction mn as [|b mn IH]; intros carry lo up [|x0 x];
    simpl; auto.
Qed.

(** The recursive product computes the rows of the index formula. *)
Lemma nth_tri_mul_from carry lo mn up x i :
  (i < length mn)%nat -> (i < length x)%nat ->
  nth i (tri_mul_from carry lo mn up x) 0
  = match i with
    | O => carry
    | S i' => nth i' lo 0 * nth i' x 0
    end
    + nth i mn 0 * nth i x 0 + nth i up 0 * nth (S i) x 0.
Proof.
  revert carry lo up x i; induction mn as [|b mn IH];
    intros carry lo up [|x0 x] i Hm Hx; simpl in Hm, Hx; try lia.
  destruct i as [|i].
  - simpl. destruct up, x; reflexivity.
  - cbn [tri_mul_from nth]. rewrite IH by lia.
    rewrite !nth_tl. destruct i as [|i].
    + destruct lo; reflexivity.
    + rewrite nth_tl. reflexivity.
Qed.

Lemma nth_tri_mul (B : Tridiag) (x : list R) (i : nat) :
  (i < length (main B))%nat -> (i < length x)%nat ->
  nth i (tri_mul B x) 0 = tri_row B x i.
Proof.
  intros Hm Hx. unfold tri_mul, tri_row. rewrite nth_tri_mul_from by assumption.
  destruct i; reflexivity.
Qed.

Lemma eliminate_length b d0 rest x :
  eliminate b d0 rest = Some x -> length x = S (length rest).
Proof.
  revert b d0 x; induction rest as [|[[[c a] b'] d'] rest IH]; intros b d0 x;
    simpl; destruct (Reqb b 0); try discriminate.
  - intros H; injection H as <-. reflexivity.
  - destruct (eliminate _ _ rest) as [[|x1 xs]|] eqn:E; try discriminate.
    intros H; injection H as <-. apply IH in E. simpl in *. lia.
Qed.

(** Soundness of the elimination: what it returns solves the system. *)
Lemma eliminate_sound bs :
  forall up lo ds b d0 x carry,
    length up = length bs -> length lo = length bs -> length ds = length bs ->
    eliminate b d0 (combine (combine (combine up lo) bs) ds) = Some x ->
    tri_mul_from carry lo (b :: bs) up x = (carry + d0) :: ds.
Proof.
  induction bs as [|b' bs IH]; intros up lo ds b d0 x carry Hu Hl Hd.
  - destruct up, lo, ds; try discriminate. simpl.
    unfold Reqb. destruct (Req_dec_T b 0) as [|Hb]; [discriminate|].
    intros H; injection H as <-. simpl. f_equal. field. assumption.
  - destruct up as [|c up], lo as [|a lo], ds as [|d' ds]; try discriminate.
    simpl in Hu, Hl, Hd. cbn [combine eliminate].
    unfold Reqb. destruct (Req_dec_T b 0) as [|Hb]; [discriminate|].
    destruct (eliminate _ _ _) as [[|x1 xs]|] eqn:E; try discriminate.
    intros H; injection H as <-.
    pose proof (IH up lo ds _ _ _ 0 ltac:(lia) ltac:(lia) ltac:(lia) E) as Hrec.
    cbn [tri_mul_from hd tl] in Hrec |- *.
    injection Hrec as Hhead Htail.
    rewrite Htail. f_equal; [field; assumption|]. f_equal.
    replace d' with (0 + (d' - a * d0 / b) + a * d0 / b) by (field; assumption).
    rewrite <- Hhead. field. assumption.
Qed.

(** Uniqueness: when the elimination succeeds, the system has no other
    solution. *)
Lemma eliminate_unique bs :
  forall up lo ds b d0 x y carry,
    length up = length bs -> length lo = length bs -> length ds = length bs ->
    length y = S (length bs) ->
    eliminate b d0 (combine (combine (combine up lo) bs) ds) = Some x ->
    tri_mul_from carry lo (b :: bs) up y = (carry + d0) :: ds ->
    y = x.
Proof.
  induction bs as [|b' bs IH]; intros up lo ds b d0 x y carry Hu Hl Hd Hy.
  - destruct up, lo, ds; try discriminate. simpl.
    unfold Reqb. destruct (Req_dec_T b 0) as [|Hb]; [discriminate|].
    intros H; injection H as <-.
    destruct y as [|y0 [|y1 y]]; simpl in Hy |- *; try discriminate.
    intros H; injection H as H. f_equal.
    apply (Rmult_eq_reg_l b); [|assumption]. field_simplify; [lra|assumption].
  - destruct up as [|c up], lo as [|a lo], ds as [|d' ds]; try discriminate.
    simpl in Hu, Hl, Hd. cbn [combine eliminate].
    unfold Reqb. destruct (Req_dec_T b 0) as [|Hb]; [discriminate|].
    destruct (eliminate _ _ _) as [[|x1 xs]|] eqn:E; try discriminate.
    intros H; injection H as <-.
    destruct y as [|y0 [|y1 y]]; try discriminate.
    simpl in Hy.
    cbn [tri_mul_from hd tl]. intros H. injection H as Hhead Hnext Htail.
    assert (Hyx : y1 :: y = x1 :: xs).
    { apply (IH up lo ds (b' - a * c / b) (d' - a * d0 / b) (x1 :: xs) (y1 :: y) 0);
        [lia|lia|lia|simpl; lia|exact E|].
      cbn [tri_mul_from hd tl]. rewrite Htail. f_equal.
      rewrite <- Hnext.
      replace d0 with (b * y0 + c * y1) by lra. field. assumption. }
    injection Hyx as -> ->. f_equal.
    apply (Rmult_eq_reg_l b); [|assumption]. field_simplify; [lra|assumption].
Qed.

Lemma spsolve_length (B : Tridiag) (rhs x : list R) :
  length (upper B) = (length (main B) - 1)%nat ->
  length (lower B) = (length (main B) - 1)%nat ->
  length rhs = length (main B) ->
  spsolve B rhs = Some x -> length x = length rhs.
Proof.
  unfold spsolve. destruct (main B) as [|b bs]; [discriminate|].
  destruct rhs as [|d0 ds]; [discriminate|]. simpl. intros Hu Hl Hd H.
  apply eliminate_length in H. rewrite H, !length_combine. lia.
Qed.

(** [spsolve] returns a solution of [B . x = rhs]. *)
Lemma spsolve_sound (B : Tridiag) (rhs x : list R) :
  length (upper B) = (length (main B) - 1)%nat ->
  length (lower B) = (length (main B) - 1)%nat ->
  length rhs = length (main B) ->
  spsolve B rhs = Some x -> tri_mul B x = rhs.
Proof.
  unfold spsolve, tri_mul. destruct (main B) as [|b bs]; [discriminate|].
  destruct rhs as [|d0 ds]; [discriminate|]. simpl length. intros Hu Hl Hd H.
  rewrite (eliminate_sound bs (upper B) (lower B) ds b d0 x 0) by (assumption || lia).
  now rewrite Rplus_0_l.
Qed.

(** ... and that solution is the only one: the result does not depend on
    the elimination order that an exact solver follows. *)
Lemma spsolve_unique (B : Tridiag) (rhs x y : list R) :
  length (upper B) = (length (main B) - 1)%nat ->
  length (lower B) = (length (main B) - 1)%nat ->
  length rhs = length (main B) -> length y = length rhs ->
  spsolve B rhs = Some x -> tri_mul B y = rhs -> y = x.
Proof.
  unfold spsolve, tri_mul. destruct (main B) as [|b bs]; [discriminate|].
  destruct rhs as [|d0 ds]; [discriminate|]. simpl length. intros Hu Hl Hd Hly H Hy.
  apply (eliminate_unique bs (upper B) (lower B) ds b d0 x y 0); try assumption; try lia.
  now rewrite Rplus_0_l.
Qed.

(** ** Reading and writing the grid *)

Lemma length_set_nth {A : Type} (i : nat) (x : A) (l : list A) :
  length (set_nth i x l) = length l.
Proof.
  revert i; induction l as [|y l IH]; intros [|i]; simpl; auto.
Qed.

Lemma nth_set_nth {A : Type} (i j : nat) (x dflt : A) (l : list A) :
  (i < length l)%nat ->
  nth j (set_nth i x l) dflt = if Nat.eqb j i then x else nth j l dflt.
Proof.
  revert i j; induction l as [|y l IH]; intros [|i] [|j] H; simpl in *;
    try lia; auto.
  apply IH; lia.
Qed.

Lemma nth_slice {A : Type} (l : list A) (lo hi k : nat) (dflt : A) :
  (lo + k < hi)%nat -> nth k (slice l lo hi) dflt = nth (lo + k) l dflt.
Proof.
  intros H. unfold slice. rewrite nth_firstn.
  destruct (Nat.ltb_spec k (hi - lo)); [|lia]. apply nth_skipn.
Qed.

Lemma length_slice {A : Type} (l : list A) (lo hi : nat) :
  (lo <= hi)%nat -> (hi <= length l)%nat -> length (slice l lo hi) = (hi - lo)%nat.
Proof.
  intros H1 H2. unfold slice. rewrite length_firstn, length_skipn. lia.
Qed.

Lemma shaped_length (P Tn : nat) (f : matrix) : shaped P Tn f -> length f = P.
Proof. now intros [H _]. Qed.

Lemma shaped_row (P Tn : nat) (f : matrix) (j : nat) :
  shaped P Tn f -> (j < P)%nat -> length (nth j f []) = Tn.
Proof. intros [_ H]; apply H. Qed.

Lemma matrix_ext (P Tn : nat) (f g : matrix) :
  shaped P Tn f -> shaped P Tn g ->
  (forall j i, (j < P)%nat -> (i < Tn)%nat -> get f j i = get g j i) ->
  f = g.
Proof.
  intros [Lf Rf] [Lg Rg] H.
  apply (nth_ext _ _ [] []); [congruence|].
  intros j Hj. rewrite Lf in Hj.
  apply (nth_ext _ _ 0 0); [rewrite Rf, Rg; auto|].
  intros i Hi. rewrite Rf in Hi by assumption. now apply H.
Qed.

Lemma nth_col (f : matrix) (i j : nat) :
  (j < length f)%nat -> nth j (col f i) 0 = get f j i.
Proof.
  intros H. unfold col, get.
  rewrite (nth_indep _ 0 ((fun row => nth i row 0) [])) by (now rewrite length_map).
  now rewrite (map_nth (fun row => nth i row 0)).
Qed.

Lemma length_col (f : matrix) (i : nat) : length (col f i) = length f.
Proof. unfold col. apply length_map. Qed.

(** [f[j, :] = v] *)
Lemma shaped_set_row (P Tn : nat) (f : matrix) (j : nat) (v : list R) :
  shaped P Tn f -> length v = Tn -> shaped P Tn (set_row f j v).
Proof.
  intros [Lf Rf] Hv. unfold set_row. split; [now rewrite length_set_nth|].
  intros j' Hj'. destruct (Nat.lt_ge_cases j (length f)) as [Hj|Hj].
  - rewrite nth_set_nth by assumption. destruct (Nat.eqb j' j); auto.
  - assert (E : forall (l : matrix) k, (length l <= k)%nat -> set_nth k v l = l).
    { induction l as [|y l IH]; intros [|k] Hk; simpl in *; try lia; auto.
      now rewrite IH by lia. }
    rewrite E by assumption. auto.
Qed.

Lemma get_set_row (P Tn : nat) (f : matrix) (j j' i : nat) (v : list R) :
  shaped P Tn f -> (j < P)%nat ->
  get (set_row f j v) j' i = if Nat.eqb j' j then nth i v 0 else get f j' i.
Proof.
  intros [Lf Rf] Hj. unfold get, set_row.
  rewrite nth_set_nth by lia. now destruct (Nat.eqb j' j).
Qed.

(** [f[:, i] = v] *)
Lemma nth_set_col (f : matrix) (i j : nat) (v : list R) :
  length v = length f -> (j < length f)%nat ->
  nth j (set_col f i v) [] = set_nth i (nth j v 0) (nth j f []).
Proof.
  intros Hv Hj. unfold set_col.
  now rewrite (nth_map2 _ _ _ _ [] 0) by lia.
Qed.

Lemma shaped_set_col (P Tn : nat) (f : matrix) (i : nat) (v : list R) :
  shaped P Tn f -> length v = P -> shaped P Tn (set_col f i v).
Proof.
  intros [Lf Rf] Hv. split.
  - unfold set_col. rewrite length_map2. lia.
  - intros j Hj. rewrite nth_set_col by lia. rewrite length_set_nth. auto.
Qed.

Lemma get_set_col (P Tn : nat) (f : matrix) (i j i' : nat) (v : list R) :
  shaped P Tn f -> length v = P -> (j < P)%nat -> (i < Tn)%nat ->
  get (set_col f i v) j i' = if Nat.eqb i' i then nth j v 0 else get f j i'.
Proof.
  intros [Lf Rf] Hv Hj Hi. unfold get.
  rewrite nth_set_col by lia. rewrite nth_set_nth by (rewrite Rf; lia).
  reflexivity.
Qed.

(** [f[lo:hi, i] = v] *)
Lemma nth_set_col_slice (f : matrix) (lo hi i j : nat) (v : list R) :
  (lo <= hi)%nat -> (hi <= length f)%nat -> length v = (hi - lo)%nat ->
  nth j (set_col_slice f lo hi i v) []
  = if (Nat.leb lo j && Nat.ltb j hi)%bool
    then set_nth i (nth (j - lo) v 0) (nth j f [])
    else nth j f [].
Proof.
  intros Hlh Hhi Hv. unfold set_col_slice.
  assert (L1 : length (firstn lo f) = lo) by (rewrite length_firstn; lia).
  assert (L2 : length (map2 (fun row x => set_nth i x row) (slice f lo hi) v)
               = (hi - lo)%nat)
    by (rewrite length_map2, length_slice by lia; lia).
  destruct (Nat.leb_spec lo j) as [H1|H1]; simpl.
  - rewrite app_nth2 by lia. rewrite L1.
    destruct (Nat.ltb_spec j hi) as [H2|H2].
    + rewrite app_nth1 by lia.
      rewrite (nth_map2 _ _ _ _ [] 0) by (rewrite ?length_slice; lia).
      rewrite nth_slice by lia. now replace (lo + (j - lo))%nat with j by lia.
    + rewrite app_nth2 by lia. rewrite L2, nth_skipn. f_equal. lia.
  - rewrite app_nth1 by lia. rewrite nth_firstn.
    destruct (Nat.ltb_spec j lo); [reflexivity|lia].
Qed.

Lemma shaped_set_col_slice (P Tn : nat) (f : matrix) (lo hi i : nat) (v : list R) :
  shaped P Tn f -> (lo <= hi)%nat -> (hi <= P)%nat -> length v = (hi - lo)%nat ->
  shaped P Tn (set_col_slice f lo hi i v).
Proof.
  intros [Lf Rf] Hlh Hhi Hv. split.
  - unfold set_col_slice.
    rewrite !length_app, length_map2, length_slice, length_firstn, length_skipn by lia.
    lia.
  - intros j Hj. rewrite nth_set_col_slice by lia.
    destruct (Nat.leb lo j && Nat.ltb j hi)%bool; rewrite ?length_set_nth; auto.
Qed.

Lemma get_set_col_slice (P Tn : nat) (f : matrix) (lo hi i j i' : nat) (v : list R) :
  shaped P Tn f -> (lo <= hi)%nat -> (hi <= P)%nat -> length v = (hi - lo)%nat ->
  (j < P)%nat -> (i < Tn)%nat ->
  get (set_col_slice f lo hi i v) j i'
  = if (Nat.leb lo j && Nat.ltb j hi && Nat.eqb i' i)%bool
    then nth (j - lo) v 0 else get f j i'.
Proof.
  intros [Lf Rf] Hlh Hhi Hv Hj Hi. unfold get.
  rewrite nth_set_col_slice by lia.
  destruct (Nat.leb lo j && Nat.ltb j hi)%bool; simpl; [|reflexivity].
  rewrite nth_set_nth by (rewrite Rf; lia). reflexivity.
Qed.

Lemma shaped_zeros (P Tn : nat) : shaped P Tn (zeros P Tn).
Proof.
  unfold zeros. split; [apply repeat_length|].
  intros j Hj. rewrite nth_repeat_lt by assumption. apply repeat_length.
Qed.

(** ** The finite-difference grid *)

Lemma length_linspace (a b : R) (num : nat) : length (linspace a b num) = num.
Proof.
  destruct num as [|[|m]]; simpl; auto.
  rewrite length_app, length_map, length_seq. simpl. lia.
Qed.

Lemma last_linspace (a b : R) (num : nat) :
  (2 <= num)%nat -> last (linspace a b num) 0 = b.
Proof.
  destruct num as [|[|m]]; try lia. intros _. unfold linspace. apply last_last.
Qed.

Lemma nth_last_linspace (a b : R) (num : nat) :
  (2 <= num)%nat -> nth (num - 1) (linspace a b num) 0 = b.
Proof.
  destruct num as [|[|m]]; try lia. intros _. unfold linspace.
  rewrite app_nth2 by (rewrite length_map, length_seq; lia).
  rewrite length_map, length_seq.
  replace (S (S m) - 1 - S m)%nat with 0%nat by lia. reflexivity.
Qed.

Lemma nth_0_linspace (a b : R) (num : nat) :
  (2 <= num)%nat -> nth 0 (linspace a b num) 0 = a.
Proof.
  destruct num as [|[|m]]; try lia. intros _. unfold linspace. simpl. lra.
Qed.

Section FD_facts.

Variables (is_call : bool) (s0 sigma ttm r qd : R).
Variables (px_paths time_steps : nat).
Hypothesis Hpaths : (3 <= px_paths)%nat.
Hypothesis Hsteps : (2 <= time_steps)%nat.

Local Abbreviation M := (FD_M px_paths).
Local Abbreviation N := (FD_N time_steps).
Local Abbreviation init := (init_cond is_call s0 px_paths).
Local Abbreviation ub := (upper_bound is_call s0 ttm r px_paths time_steps).
Local Abbreviation lb := (lower_bound is_call s0 ttm r px_paths time_steps).
Local Abbreviation B := (FD_B sigma ttm r qd px_paths time_steps).
Local Abbreviation reapply := (FD_reapply is_call s0 ttm r px_paths time_steps).
Local Abbreviation grid0 := (FD_init is_call s0 ttm r px_paths time_steps).
Local Abbreviation offset := (FD_Offset sigma ttm r qd px_paths time_steps).
Local Abbreviation solve := (FD_solve sigma ttm r qd px_paths time_steps).
Local Abbreviation step := (FD_step is_call s0 sigma ttm r qd px_paths time_steps).
Local Abbreviation step_bare := (FD_step_bare sigma ttm r qd px_paths time_steps).
Local Abbreviation FD_inv := (FD_invariant is_call s0 ttm r px_paths time_steps).

Lemma length_S_vec : length (S_vec s0 px_paths) = px_paths.
Proof. apply length_linspace. Qed.

Lemma length_t_vec : length (t_vec ttm time_steps) = time_steps.
Proof. apply length_linspace. Qed.

Lemma length_init_cond : length init = px_paths.
Proof.
  unfold init_cond. destruct is_call; now rewrite length_map, length_S_vec.
Qed.

Lemma length_upper_bound : length ub = time_steps.
Proof.
  unfold upper_bound. destruct is_call;
    rewrite ?repeat_length, ?length_map, ?length_t_vec; reflexivity.
Qed.

Lemma length_lower_bound : length lb = time_steps.
Proof.
  unfold lower_bound. destruct is_call;
    rewrite ?repeat_length, ?length_map, ?length_t_vec; reflexivity.
Qed.

(** The entries of the grid after the three re-assignments. *)
Lemma get_FD_reapply (f : matrix) (j i : nat) :
  shaped px_paths time_steps f -> (j < px_paths)%nat -> (i < time_steps)%nat ->
  get (reapply f) j i
  = if Nat.eqb j (px_paths - 1) then nth i lb 0
    else if Nat.eqb j 0 then nth i ub 0
    else if Nat.eqb i (time_steps - 1) then nth j init 0
    else get f j i.
Proof.
  intros Hf Hj Hi. unfold FD_reapply.
  pose proof length_init_cond as Li. pose proof length_upper_bound as Lu.
  pose proof length_lower_bound as Ll.
  assert (Hc1 : shaped px_paths time_steps (set_col f (time_steps - 1) init))
    by (apply shaped_set_col; assumption).
  assert (Hc2 : shaped px_paths time_steps
                 (set_row (set_col f (time_steps - 1) init) 0 ub))
    by (apply shaped_set_row; assumption).
  rewrite (get_set_row px_paths time_steps) by (assumption || lia).
  rewrite (get_set_row px_paths time_steps) by (assumption || lia).
  rewrite (get_set_col px_paths time_steps) by (assumption || lia).
  reflexivity.
Qed.

Lemma shaped_FD_reapply (f : matrix) :
  shaped px_paths time_steps f -> shaped px_paths time_steps (reapply f).
Proof.
  intros Hf. unfold FD_reapply.
  apply shaped_set_row; [|apply length_lower_bound].
  apply shaped_set_row; [|apply length_upper_bound].
  apply shaped_set_col; [assumption|apply length_init_cond].
Qed.

(** The three re-assignments are idempotent. *)
Lemma FD_reapply_idem (f : matrix) :
  shaped px_paths time_steps f -> reapply (reapply f) = reapply f.
Proof.
  intros Hf. pose proof (shaped_FD_reapply f Hf) as Hr.
  apply (matrix_ext px_paths time_steps);
    [apply shaped_FD_reapply; assumption|assumption|].
  intros j i Hj Hi. rewrite (get_FD_reapply (reapply f)) by assumption.
  rewrite (get_FD_reapply f) by assumption.
  destruct (Nat.eqb j (px_paths - 1)), (Nat.eqb j 0), (Nat.eqb i (time_steps - 1));
    reflexivity.
Qed.

(** The grid before the loop is the grid of zeros, with [S_vec] in its last
    column, after the three assignments. *)
Lemma FD_init_reapply :
  grid0 = reapply (set_col (zeros px_paths time_steps) (time_steps - 1)
                     (S_vec s0 px_paths)).
Proof. reflexivity. Qed.

Lemma shaped_FD_init : shaped px_paths time_steps grid0.
Proof.
  rewrite FD_init_reapply. apply shaped_FD_reapply.
  apply shaped_set_col; [apply shaped_zeros|apply length_S_vec].
Qed.

Lemma FD_reapply_init : reapply grid0 = grid0.
Proof.
  rewrite FD_init_reapply. apply FD_reapply_idem.
  apply shaped_set_col; [apply shaped_zeros|apply length_S_vec].
Qed.

Lemma length_FD_Offset (f : matrix) (idx : nat) (Offset : list R) :
  length (offset f idx Offset) = length Offset.
Proof. unfold FD_Offset. now rewrite !length_set_nth. Qed.

Lemma length_main_B : length (main B) = (M - 1)%nat.
Proof.
  unfold FD_B, b_list, j_list, FD_M; simpl.
  rewrite length_slice; rewrite ?length_map, ?length_seq; lia.
Qed.

Lemma length_lower_B : length (lower B) = (M - 2)%nat.
Proof.
  unfold FD_B, a_list, j_list, FD_M; simpl.
  rewrite length_slice; rewrite ?length_map, ?length_seq; lia.
Qed.

Lemma length_upper_B : length (upper B) = (M - 2)%nat.
Proof.
  unfold FD_B, c_list, j_list, FD_M; simpl.
  rewrite length_slice; rewrite ?length_map, ?length_seq; lia.
Qed.

(** What one solve does: it writes the solution of the linear system in the
    interior of column [idx]. *)
Lemma FD_solve_inv (idx : nat) (f f' : matrix) (Offset Offset' : list R) :
  shaped px_paths time_steps f -> length Offset = (M - 1)%nat ->
  solve idx (f, Offset) = Ok (f', Offset') ->
  exists x,
    length x = (M - 1)%nat
    /\ Offset' = offset f idx Offset
    /\ tri_mul B x = map2 Rplus (slice (col f (idx + 1)) 1 M) Offset'
    /\ f' = set_col_slice f 1 M idx x.
Proof.
  intros Hf HO. unfold FD_solve.
  destruct (spsolve _ _) as [x|] eqn:E; [|discriminate].
  intros H; injection H as <- <-.
  assert (Lrhs : length (map2 Rplus (slice (col f (idx + 1)) 1 M)
                           (offset f idx Offset)) = (M - 1)%nat).
  { rewrite length_map2, length_FD_Offset, length_slice, HO;
      rewrite ?length_col, ?(shaped_length _ _ _ Hf); unfold FD_M; lia. }
  assert (HB1 : length (upper B) = (length (main B) - 1)%nat)
    by (rewrite length_upper_B, length_main_B; lia).
  assert (HB2 : length (lower B) = (length (main B) - 1)%nat)
    by (rewrite length_lower_B, length_main_B; lia).
  assert (HB3 : length (map2 Rplus (slice (col f (idx + 1)) 1 M)
                          (offset f idx Offset)) = length (main B))
    by (rewrite Lrhs, length_main_B; reflexivity).
  exists x. repeat split.
  - rewrite (spsolve_length _ _ _ HB1 HB2 HB3 E). assumption.
  - apply (spsolve_sound _ _ _ HB1 HB2 HB3 E).
Qed.

(** Writing the interior of a column before the last keeps the invariant. *)
Lemma FD_inv_set_col_slice (f : matrix) (idx : nat) (x : list R) :
  FD_inv f -> length x = (M - 1)%nat -> (idx < N)%nat ->
  FD_inv (set_col_slice f 1 M idx x).
Proof.
  intros [Hf Hfix] Hx Hidx. unfold FD_M, FD_N in *.
  assert (Hg : shaped px_paths time_steps (set_col_slice f 1 (px_paths - 1) idx x))
    by (apply shaped_set_col_slice; (assumption || lia)).
  split; [assumption|].
  apply (matrix_ext px_paths time_steps);
    [apply shaped_FD_reapply; assumption|assumption|].
  intros j i Hj Hi. rewrite get_FD_reapply by assumption.
  rewrite (get_set_col_slice px_paths time_steps) by (assumption || lia).
  rewrite <- Hfix at 2. rewrite get_FD_reapply by assumption.
  destruct (Nat.eqb_spec j (px_paths - 1)) as [->|Hj1].
  - destruct (Nat.ltb_spec (px_paths - 1) (px_paths - 1)); [lia|].
    now rewrite Bool.andb_false_r.
  - destruct (Nat.eqb_spec j 0) as [->|Hj0]; [reflexivity|].
    destruct (Nat.eqb_spec i (time_steps - 1)) as [->|Hi1].
    + destruct (Nat.eqb_spec (time_steps - 1) idx); [lia|].
      now rewrite Bool.andb_false_r.
    + reflexivity.
Qed.

(** The re-assignments after a solve change nothing: a turn of the loop
    is the bare solve. *)
Lemma FD_step_is_bare (idx : nat) (f : matrix) (Offset : list R) :
  FD_inv f -> length Offset = (M - 1)%nat -> (idx < N)%nat ->
  step idx (f, Offset) = step_bare idx (f, Offset).
Proof.
  intros Hinv HO Hidx. unfold FD_step, FD_step_bare.
  destruct (solve idx (f, Offset)) as [[f' Offset']|e] eqn:E; [|reflexivity].
  destruct (FD_solve_inv idx f f' Offset Offset' (proj1 Hinv) HO E)
    as (x & Hx & _ & _ & ->).
  destruct (FD_inv_set_col_slice f idx x Hinv Hx Hidx) as [_ Hfix].
  simpl. now rewrite Hfix.
Qed.

Lemma FD_step_bare_inv (idx : nat) (f f' : matrix) (Offset Offset' : list R) :
  FD_inv f -> length Offset = (M - 1)%nat -> (idx < N)%nat ->
  step_bare idx (f, Offset) = Ok (f', Offset') ->
  FD_inv f' /\ length Offset' = (M - 1)%nat.
Proof.
  intros Hinv HO Hidx E. unfold FD_step_bare in E.
  destruct (FD_solve_inv idx f f' Offset Offset' (proj1 Hinv) HO E)
    as (x & Hx & -> & _ & ->).
  split; [now apply FD_inv_set_col_slice|].
  now rewrite length_FD_Offset.
Qed.

Lemma FD_loop_is_bare (k : nat) (f : matrix) (Offset : list R) :
  FD_inv f -> length Offset = (M - 1)%nat -> (k <= N)%nat ->
  FD_loop step k (f, Offset) = FD_loop step_bare k (f, Offset).
Proof.
  revert f Offset; induction k as [|idx IH]; intros f Offset Hinv HO Hk;
    [reflexivity|].
  cbn [FD_loop]. rewrite FD_step_is_bare by (assumption || lia).
  destruct (step_bare idx (f, Offset)) as [[f' Offset']|e] eqn:E; [|reflexivity].
  destruct (FD_step_bare_inv idx f f' Offset Offset' Hinv HO ltac:(lia) E).
  cbn [bind]. apply IH; (assumption || lia).
Qed.

Lemma FD_inv_init : FD_inv grid0.
Proof. split; [apply shaped_FD_init|apply FD_reapply_init]. Qed.

(** The grid and the price do not depend on the re-assignments. *)
Lemma FD_grid_is_bare :
  FD_grid is_call s0 sigma ttm r qd px_paths time_steps
  = FD_grid_bare is_call s0 sigma ttm r qd px_paths time_steps.
Proof.
  unfold FD_grid, FD_grid_bare, FD_grid_with.
  rewrite FD_loop_is_bare; [reflexivity|apply FD_inv_init| |lia].
  apply repeat_length.
Qed.

Lemma FD_price_is_bare :
  FD_price is_call s0 sigma ttm r qd px_paths time_steps
  = FD_price_bare is_call s0 sigma ttm r qd px_paths time_steps.
Proof. unfold FD_price, FD_price_bare. now rewrite FD_grid_is_bare. Qed.

End FD_facts.

Lemma set_nth_out {A : Type} (i : nat) (x : A) (l : list A) :
  (length l <= i)%nat -> set_nth i x l = l.
Proof.
  revert i; induction l as [|y l IH]; intros [|i] H; simpl in *; try lia; auto.
  now rewrite IH by lia.
Qed.

Lemma mid_zero_zeros (n : nat) : mid_zero (repeat 0 n).
Proof.
  intros i H0 H1. rewrite repeat_length in H1. apply nth_repeat_lt. lia.
Qed.

Section FD_loop_facts.

Variables (is_call : bool) (s0 sigma ttm r qd : R).
Variables (px_paths time_steps : nat).
Hypothesis Hpaths : (3 <= px_paths)%nat.
Hypothesis Hsteps : (2 <= time_steps)%nat.

Local Abbreviation M := (FD_M px_paths).
Local Abbreviation N := (FD_N time_steps).
Local Abbreviation B := (FD_B sigma ttm r qd px_paths time_steps).
Local Abbreviation grid0 := (FD_init is_call s0 ttm r px_paths time_steps).
Local Abbreviation offset := (FD_Offset sigma ttm r qd px_paths time_steps).
Local Abbreviation step_bare := (FD_step_bare sigma ttm r qd px_paths time_steps).
Local Abbreviation FD_inv := (FD_invariant is_call s0 ttm r px_paths time_steps).
Local Abbreviation a_1 := (nth 1 (a_list sigma ttm r qd px_paths time_steps) 0).
Local Abbreviation c_last :=
  (nth (M - 1) (c_list sigma ttm r qd px_paths time_steps) 0).

(** The entries of [Offset] after its two assignments. *)
Lemma nth_FD_Offset (f : matrix) (idx i : nat) (Offset : list R) :
  length Offset = (M - 1)%nat -> (i < M - 1)%nat ->
  nth i (offset f idx Offset) 0
  = if Nat.eqb i (M - 2) then - c_last * get f M idx
    else if Nat.eqb i 0 then - a_1 * get f 0 idx
    else nth i Offset 0.
Proof.
  intros HO Hi. unfold FD_Offset. unfold FD_M in *.
  rewrite length_set_nth, HO.
  rewrite nth_set_nth by (rewrite length_set_nth; lia).
  replace (px_paths - 1 - 1 - 1)%nat with (px_paths - 1 - 2)%nat by lia.
  destruct (Nat.eqb i (px_paths - 1 - 2)); [reflexivity|].
  rewrite nth_set_nth by lia. reflexivity.
Qed.

Lemma mid_zero_FD_Offset (f : matrix) (idx : nat) (Offset : list R) :
  length Offset = (M - 1)%nat -> mid_zero Offset -> mid_zero (offset f idx Offset).
Proof.
  intros HO Hz i H0 H1. rewrite length_FD_Offset in H1.
  rewrite nth_FD_Offset by lia.
  destruct (Nat.eqb_spec i (M - 2)); [lia|].
  destruct (Nat.eqb_spec i 0); [lia|]. apply Hz; lia.
Qed.

(** Whatever the previous turn left in [Offset], the two assignments give
    the same array as on fresh zeros. *)
Lemma FD_Offset_fresh (f : matrix) (idx : nat) (Offset : list R) :
  length Offset = (M - 1)%nat -> mid_zero Offset ->
  offset f idx Offset = offset f idx (repeat 0 (M - 1)).
Proof.
  intros HO Hz. apply (nth_ext _ _ 0 0).
  - now rewrite !length_FD_Offset, repeat_length.
  - intros i Hi. rewrite length_FD_Offset, HO in Hi.
    rewrite !nth_FD_Offset by (rewrite ?repeat_length; lia).
    destruct (Nat.eqb_spec i (M - 2)); [reflexivity|].
    destruct (Nat.eqb_spec i 0); [reflexivity|].
    rewrite nth_repeat_lt by lia. apply Hz; lia.
Qed.

(** The interior of a column, and its entries. *)
Lemma nth_interior (f : matrix) (i k : nat) :
  shaped px_paths time_steps f -> (k < M - 1)%nat ->
  nth k (slice (col f i) 1 M) 0 = get f (S k) i.
Proof.
  intros Hf Hk. unfold FD_M in *. rewrite nth_slice by lia.
  rewrite nth_col by (rewrite (shaped_length _ _ _ Hf); lia). reflexivity.
Qed.

Lemma length_interior (f : matrix) (i : nat) :
  shaped px_paths time_steps f -> length (slice (col f i) 1 M) = (M - 1)%nat.
Proof.
  intros Hf. unfold FD_M.
  rewrite length_slice; rewrite ?length_col, ?(shaped_length _ _ _ Hf); lia.
Qed.

Lemma interior_ext (f g : matrix) (i : nat) :
  shaped px_paths time_steps f -> shaped px_paths time_steps g ->
  (forall j, (j < px_paths)%nat -> get f j i = get g j i) ->
  slice (col f i) 1 M = slice (col g i) 1 M.
Proof.
  intros Hf Hg H. apply (nth_ext _ _ 0 0).
  - now rewrite !length_interior.
  - intros k Hk. rewrite length_interior in Hk by assumption.
    rewrite !nth_interior by assumption. apply H. unfold FD_M in Hk. lia.
Qed.

Lemma interior_set_col_slice (f : matrix) (idx : nat) (x : list R) :
  shaped px_paths time_steps f -> length x = (M - 1)%nat ->
  (idx < time_steps)%nat ->
  slice (col (set_col_slice f 1 M idx x) idx) 1 M = x.
Proof.
  intros Hf Hx Hidx.
  assert (Hg : shaped px_paths time_steps (set_col_slice f 1 M idx x))
    by (apply shaped_set_col_slice; unfold FD_M in *; (assumption || lia)).
  apply (nth_ext _ _ 0 0).
  - rewrite (length_interior _ idx Hg). lia.
  - intros k Hk. rewrite (length_interior _ idx Hg) in Hk.
    rewrite (nth_interior _ idx k Hg) by assumption.
    rewrite (get_set_col_slice px_paths time_steps)
      by (unfold FD_M in *; (assumption || lia)).
    destruct (Nat.leb_spec 1 (S k)); [|lia].
    destruct (Nat.ltb_spec (S k) M); [|unfold FD_M in *; lia].
    rewrite Nat.eqb_refl. simpl. f_equal. lia.
Qed.

(** The loop, turn by turn: it keeps the invariant, it leaves the later
    columns and the two boundary rows as they are, and every column that it
    fills solves the linear system built from the column after it. *)
Lemma FD_loop_bare_spec (k : nat) :
  forall (f f' : matrix) (Offset Offset' : list R),
    FD_inv f -> length Offset = (M - 1)%nat -> mid_zero Offset -> (k <= N)%nat ->
    FD_loop step_bare k (f, Offset) = Ok (f', Offset') ->
    FD_inv f'
    /\ (forall j i, (j < px_paths)%nat -> (i < time_steps)%nat ->
          (k <= i)%nat \/ j = 0%nat \/ j = M ->
          get f' j i = get f j i)
    /\ (forall idx, (idx < k)%nat ->
          tri_mul B (slice (col f' idx) 1 M)
          = map2 Rplus (slice (col f' (idx + 1)) 1 M)
                       (offset f' idx (repeat 0 (M - 1)))).
Proof.
  induction k as [|idx IH]; intros f f' Offset Offset' Hinv HO Hz Hk.
  - simpl. intros H; injection H as <- <-.
    split; [assumption|]. split; [reflexivity|]. intros idx Hidx; lia.
  - cbn [FD_loop].
    destruct (step_bare idx (f, Offset)) as [[f1 Offset1]|e] eqn:E;
      [|discriminate].
    cbn [bind]. intros Hloop.
    pose proof E as E'. unfold FD_step_bare in E'.
    destruct (FD_solve_inv sigma ttm r qd px_paths time_steps Hpaths Hsteps
                idx f f1 Offset Offset1 (proj1 Hinv) HO E')
      as (x & Hx & HO1 & Hsys & Hf1).
    assert (Hinv1 : FD_inv f1).
    { rewrite Hf1.
      apply (FD_inv_set_col_slice is_call s0 ttm r px_paths time_steps
               Hpaths Hsteps); (assumption || lia). }
    assert (LO1 : length Offset1 = (M - 1)%nat)
      by (rewrite HO1, length_FD_Offset; assumption).
    assert (Hz1 : mid_zero Offset1)
      by (rewrite HO1; apply mid_zero_FD_Offset; assumption).
    destruct (IH f1 f' Offset1 Offset' Hinv1 LO1 Hz1 ltac:(lia) Hloop)
      as (Hinv' & Hsame & Hsolved).
    assert (Hf1get : forall j i, (j < px_paths)%nat -> (i < time_steps)%nat ->
              get f1 j i
              = if (Nat.leb 1 j && Nat.ltb j M && Nat.eqb i idx)%bool
                then nth (j - 1) x 0 else get f j i).
    { intros j i Hj Hi. rewrite Hf1. unfold FD_M, FD_N in *.
      apply (get_set_col_slice px_paths time_steps); (apply Hinv || lia). }
    split; [assumption|]. split.
    + intros j i Hj Hi Hcase. rewrite Hsame by (assumption || lia).
      rewrite Hf1get by assumption.
      destruct (Nat.leb_spec 1 j); simpl; [|reflexivity].
      destruct (Nat.ltb_spec j M); simpl; [|reflexivity].
      destruct (Nat.eqb_spec i idx); [lia|reflexivity].
    + intros idx' Hidx'. destruct (Nat.eq_dec idx' idx) as [->|Hne];
        [|apply Hsolved; lia].
      unfold FD_N in Hk.
      assert (Ecol : slice (col f' idx) 1 M = x).
      { rewrite <- (interior_set_col_slice f idx x (proj1 Hinv) Hx ltac:(lia)).
        rewrite <- Hf1.
        apply interior_ext; [apply Hinv'|apply Hinv1|].
        intros j Hj. apply Hsame; lia. }
      assert (Enext : slice (col f' (idx + 1)) 1 M = slice (col f (idx + 1)) 1 M).
      { apply interior_ext; [apply Hinv'|apply Hinv|].
        intros j Hj. rewrite Hsame by lia. rewrite Hf1get by lia.
        destruct (Nat.eqb_spec (idx + 1) idx); [lia|].
        now rewrite Bool.andb_false_r. }
      assert (Eoff : offset f' idx (repeat 0 (M - 1)) = Offset1).
      { rewrite HO1, (FD_Offset_fresh f idx Offset) by assumption.
        unfold FD_Offset.
        rewrite !(Hsame _ idx) by (unfold FD_M; lia).
        rewrite !Hf1get by (unfold FD_M; lia).
        destruct (Nat.ltb_spec M M); [lia|]. rewrite Bool.andb_false_r.
        reflexivity. }
      rewrite Ecol, Enext, Eoff. exact Hsys.
Qed.

End FD_loop_facts.

(** ** When the solve succeeds *)

(** On a row-dominant system the elimination meets no zero pivot. *)
Lemma eliminate_dominant (rest : list (R * R * R * R)) :
  forall b d0, couple rest < b -> dominant rest ->
  exists x, eliminate b d0 rest = Some x.
Proof.
  induction rest as [|[[[c a] b'] d'] rest IH]; intros b d0 Hb Hdom.
  - simpl in Hb. simpl. unfold Reqb. destruct (Req_dec_T b 0); [lra|]. eauto.
  - simpl in Hb. destruct Hdom as [Hrow Hdom].
    assert (Hb0 : 0 < b) by (pose proof (Rabs_pos c); lra).
    cbn [eliminate]. unfold Reqb. destruct (Req_dec_T b 0); [lra|].
    assert (Hpiv : couple rest < b' - a * c / b).
    { assert (Hq : Rabs (a * c / b) <= Rabs a).
      { unfold Rdiv. rewrite !Rabs_mult, Rabs_inv, (Rabs_pos_eq b) by lra.
        rewrite Rmult_assoc.
        rewrite <- (Rmult_1_r (Rabs a)) at 2.
        apply Rmult_le_compat_l; [apply Rabs_pos|].
        apply (Rmult_le_reg_r b); [assumption|].
        rewrite Rmult_assoc, Rinv_l by lra. lra. }
      pose proof (Rle_abs (a * c / b)). lra. }
    destruct (IH _ (d' - a * d0 / b) Hpiv Hdom) as [x Hx].
    rewrite Hx. pose proof (eliminate_length _ _ _ _ Hx) as L.
    destruct x as [|x1 xs]; [discriminate|]. eauto.
Qed.

(** Consecutive rows of coefficient sequences, zipped as [spsolve] does. *)
Lemma dominant_rows (a b c : nat -> R) (n : nat) :
  forall (j : nat) (ds : list R),
    length ds = n ->
    (forall i, (j <= i < j + n)%nat ->
       Rabs (a (S i)) + (if Nat.ltb (S i) (j + n) then Rabs (c (S i)) else 0)
       < b (S i)) ->
    dominant (combine (combine (combine (map c (seq j n)) (map a (seq (S j) n)))
                               (map b (seq (S j) n))) ds).
Proof.
  induction n as [|n IH]; intros j ds Hds Hrow; [exact I|].
  destruct ds as [|d0 ds]; [discriminate|]. cbn [seq map combine dominant].
  split.
  - specialize (Hrow j ltac:(lia)).
    destruct n as [|n]; [|destruct ds as [|d1 ds]; [discriminate|]];
      cbn [seq map combine couple].
    + destruct (Nat.ltb_spec (S j) (j + 1)); [lia|]. exact Hrow.
    + destruct (Nat.ltb_spec (S j) (j + S (S n))); [|lia]. exact Hrow.
  - apply IH; [simpl in Hds; lia|].
    intros i Hi. specialize (Hrow i ltac:(lia)).
    replace (S j + n)%nat with (j + S n)%nat by lia. exact Hrow.
Qed.

Lemma slice_map_seq {A : Type} (g : nat -> A) (len lo hi : nat) :
  (lo <= hi)%nat -> (hi <= len)%nat ->
  slice (map g (seq 0 len)) lo hi = map g (seq lo (hi - lo)).
Proof.
  intros H1 H2. apply (nth_ext _ _ (g 0%nat) (g 0%nat)).
  - rewrite length_slice by (rewrite ?length_map, ?length_seq; lia).
    now rewrite length_map, length_seq.
  - intros k Hk.
    rewrite length_slice in Hk by (rewrite ?length_map, ?length_seq; lia).
    rewrite nth_slice by lia. rewrite !(map_nth g), !seq_nth by lia. reflexivity.
Qed.

Section FD_total.

Variables (sigma ttm r qd : R).
Variables (px_paths time_steps : nat).
Hypothesis Hpaths : (3 <= px_paths)%nat.
Hypothesis Hsteps : (2 <= time_steps)%nat.

Local Abbreviation M := (FD_M px_paths).
Local Abbreviation B := (FD_B sigma ttm r qd px_paths time_steps).
Local Abbreviation a_ := (a_coef sigma ttm r qd time_steps).
Local Abbreviation b_ := (b_coef sigma ttm r time_steps).
Local Abbreviation c_ := (c_coef sigma ttm r qd time_steps).
Local Abbreviation FD_dom := (FD_dominant sigma ttm r qd px_paths time_steps).

(** The three diagonals of [B]. *)
Lemma FD_B_diagonals :
  main B = map b_ (seq 1 (M - 1))
  /\ lower B = map a_ (seq 2 (M - 2))
  /\ upper B = map c_ (seq 1 (M - 2)).
Proof.
  unfold FD_B, a_list, b_list, c_list, j_list, FD_M. cbn [main lower upper].
  rewrite !slice_map_seq by lia.
  repeat split; do 2 f_equal; lia.
Qed.

Lemma spsolve_FD_B (rhs : list R) :
  FD_dom -> length rhs = (M - 1)%nat ->
  exists x, spsolve B rhs = Some x.
Proof.
  intros Hdom Hrhs. destruct FD_B_diagonals as (Em & El & Eu).
  unfold spsolve. rewrite Em, El, Eu.
  assert (HM : (M - 1 = S (M - 2))%nat) by (unfold FD_M; lia).
  rewrite HM in Hrhs |- *. destruct rhs as [|d0 ds]; [discriminate|].
  cbn [seq map]. simpl in Hrhs.
  apply eliminate_dominant.
  - pose proof (Hdom 1%nat ltac:(unfold FD_M; lia)) as H1. simpl in H1.
    destruct (M - 2)%nat as [|m] eqn:Em2.
    + simpl. destruct (Nat.ltb_spec 1 (M - 1)); [lia|]. lra.
    + destruct ds as [|d1 ds]; [discriminate|]. cbn [seq map combine couple].
      destruct (Nat.ltb_spec 1 (M - 1)); [|lia]. lra.
  - apply dominant_rows; [lia|].
    intros i Hi. pose proof (Hdom (S i) ltac:(lia)) as Hrow.
    destruct (Nat.leb_spec 2 (S i)); [|lia].
    destruct (Nat.ltb_spec (S i) (M - 1)), (Nat.ltb_spec (S i) (1 + (M - 2)));
      try lia; exact Hrow.
Qed.

Lemma FD_solve_total (idx : nat) (f : matrix) (Offset : list R) :
  FD_dom -> shaped px_paths time_steps f -> length Offset = (M - 1)%nat ->
  exists st, FD_solve sigma ttm r qd px_paths time_steps idx (f, Offset) = Ok st.
Proof.
  intros Hdom Hf HO. unfold FD_solve.
  destruct (spsolve_FD_B
              (map2 Rplus (slice (col f (idx + 1)) 1 M)
                 (FD_Offset sigma ttm r qd px_paths time_steps f idx Offset))
              Hdom) as [x Hx].
  - rewrite length_map2, length_FD_Offset, length_slice, HO;
      rewrite ?length_col, ?(shaped_length _ _ _ Hf); unfold FD_M; lia.
  - rewrite Hx. eauto.
Qed.

(** The coefficients are row dominant when the drift [r - q] is no larger
    than the variance [vol^2]. *)
Lemma FD_dominant_drift :
  0 <= r -> 0 < ttm -> Rabs (r - qd) <= sigma ^ 2 -> FD_dom.
Proof.
  intros Hr Ht Hdrift j Hj. unfold a_coef, b_coef, c_coef, d_t.
  assert (Hdt : 0 < ttm / INR (time_steps - 1)).
  { apply Rdiv_lt_0_compat; [assumption|]. apply lt_0_INR. lia. }
  set (dt := ttm / INR (time_steps - 1)) in *.
  assert (HJ : 1 <= INR j) by (change 1 with (INR 1); apply le_INR; lia).
  set (J := INR j) in *.
  set (g := r - qd) in *.
  assert (Hg : - sigma ^ 2 <= g <= sigma ^ 2)
    by (unfold Rabs in Hdrift; destruct (Rcase_abs g); lra).
  assert (Hs : 0 <= sigma ^ 2) by (simpl; nra).
  set (v := sigma ^ 2) in *.
  clearbody dt J g v.
  assert (H1 : 0 <= (v - g) * J) by (apply Rmult_le_pos; lra).
  assert (H2 : 0 <= (v + g) * J) by (apply Rmult_le_pos; lra).
  assert (H3 : 0 <= v * J * (J - 1))
    by (apply Rmult_le_pos; [apply Rmult_le_pos|]; lra).
  assert (HX : - (v * J ^ 2) <= g * J <= v * J ^ 2) by (simpl; nra).
  assert (Ha : Rabs (0.5 * dt * (g * J - v * J ^ 2))
               = 0.5 * dt * (v * J ^ 2 - g * J)).
  { rewrite Rabs_left1 by nra. ring. }
  assert (Hc : Rabs (0.5 * dt * (- g * J - v * J ^ 2))
               = 0.5 * dt * (v * J ^ 2 + g * J)).
  { rewrite Rabs_left1 by nra. ring. }
  rewrite Ha, Hc.
  assert (Hpos : 0 <= dt * (v * J ^ 2)) by (simpl; nra).
  destruct (Nat.leb 2 j), (Nat.ltb j (M - 1)); nra.
Qed.

(** With a single interior price level the system is one equation, and
    its pivot [b_1] is positive. *)
Lemma FD_dominant_single :
  px_paths = 3%nat -> 0 <= r -> 0 < ttm -> FD_dom.
Proof.
  intros HP Hr Ht j Hj. unfold FD_M in *. subst px_paths.
  assert (j = 1%nat) by lia. subst j.
  unfold b_coef, d_t.
  assert (Hdt : 0 < ttm / INR (time_steps - 1)).
  { apply Rdiv_lt_0_compat; [assumption|]. apply lt_0_INR. lia. }
  set (dt := ttm / INR (time_steps - 1)) in *. clearbody dt.
  assert (Hs : 0 <= sigma ^ 2) by (simpl; nra).
  assert (Hp : 0 <= dt * (sigma ^ 2 * INR 1 ^ 2 + r)).
  { apply Rmult_le_pos; [lra|]. change (INR 1) with 1. rewrite pow1. lra. }
  destruct (Nat.leb 2 1) eqn:E1; [discriminate E1|].
  destruct (Nat.ltb 1 (3 - 1 - 1)) eqn:E2; [discriminate E2|]. lra.
Qed.

End FD_total.

Section FD_returns.

Variables (is_call : bool) (s0 sigma ttm r qd : R).
Variables (px_paths time_steps : nat).
Hypothesis Hpaths : (3 <= px_paths)%nat.
Hypothesis Hsteps : (2 <= time_steps)%nat.
Hypothesis Hdom : FD_dominant sigma ttm r qd px_paths time_steps.

Local Abbreviation M := (FD_M px_paths).
Local Abbreviation N := (FD_N time_steps).
Local Abbreviation step_bare := (FD_step_bare sigma ttm r qd px_paths time_steps).
Local Abbreviation FD_inv := (FD_invariant is_call s0 ttm r px_paths time_steps).

Lemma FD_loop_total (k : nat) :
  forall (f : matrix) (Offset : list R),
    FD_inv f -> length Offset = (M - 1)%nat -> (k <= N)%nat ->
    exists st, FD_loop step_bare k (f, Offset) = Ok st.
Proof.
  induction k as [|idx IH]; intros f Offset Hinv HO Hk; [simpl; eauto|].
  cbn [FD_loop].
  destruct (FD_solve_total sigma ttm r qd px_paths time_steps Hpaths Hsteps
              idx f Offset Hdom (proj1 Hinv) HO) as [[f1 Offset1] E].
  unfold FD_step_bare at 1. rewrite E. cbn [bind].
  destruct (FD_step_bare_inv is_call s0 sigma ttm r qd px_paths time_steps
              Hpaths Hsteps idx f f1 Offset Offset1 Hinv HO ltac:(lia) E).
  apply IH; (assumption || lia).
Qed.

(** On row-dominant coefficients the method returns a grid and a price. *)
Lemma FD_grid_total :
  exists f, FD_grid is_call s0 sigma ttm r qd px_paths time_steps = Ok f.
Proof.
  rewrite FD_grid_is_bare by assumption.
  unfold FD_grid_bare, FD_grid_with.
  destruct (FD_loop_total N (FD_init is_call s0 ttm r px_paths time_steps)
              (repeat 0 (M - 1))) as [st E].
  - apply FD_inv_init; assumption.
  - apply repeat_length.
  - lia.
  - fold step_bare. rewrite E. simpl. eauto.
Qed.

End FD_returns.

(** ** The three assignments, one by one *)

Section FD_writes.

Variables (is_call : bool) (s0 ttm r : R).
Variables (px_paths time_steps : nat).
Hypothesis Hpaths : (3 <= px_paths)%nat.
Hypothesis Hsteps : (2 <= time_steps)%nat.
Hypothesis Hside : is_call = true \/ 0 < s0.

Local Abbreviation init := (init_cond is_call s0 px_paths).
Local Abbreviation ub := (upper_bound is_call s0 ttm r px_paths time_steps).
Local Abbreviation lb := (lower_bound is_call s0 ttm r px_paths time_steps).

(** At maturity the boundary values are the terminal payoffs at the two
    ends of the price axis. *)
Lemma upper_bound_at_maturity : nth (time_steps - 1) ub 0 = nth 0 init 0.
Proof.
  unfold upper_bound, init_cond. destruct is_call.
  - rewrite nth_repeat_lt by lia.
    rewrite nth_map_R by (unfold S_vec; rewrite length_linspace; lia).
    unfold S_vec, S_min, FD_K, FD_K2. rewrite nth_0_linspace by lia.
    rewrite Rmax_right by lra. ring.
  - rewrite nth_map_R by (unfold t_vec; rewrite length_linspace; lia).
    rewrite nth_map_R by (unfold S_vec; rewrite length_linspace; lia).
    unfold t_vec. rewrite nth_last_linspace by lia.
    unfold S_first. replace (- r * (ttm - ttm)) with 0 by ring.
    rewrite exp_0. ring.
Qed.

Lemma lower_bound_at_maturity :
  nth (time_steps - 1) lb 0 = nth (px_paths - 1) init 0.
Proof.
  unfold lower_bound, init_cond. destruct is_call.
  - rewrite nth_map_R by (unfold t_vec; rewrite length_linspace; lia).
    rewrite nth_map_R by (unfold S_vec; rewrite length_linspace; lia).
    unfold t_vec. rewrite nth_last_linspace by lia.
    unfold S_last, S_vec.
    rewrite last_linspace, nth_last_linspace by lia.
    replace (- r * (ttm - ttm)) with 0 by ring.
    rewrite exp_0. ring.
  - destruct Hside as [Hc|Hs]; [discriminate|].
    rewrite nth_repeat_lt by lia.
    rewrite nth_map_R by (unfold S_vec; rewrite length_linspace; lia).
    unfold S_vec, S_max, FD_K2. rewrite nth_last_linspace by lia.
    rewrite Rleb_false by lra. simpl. ring.
Qed.

(** On a grid that holds the terminal and boundary values, each of the
    three assignments writes what is there already. *)
Lemma FD_each_write_is_noop (f : matrix) :
  FD_invariant is_call s0 ttm r px_paths time_steps f ->
  set_col f (time_steps - 1) init = f
  /\ set_row f 0 ub = f
  /\ set_row f (px_paths - 1) lb = f.
Proof.
  intros [Hf Hfix].
  pose proof (length_init_cond is_call s0 px_paths) as Li.
  pose proof (length_upper_bound is_call s0 ttm r px_paths time_steps) as Lu.
  pose proof (length_lower_bound is_call s0 ttm r px_paths time_steps) as Ll.
  assert (Hget : forall j i, (j < px_paths)%nat -> (i < time_steps)%nat ->
             get f j i
             = if Nat.eqb j (px_paths - 1) then nth i lb 0
               else if Nat.eqb j 0 then nth i ub 0
               else if Nat.eqb i (time_steps - 1) then nth j init 0
               else get f j i).
  { intros j i Hj Hi. rewrite <- Hfix at 1.
    now apply (get_FD_reapply is_call s0 ttm r px_paths time_steps). }
  repeat split.
  - apply (matrix_ext px_paths time_steps);
      [apply shaped_set_col; assumption|assumption|].
    intros j i Hj Hi.
    rewrite (get_set_col px_paths time_steps) by (assumption || lia).
    destruct (Nat.eqb_spec i (time_steps - 1)) as [->|Hi1]; [|reflexivity].
    rewrite (Hget j (time_steps - 1)%nat) by lia.
    destruct (Nat.eqb_spec j (px_paths - 1)) as [->|Hj1];
      [now rewrite lower_bound_at_maturity|].
    destruct (Nat.eqb_spec j 0) as [->|Hj0];
      [now rewrite upper_bound_at_maturity|].
    now rewrite Nat.eqb_refl.
  - apply (matrix_ext px_paths time_steps);
      [apply shaped_set_row; assumption|assumption|].
    intros j i Hj Hi.
    rewrite (get_set_row px_paths time_steps) by (assumption || lia).
    destruct (Nat.eqb_spec j 0) as [->|Hj0]; [|reflexivity].
    rewrite (Hget 0%nat i) by lia.
    destruct (Nat.eqb_spec 0 (px_paths - 1)); [lia|reflexivity].
  - apply (matrix_ext px_paths time_steps);
      [apply shaped_set_row; assumption|assumption|].
    intros j i Hj Hi.
    rewrite (get_set_row px_paths time_steps) by (assumption || lia).
    destruct (Nat.eqb_spec j (px_paths - 1)) as [->|Hj1]; [|reflexivity].
    rewrite (Hget (px_paths - 1)%nat i) by lia.
    now rewrite Nat.eqb_refl.
Qed.

End FD_writes.

(** The side condition is needed: for a put on a zero underlying price the
    price axis is all zeros, the terminal payoff at the last level is 0.01
    and the lower boundary is 0, so the assignment of the terminal column
    changes the corner of the grid, and the assignment of the lower boundary
    row then restores it. *)
Lemma FD_put_zero_price_corner (ttm r : R) :
  let f := FD_init false 0 ttm r 3 2 in
  get f 2 1 = 0
  /\ get (set_col f 1 (init_cond false 0 3)) 2 1 = 1 / 100
  /\ FD_reapply false 0 ttm r 3 2 f = f.
Proof.
  intros f.
  assert (HP : (3 <= 3)%nat) by lia.
  assert (HT : (2 <= 2)%nat) by lia.
  assert (Hf : shaped 3 2 f) by apply shaped_FD_init.
  split; [reflexivity|]. split.
  - rewrite (get_set_col 3 2) by (assumption || lia || apply length_init_cond).
    unfold init_cond, S_vec, S_max, S_min, FD_K, FD_K2. simpl.
    replace (0 * 2) with 0 by ring.
    rewrite Rleb_true by lra. rewrite Rmax_left by lra. simpl. lra.
  - apply FD_reapply_init; assumption.
Qed.

(** ** The implicit scheme *)

Lemma nth_map_seq_from (g : nat -> R) (s n k : nat) :
  (k < n)%nat -> nth k (map g (seq s n)) 0 = g (s + k)%nat.
Proof.
  intros H. rewrite (nth_indep _ 0 (g 0%nat)) by (now rewrite length_map, length_seq).
  now rewrite (map_nth g), seq_nth.
Qed.

Section FD_scheme.

Variables (is_call : bool) (s0 sigma ttm r qd : R).
Variables (px_paths time_steps : nat).
Hypothesis Hpaths : (3 <= px_paths)%nat.
Hypothesis Hsteps : (2 <= time_steps)%nat.
Variable f : matrix.
Hypothesis Hgrid : FD_grid is_call s0 sigma ttm r qd px_paths time_steps = Ok f.

Local Abbreviation M := (FD_M px_paths).
Local Abbreviation N := (FD_N time_steps).
Local Abbreviation B := (FD_B sigma ttm r qd px_paths time_steps).
Local Abbreviation a_ := (a_coef sigma ttm r qd time_steps).
Local Abbreviation b_ := (b_coef sigma ttm r time_steps).
Local Abbreviation c_ := (c_coef sigma ttm r qd time_steps).
Local Abbreviation offset := (FD_Offset sigma ttm r qd px_paths time_steps).

(** The final grid: the invariant, the initial values where the loop does
    not write, and the linear system of every turn. *)
Lemma FD_grid_spec :
  FD_invariant is_call s0 ttm r px_paths time_steps f
  /\ (forall j i, (j < px_paths)%nat -> (i < time_steps)%nat ->
        (N <= i)%nat \/ j = 0%nat \/ j = M ->
        get f j i = get (FD_init is_call s0 ttm r px_paths time_steps) j i)
  /\ (forall idx, (idx < N)%nat ->
        tri_mul B (slice (col f idx) 1 M)
        = map2 Rplus (slice (col f (idx + 1)) 1 M)
                     (offset f idx (repeat 0 (M - 1)))).
Proof.
  pose proof Hgrid as H. rewrite FD_grid_is_bare in H by assumption.
  unfold FD_grid_bare, FD_grid_with in H.
  destruct (FD_loop _ _ _) as [[f' Offset']|e] eqn:E; [|discriminate].
  simpl in H. injection H as ->.
  apply (FD_loop_bare_spec is_call s0 sigma ttm r qd px_paths time_steps
           Hpaths Hsteps N _ f _ Offset'
           (FD_inv_init is_call s0 ttm r px_paths time_steps Hpaths Hsteps)
           (repeat_length 0 (M - 1))
           (mid_zero_zeros (M - 1)) (Nat.le_refl N) E).
Qed.

Lemma nth_a_list_1 : nth 1 (a_list sigma ttm r qd px_paths time_steps) 0 = a_ 1.
Proof.
  unfold a_list, j_list. rewrite nth_map_seq_from by (unfold FD_M; lia).
  reflexivity.
Qed.

Lemma nth_c_list_last :
  nth (M - 1) (c_list sigma ttm r qd px_paths time_steps) 0 = c_ (M - 1).
Proof.
  unfold c_list, j_list. rewrite nth_map_seq_from by (unfold FD_M; lia).
  reflexivity.
Qed.

(** The array [Offset] of turn [idx], entry by entry. *)
Lemma FD_Offset_entries (idx : nat) :
  let Offset := offset f idx (repeat 0 (M - 1)) in
  length Offset = (M - 1)%nat
  /\ nth (M - 2) Offset 0 = - c_ (M - 1) * get f M idx
  /\ ((3 <= M)%nat -> nth 0 Offset 0 = - a_ 1 * get f 0 idx)
  /\ (forall i, (0 < i < M - 2)%nat -> nth i Offset 0 = 0).
Proof.
  intros Offset. unfold Offset.
  assert (HM : (2 <= M)%nat) by (unfold FD_M; lia).
  split; [now rewrite length_FD_Offset, repeat_length|].
  split; [|split].
  - rewrite nth_FD_Offset
      by (rewrite ?repeat_length; lia).
    now rewrite Nat.eqb_refl, nth_c_list_last.
  - intros H3.
    rewrite nth_FD_Offset
      by (rewrite ?repeat_length; lia).
    destruct (Nat.eqb_spec 0 (M - 2)); [lia|]. simpl.
    now rewrite nth_a_list_1.
  - intros i Hi.
    rewrite nth_FD_Offset
      by (rewrite ?repeat_length; lia).
    destruct (Nat.eqb_spec i (M - 2)); [lia|].
    destruct (Nat.eqb_spec i 0); [lia|].
    apply nth_repeat_lt. lia.
Qed.

(** The scheme, entry by entry, when there are at least two interior price
    levels: at every interior level [j] of every solved column,
    [a_j*f[j-1,idx] + b_j*f[j,idx] + c_j*f[j+1,idx] = f[j,idx+1]]. *)
Lemma FD_scheme_entries (idx j : nat) :
  (3 <= M)%nat -> (idx < N)%nat -> (1 <= j < M)%nat ->
  a_ j * get f (j - 1) idx + b_ j * get f j idx + c_ j * get f (j + 1) idx
  = get f j (idx + 1).
Proof.
  intros H3 Hidx Hj.
  destruct FD_grid_spec as ([Hf _] & _ & Hsys).
  destruct (FD_Offset_entries idx) as (LO & Olast & Ofirst & Omid).
  specialize (Ofirst H3). cbv zeta in LO, Olast, Ofirst, Omid.
  assert (HB : main B = map b_ (seq 1 (M - 1))
               /\ lower B = map a_ (seq 2 (M - 2))
               /\ upper B = map c_ (seq 1 (M - 2)))
    by (apply FD_B_diagonals; assumption).
  destruct HB as (Em & El & Eu).
  pose proof (Hsys idx Hidx) as E.
  assert (Lx : length (slice (col f idx) 1 M) = (M - 1)%nat)
    by (apply (length_interior px_paths time_steps); assumption).
  assert (Lx1 : length (slice (col f (idx + 1)) 1 M) = (M - 1)%nat)
    by (apply (length_interior px_paths time_steps); assumption).
  assert (HX : forall k, (k < M - 1)%nat ->
             nth k (slice (col f idx) 1 M) 0 = get f (S k) idx)
    by (intros; apply (nth_interior px_paths time_steps); assumption).
  assert (HX1 : forall k, (k < M - 1)%nat ->
              nth k (slice (col f (idx + 1)) 1 M) 0 = get f (S k) (idx + 1))
    by (intros; apply (nth_interior px_paths time_steps); assumption).
  destruct j as [|k]; [lia|].
  replace (S k - 1)%nat with k by lia.
  replace (S k + 1)%nat with (S (S k)) by lia.
  apply (f_equal (fun l => nth k l 0)) in E.
  rewrite nth_tri_mul in E
    by (rewrite ?Em, ?length_map, ?length_seq, ?Lx; lia).
  rewrite (nth_map2 _ _ _ _ 0 0) in E by (rewrite ?Lx1, ?LO; lia).
  unfold tri_row in E. rewrite Em, El, Eu in E.
  rewrite (HX1 k), (HX k) in E by lia.
  rewrite (nth_map_seq_from b_) in E by lia.
  change (1 + k)%nat with (S k) in E.
  destruct k as [|k'].
  - (* the first interior level *)
    rewrite (nth_map_seq_from c_), (HX 1%nat) in E by lia.
    rewrite Ofirst in E. change (1 + 0)%nat with 1%nat in E. lra.
  - rewrite (nth_map_seq_from a_), (HX k') in E by lia.
    change (2 + k')%nat with (S (S k')) in E.
    destruct (Nat.eq_dec (S k') (M - 2)) as [HkM|HkM].
    + (* the last interior level *)
      rewrite (nth_overflow (map c_ _)) in E
        by (rewrite length_map, length_seq; lia).
      rewrite HkM, Olast in E.
      replace (S (S (S k'))) with M by lia.
      rewrite HkM. replace (M - 1)%nat with (S (M - 2)) in E by lia. lra.
    + rewrite (nth_map_seq_from c_), (HX (S (S k'))) in E by lia.
      rewrite Omid in E by lia.
      change (1 + S k')%nat with (S (S k')) in E. lra.
Qed.

(** With a single interior price level [Offset] has one entry, which the
    second assignment fills: the equation of a turn is
    [b_1*f[1,idx] + c_1*f[2,idx] = f[1,idx+1]]. *)
Lemma FD_scheme_single (idx : nat) :
  M = 2%nat -> (idx < N)%nat ->
  b_ 1 * get f 1 idx + c_ 1 * get f 2 idx = get f 1 (idx + 1).
Proof.
  intros H2 Hidx.
  destruct FD_grid_spec as ([Hf _] & _ & Hsys).
  destruct (FD_Offset_entries idx) as (LO & Olast & _ & _).
  cbv zeta in LO, Olast.
  assert (HB : main B = map b_ (seq 1 (M - 1))
               /\ lower B = map a_ (seq 2 (M - 2))
               /\ upper B = map c_ (seq 1 (M - 2)))
    by (apply FD_B_diagonals; assumption).
  destruct HB as (Em & El & Eu).
  pose proof (Hsys idx Hidx) as E.
  assert (Lx : length (slice (col f idx) 1 M) = (M - 1)%nat)
    by (apply (length_interior px_paths time_steps); assumption).
  assert (Lx1 : length (slice (col f (idx + 1)) 1 M) = (M - 1)%nat)
    by (apply (length_interior px_paths time_steps); assumption).
  assert (HX : forall k, (k < M - 1)%nat ->
             nth k (slice (col f idx) 1 M) 0 = get f (S k) idx)
    by (intros; apply (nth_interior px_paths time_steps); assumption).
  assert (HX1 : forall k, (k < M - 1)%nat ->
              nth k (slice (col f (idx + 1)) 1 M) 0 = get f (S k) (idx + 1))
    by (intros; apply (nth_interior px_paths time_steps); assumption).
  apply (f_equal (fun l => nth 0 l 0)) in E.
  rewrite nth_tri_mul in E
    by (rewrite ?Em, ?length_map, ?length_seq, ?Lx; lia).
  rewrite (nth_map2 _ _ _ _ 0 0) in E by (rewrite ?Lx1, ?LO; lia).
  unfold tri_row in E. rewrite Em, Eu in E.
  rewrite (HX1 0%nat), (HX 0%nat) in E by lia.
  rewrite (nth_map_seq_from b_) in E by lia.
  rewrite (nth_overflow (map c_ _)) in E by (rewrite length_map, length_seq; lia).
  rewrite H2 in E, Olast. simpl Nat.sub in E, Olast. rewrite Olast in E.
  simpl Nat.add in E. lra.
Qed.

(** The terminal column and the two boundary rows of the final grid. *)
Lemma FD_grid_boundary (j i : nat) :
  (j < px_paths)%nat -> (i < time_steps)%nat ->
  (j = 0%nat -> get f j i
                = nth i (upper_bound is_call s0 ttm r px_paths time_steps) 0)
  /\ (j = M -> get f j i
               = nth i (lower_bound is_call s0 ttm r px_paths time_steps) 0)
  /\ ((0 < j < M)%nat -> i = N ->
      get f j i = nth j (init_cond is_call s0 px_paths) 0).
Proof.
  intros Hj Hi. destruct FD_grid_spec as ([Hf Hfix] & _ & _).
  rewrite <- Hfix.
  rewrite (get_FD_reapply is_call s0 ttm r px_paths time_steps) by assumption.
  unfold FD_M, FD_N.
  repeat split.
  - intros ->. destruct (Nat.eqb_spec 0 (px_paths - 1)); [lia|reflexivity].
  - intros ->. now rewrite Nat.eqb_refl.
  - intros Hj' ->. destruct (Nat.eqb_spec j (px_paths - 1)); [lia|].
    destruct (Nat.eqb_spec j 0); [lia|]. now rewrite Nat.eqb_refl.
Qed.

End FD_scheme.

(** The boundary rows of a call. *)
Lemma nth_upper_bound_call (s0 ttm r : R) (px_paths time_steps i : nat) :
  nth i (upper_bound true s0 ttm r px_paths time_steps) 0 = 0.
Proof.
  unfold upper_bound. destruct (Nat.lt_ge_cases i time_steps).
  - now apply nth_repeat_lt.
  - apply nth_overflow. now rewrite repeat_length.
Qed.

Lemma nth_lower_bound_call (s0 ttm r : R) (px_paths time_steps i : nat) :
  (2 <= px_paths)%nat -> (i < time_steps)%nat -> 0 <= s0 ->
  nth i (lower_bound true s0 ttm r px_paths time_steps) 0
  = Rmax (s0 * 2 - 1 / 100) 0 * exp (- r * (ttm - nth i (t_vec ttm time_steps) 0)).
Proof.
  intros HP Hi Hs. unfold lower_bound.
  rewrite nth_map_R by (unfold t_vec; now rewrite length_linspace).
  unfold S_last, S_vec, S_max, FD_K, FD_K2.
  rewrite last_linspace by assumption.
  rewrite Rleb_true by lra. simpl. ring.
Qed.

(** C5, as the code has it.  For every input with [npaths >= 3] and
    [nsteps >= 2]: [_calc_FD] computes a grid whenever the coefficients are
    row dominant, which they are for [r >= 0], [T > 0] and [|r - q| <= vol^2];
    and for every grid [f] that it computes, the tridiagonal matrix [B] over
    the interior price indices [1..M-1] has the diagonals [b_1..b_(M-1)],
    [a_2..a_(M-1)] and [c_1..c_(M-2)] of the coefficients
    [a_j = 0.5*dt*((r-q)*j - vol^2*j^2)], [b_j = 1 + dt*(vol^2*j^2 + r)],
    [c_j = 0.5*dt*(-(r-q)*j - vol^2*j^2)] and is the same at every turn; when
    there are at least two interior price levels ([M >= 3]) the interior of
    column [idx] of the final grid solves
    [B . x = f[1:M,idx+1] + Offset] with [Offset[0] = -a_1*f[0,idx]],
    [Offset[-1] = -c_(M-1)*f[M,idx]] and zeros between; entry by entry, for
    [M >= 3] and, for a call, for [M = 2] too,
    [a_j*f[j-1,idx] + b_j*f[j,idx] + c_j*f[j+1,idx] = f[j,idx+1]]; and the
    price is the linear interpolation of column 0 at [S0]. *)
Theorem C5_implicit_scheme (is_call : bool) (s0 sigma ttm r qd : R)
  (px_paths time_steps : nat) :
  (3 <= px_paths)%nat -> (2 <= time_steps)%nat ->
  let M := FD_M px_paths in
  let N := FD_N time_steps in
  let B := FD_B sigma ttm r qd px_paths time_steps in
  let dt := ttm / INR (time_steps - 1) in
  let a_ := fun j => 0.5 * dt * ((r - qd) * INR j - sigma ^ 2 * INR j ^ 2) in
  let b_ := fun j => 1 + dt * (sigma ^ 2 * INR j ^ 2 + r) in
  let c_ := fun j => 0.5 * dt * (- (r - qd) * INR j - sigma ^ 2 * INR j ^ 2) in
  (0 <= r -> 0 < ttm -> Rabs (r - qd) <= sigma ^ 2 ->
   exists f, FD_grid is_call s0 sigma ttm r qd px_paths time_steps = Ok f)
  /\
  forall f, FD_grid is_call s0 sigma ttm r qd px_paths time_steps = Ok f ->
    (main B = map b_ (seq 1 (M - 1))
     /\ lower B = map a_ (seq 2 (M - 2))
     /\ upper B = map c_ (seq 1 (M - 2)))
    /\ ((3 <= M)%nat ->
        forall idx, (idx < N)%nat ->
        exists Offset,
          length Offset = (M - 1)%nat
          /\ nth 0 Offset 0 = - a_ 1%nat * get f 0 idx
          /\ nth (M - 2) Offset 0 = - c_ (M - 1)%nat * get f M idx
          /\ (forall i, (0 < i < M - 2)%nat -> nth i Offset 0 = 0)
          /\ tri_mul B (slice (col f idx) 1 M)
             = map2 Rplus (slice (col f (idx + 1)) 1 M) Offset)
    /\ ((3 <= M)%nat \/ is_call = true ->
        forall idx j, (idx < N)%nat -> (1 <= j < M)%nat ->
        a_ j * get f (j - 1) idx + b_ j * get f j idx + c_ j * get f (j + 1) idx
        = get f j (idx + 1))
    /\ FD_price is_call s0 sigma ttm r qd px_paths time_steps
       = Ok (interp s0 (S_vec s0 px_paths) (col f 0)).
Proof.
  intros HP HT M N B dt a_ b_ c_. split.
  { intros Hr Ht Hdrift. apply FD_grid_total; try assumption.
    now apply FD_dominant_drift. }
  intros f Hgrid.
  split; [|split; [|split]].
  - apply (FD_B_diagonals sigma ttm r qd px_paths time_steps HP HT).
  - intros H3 idx Hidx.
    destruct (FD_grid_spec is_call s0 sigma ttm r qd px_paths time_steps HP HT f Hgrid)
      as (_ & _ & Hsys).
    destruct (FD_Offset_entries sigma ttm r qd px_paths time_steps HP HT f idx)
      as (LO & Olast & Ofirst & Omid).
    eexists. split; [exact LO|]. split; [exact (Ofirst H3)|].
    split; [exact Olast|]. split; [exact Omid|]. apply Hsys. exact Hidx.
  - intros Hcase idx j Hidx Hj.
    destruct (Nat.le_gt_cases 3 M) as [H3|H2].
    + apply (FD_scheme_entries is_call s0 sigma ttm r qd px_paths time_steps
               HP HT f Hgrid idx j H3 Hidx Hj).
    + destruct Hcase as [H3|Hcall]; [lia|]. subst is_call.
      assert (EM : M = 2%nat) by (unfold M, FD_M in *; lia).
      assert (j = 1%nat) by lia. subst j.
      pose proof (FD_scheme_single true s0 sigma ttm r qd px_paths time_steps
                    HP HT f Hgrid idx EM Hidx) as E.
      destruct (FD_grid_boundary true s0 sigma ttm r qd px_paths time_steps
                  HP HT f Hgrid 0 idx ltac:(lia) ltac:(unfold N, FD_N in *; lia))
        as (H0 & _ & _).
      simpl Nat.sub. rewrite (H0 eq_refl), nth_upper_bound_call.
      unfold a_coef, b_coef, c_coef, d_t in E. fold dt in E.
      simpl Nat.add. unfold a_, b_, c_. lra.
  - unfold FD_price. now rewrite Hgrid.
Qed.

Lemma C5_implicit_scheme_witness :
  exists f,
    FD_grid true 5 0.4 4 0.1 0 10 4 = Ok f
    /\ FD_price true 5 0.4 4 0.1 0 10 4 = Ok (interp 5 (S_vec 5 10) (col f 0)).
Proof.
  assert (HP : (3 <= 10)%nat) by lia.
  assert (HT : (2 <= 4)%nat) by lia.
  destruct (C5_implicit_scheme true 5 0.4 4 0.1 0 10 4 HP HT) as [Hret Hspec].
  destruct Hret as [f Hf].
  - lra.
  - lra.
  - rewrite Rabs_pos_eq; simpl; lra.
  - exists f. split; [exact Hf|]. apply (Hspec f Hf).
Defined.

Lemma C5_implicit_scheme_counterexample :
  let f := FD_init true 1 12 0 3 2 in
  let Offset := FD_Offset 0.1 12 0 0.1 3 2 f 0 (repeat 0 (FD_M 3 - 1)) in
  FD_solve 0.1 12 0 0.1 3 2 0 (f, repeat 0 (FD_M 3 - 1))
  = Ok (set_col_slice f 1 (FD_M 3) 0
          [(get f 1 1 + nth 0 Offset 0) / b_coef 0.1 12 0 2 1], Offset)
  /\ nth 0 Offset 0 <> - nth 1 (a_list 0.1 12 0 0.1 3 2) 0 * get f 0 0.
Proof.
  intros f Offset.
  assert (HP : (3 <= 3)%nat) by lia.
  assert (HT : (2 <= 2)%nat) by lia.
  assert (Hf : shaped 3 2 f) by apply shaped_FD_init.
  assert (Hb : b_coef 0.1 12 0 2 1 <> 0).
  { unfold b_coef, d_t. simpl. lra. }
  assert (E0 : get f 0 0 = 0).
  { unfold f. rewrite FD_init_reapply.
    rewrite (get_FD_reapply true 1 12 0 3 2 HP HT)
      by first [lia | apply shaped_set_col; [apply shaped_zeros|apply length_S_vec]].
    simpl Nat.eqb. cbv iota. apply nth_upper_bound_call. }
  assert (E2 : get f 2 0 = 1.99).
  { unfold f. rewrite FD_init_reapply.
    rewrite (get_FD_reapply true 1 12 0 3 2 HP HT)
      by first [lia | apply shaped_set_col; [apply shaped_zeros|apply length_S_vec]].
    simpl Nat.eqb. cbv iota. rewrite nth_lower_bound_call by (lia || lra).
    replace (- 0 * (12 - nth 0 (t_vec 12 2) 0)) with 0 by ring.
    rewrite exp_0, Rmax_left by lra. lra. }
  assert (EO : nth 0 Offset 0 = - 0.54 * 1.99).
  { unfold Offset.
    rewrite (nth_FD_Offset 0.1 12 0 0.1 3 2 HP HT) by (rewrite ?repeat_length; simpl; lia).
    change (FD_M 3) with 2%nat. simpl Nat.sub. simpl Nat.eqb. cbv iota. rewrite E2.
    unfold c_list, j_list, c_coef, d_t. simpl. lra. }
  split.
  - unfold FD_solve. fold Offset. unfold spsolve, FD_B. cbn [main lower upper].
    unfold b_list, a_list, c_list, j_list, slice. simpl.
    fold (b_coef 0.1 12 0 2 1).
    unfold Reqb. destruct (Req_dec_T (b_coef 0.1 12 0 2 1) 0); [contradiction|].
    reflexivity.
  - rewrite EO, E0. lra.
Qed.

(** ** The re-assignments inside the loop *)

Lemma FD_shape_Ok (px_paths time_steps : Z) (P Tn : nat) :
  FD_shape px_paths time_steps = Ok (P, Tn) -> (3 <= P)%nat /\ (2 <= Tn)%nat.
Proof.
  unfold FD_shape.
  destruct (Z.eqb_spec (px_paths - 1) 0); [discriminate|].
  destruct (Z.eqb_spec (time_steps - 1) 0); [discriminate|].
  destruct (Z.ltb_spec px_paths 0); [discriminate|].
  destruct (Z.ltb_spec time_steps 0); [discriminate|].
  destruct (Z.eqb_spec time_steps 0); [discriminate|].
  destruct (Z.eqb_spec px_paths 0); [discriminate|].
  destruct (Z.eqb_spec px_paths 2); [discriminate|].
  intros Heq; injection Heq as <- <-. lia.
Qed.

Lemma FD_shape_not_assertion (px_paths time_steps : Z) (e : exn) :
  FD_shape px_paths time_steps = Raise e -> forall msg, e <> AssertionError msg.
Proof.
  unfold FD_shape.
  repeat match goal with
         | |- context [if ?c then _ else _] => destruct c
         end; intros H; try discriminate H;
    injection H as <-; intros msg; discriminate.
Qed.

Lemma FD_loop_raises (step : nat -> matrix * list R -> result (matrix * list R))
  (k : nat) (st : matrix * list R) (e : exn) :
  (forall idx st' e', step idx st' = Raise e' -> e' = SingularMatrix) ->
  FD_loop step k st = Raise e -> e = SingularMatrix.
Proof.
  intros Hstep. revert st; induction k as [|idx IH]; intros st; simpl;
    [discriminate|].
  destruct (step idx st) as [st'|e'] eqn:E; simpl.
  - apply IH.
  - intros H; injection H as <-. now apply (Hstep idx st).
Qed.

Lemma FD_solve_raises sigma ttm r qd px_paths time_steps idx st e :
  FD_solve sigma ttm r qd px_paths time_steps idx st = Raise e -> e = SingularMatrix.
Proof.
  unfold FD_solve. destruct st as [f Offset]. destruct (spsolve _ _); [discriminate|].
  now intros H; injection H as <-.
Qed.

Lemma FD_price_raises is_call s0 sigma ttm r qd px_paths time_steps e :
  FD_price is_call s0 sigma ttm r qd px_paths time_steps = Raise e ->
  e = SingularMatrix.
Proof.
  unfold FD_price, FD_grid, FD_grid_with.
  destruct (FD_loop _ _ _) as [st|e'] eqn:E; simpl; [discriminate|].
  intros H; injection H as <-.
  apply (FD_loop_raises _ _ _ _) in E; [assumption|].
  intros idx st' e'' H. unfold FD_step in H.
  destruct (FD_solve _ _ _ _ _ _ _ _) eqn:E'; simpl in H; [discriminate|].
  injection H as <-. now apply FD_solve_raises in E'.
Qed.

(** C8, as the code has it.  Inside the backward time loop of [_calc_FD]
    the re-assignment of the terminal column and of the two boundary rows,
    taken together, leaves the grid as it is: the grid before the loop, the
    grid after the solve of every turn and every grid that the loop reaches
    are fixed by the three assignments, so the loop without them computes
    the same grid, and [_calc_FD] without them returns the same result, for
    every object.  That every entry written already holds its value is true
    of each of the three assignments on its own for a call and for a put on
    a positive underlying price; for a put on a zero underlying price the
    assignment of the terminal column writes 0.01 over the 0 at the last
    price level and the assignment of the lower boundary row restores it. *)
Theorem C8_reassignment_is_noop (self : OptionValuation) :
  LowExercisePrice_calc_FD self = LowExercisePrice_calc_FD_bare self
  /\ (forall is_call s0 sigma ttm r qd px_paths time_steps,
        (3 <= px_paths)%nat -> (2 <= time_steps)%nat ->
        let reapply := FD_reapply is_call s0 ttm r px_paths time_steps in
        let grid0 := FD_init is_call s0 ttm r px_paths time_steps in
        let Offset0 := repeat 0 (FD_M px_paths - 1) in
        reapply grid0 = grid0
        /\ (forall k f Offset,
              (k <= FD_N time_steps)%nat ->
              FD_loop (FD_step is_call s0 sigma ttm r qd px_paths time_steps) k
                (grid0, Offset0) = Ok (f, Offset) ->
              reapply f = f
              /\ forall idx f' Offset',
                   (idx < FD_N time_steps)%nat ->
                   FD_solve sigma ttm r qd px_paths time_steps idx (f, Offset)
                   = Ok (f', Offset') ->
                   reapply f' = f'
                   /\ (is_call = true \/ 0 < s0 ->
                       set_col f' (time_steps - 1) (init_cond is_call s0 px_paths) = f'
                       /\ set_row f' 0
                            (upper_bound is_call s0 ttm r px_paths time_steps) = f'
                       /\ set_row f' (px_paths - 1)
                            (lower_bound is_call s0 ttm r px_paths time_steps) = f'))
        /\ FD_grid is_call s0 sigma ttm r qd px_paths time_steps
           = FD_grid_bare is_call s0 sigma ttm r qd px_paths time_steps
        /\ FD_price is_call s0 sigma ttm r qd px_paths time_steps
           = FD_price_bare is_call s0 sigma ttm r qd px_paths time_steps).
Proof.
  split.
  - unfold LowExercisePrice_calc_FD, LowExercisePrice_calc_FD_bare,
      LowExercisePrice_calc_FD_with.
    do 6 (destruct (py_assert _ _); [cbn [bind]|reflexivity]).
    destruct (FD_shape _ _) as [[P Tn]|e] eqn:Es; [cbn [bind fst snd]|reflexivity].
    destruct (FD_shape_Ok _ _ _ _ Es) as [HP HT].
    now rewrite FD_price_is_bare by assumption.
  - intros is_call s0 sigma ttm r qd px_paths time_steps HP HT reapply grid0 Offset0.
    pose proof (FD_inv_init is_call s0 ttm r px_paths time_steps HP HT) as Hinit.
    split; [apply Hinit|]. split; [|split].
    + intros k f Offset Hk Hloop.
      unfold grid0, Offset0 in Hloop.
      rewrite (FD_loop_is_bare is_call s0 sigma ttm r qd px_paths time_steps HP HT)
        in Hloop by (assumption || apply repeat_length).
      destruct (FD_loop_bare_spec is_call s0 sigma ttm r qd px_paths time_steps
                  HP HT k _ f _ Offset Hinit (repeat_length 0 _)
                  (mid_zero_zeros _) Hk Hloop) as (Hinv & _ & _).
      split; [apply Hinv|].
      intros idx f' Offset' Hidx Hsolve.
      assert (HO : length Offset = (FD_M px_paths - 1)%nat).
      { clear Hsolve. revert Hloop. generalize (repeat_length 0 (FD_M px_paths - 1)).
        generalize (repeat 0 (FD_M px_paths - 1)). generalize Hinit.
        generalize (FD_init is_call s0 ttm r px_paths time_steps).
        induction k as [|i IH]; intros g Hg Off0 HO0.
        - simpl. now intros H; injection H as <- <-.
        - cbn [FD_loop].
          destruct (FD_step_bare _ _ _ _ _ _ i (g, Off0)) as [[g1 Off1]|e] eqn:E;
            [|discriminate].
          cbn [bind].
          destruct (FD_step_bare_inv is_call s0 sigma ttm r qd px_paths time_steps
                      HP HT i g g1 Off0 Off1 Hg HO0 ltac:(lia) E) as [Hg1 HO1].
          apply IH; (assumption || lia). }
      destruct (FD_step_bare_inv is_call s0 sigma ttm r qd px_paths time_steps
                  HP HT idx f f' Offset Offset' Hinv HO Hidx Hsolve) as [Hinv' _].
      split; [apply Hinv'|].
      intros Hside.
      apply (FD_each_write_is_noop is_call s0 ttm r px_paths time_steps
               HP HT Hside f' Hinv').
    + now apply FD_grid_is_bare.
    + now apply FD_price_is_bare.
Qed.

Lemma C8_reassignment_is_noop_witness :
  let self :=
    {| ref := {| S0 := 5; vol := 0.3; q := 0 |};
       right := "call"; K := 1 / 100; T := 4; rf_r := 0.1;
       px_spec := new_PriceSpec FD (Some 4%Z) (Some 10%Z) false |} in
  LowExercisePrice_calc_FD self = LowExercisePrice_calc_FD_bare self.
Proof.
  intros self. exact (proj1 (C8_reassignment_is_noop self)).
Defined.

(** ** The assertions of [_calc_FD] *)

Lemma py_assert_true (msg : string) (k : unit -> result OptionValuation) :
  bind (py_assert true msg) k = k tt.
Proof. reflexivity. Qed.

Lemma right_eqb_spec (self : OptionValuation) :
  (String.eqb (right self) "call" || String.eqb (right self) "put")%bool = true
  <-> right self = "call"%string \/ right self = "put"%string.
Proof.
  rewrite Bool.orb_true_iff, !String.eqb_eq. reflexivity.
Qed.

(** When the six assertions pass, whatever [_calc_FD] raises is not an
    assertion error. *)
Lemma LowExercisePrice_calc_FD_passed (self : OptionValuation) :
  FD_preconditions self ->
  LowExercisePrice_calc_FD self
  = (shape <- FD_shape (getattr (npaths (px_spec self)) 3%Z)
                       (getattr (nsteps (px_spec self)) 3%Z) ;;
     out <- FD_price (String.eqb (right self) "call") (S0 (ref self))
              (vol (ref self)) (T self) (rf_r self) (q (ref self))
              (fst shape) (snd shape) ;;
     Ok (set_px_spec self (add_FD (px_spec self) out "Implicit Method"))).
Proof.
  intros (Hr & Hv & HK & HT & HS & Hrf).
  unfold LowExercisePrice_calc_FD, LowExercisePrice_calc_FD_with.
  rewrite (proj2 (right_eqb_spec self) Hr).
  rewrite !Rltb_true, !Rleb_true by assumption. reflexivity.
Qed.

Lemma LowExercisePrice_calc_FD_failed (self : OptionValuation) :
  ~ FD_preconditions self -> is_AssertionError (LowExercisePrice_calc_FD self).
Proof.
  intros Hnot.
  unfold LowExercisePrice_calc_FD, LowExercisePrice_calc_FD_with, is_AssertionError.
  destruct (String.eqb (right self) "call" || String.eqb (right self) "put")%bool
    eqn:Er; [|simpl; eauto].
  apply right_eqb_spec in Er. cbn [py_assert bind].
  unfold Rltb, Rleb.
  destruct (Rlt_dec 0 (vol (ref self))); [|simpl; eauto]. cbn [py_assert bind].
  destruct (Rlt_dec 0 (K self)); [|simpl; eauto]. cbn [py_assert bind].
  destruct (Rlt_dec 0 (T self)); [|simpl; eauto]. cbn [py_assert bind].
  destruct (Rle_dec 0 (S0 (ref self))); [|simpl; eauto]. cbn [py_assert bind].
  destruct (Rle_dec 0 (rf_r self)); [|simpl; eauto].
  exfalso. apply Hnot. repeat split; assumption.
Qed.

(** A put on a zero underlying price: the assignment of the terminal column
    changes the grid that the solve has left, and [_calc_FD] returns. *)
Lemma C8_reassignment_is_noop_counterexample :
  let self :=
    {| ref := {| S0 := 0; vol := 0.3; q := 0 |};
       right := "put"; K := 1; T := 1; rf_r := 0;
       px_spec := new_PriceSpec FD (Some 2%Z) (Some 3%Z) false |} in
  let f0 := FD_init false 0 1 0 3 2 in
  exists f' Offset' v,
    FD_solve 0.3 1 0 0 3 2 0 (f0, repeat 0 (FD_M 3 - 1)) = Ok (f', Offset')
    /\ get f' 2 1 = 0
    /\ get (set_col f' 1 (init_cond false 0 3)) 2 1 = 1 / 100
    /\ set_col f' 1 (init_cond false 0 3) <> f'
    /\ LowExercisePrice_calc_FD self
       = Ok (set_px_spec self (add_FD (px_spec self) v "Implicit Method")).
Proof.
  intros self f0.
  assert (HP : (3 <= 3)%nat) by lia.
  assert (HT : (2 <= 2)%nat) by lia.
  assert (Hdom : FD_dominant 0.3 1 0 0 3 2)
    by (apply FD_dominant_single; try lia; try lra; reflexivity).
  pose proof (FD_inv_init false 0 1 0 3 2 HP HT) as Hinit. fold f0 in Hinit.
  destruct (FD_solve_total 0.3 1 0 0 3 2 HP HT 0 f0 (repeat 0 (FD_M 3 - 1))
              Hdom (proj1 Hinit) (repeat_length _ _)) as [[f' Offset'] Hs].
  destruct (FD_step_bare_inv false 0 0.3 1 0 0 3 2 HP HT 0 f0 f' _ Offset'
              Hinit (repeat_length _ _) ltac:(unfold FD_N; lia) Hs)
    as [[Hsh Hfix] _].
  destruct (FD_grid_total false 0 0.3 1 0 0 3 2 HP HT Hdom) as [f Hf].
  assert (E0 : get f' 2 1 = 0).
  { rewrite <- Hfix.
    rewrite (get_FD_reapply false 0 1 0 3 2 HP HT) by (assumption || lia).
    reflexivity. }
  assert (E1 : get (set_col f' 1 (init_cond false 0 3)) 2 1 = 1 / 100).
  { rewrite (get_set_col 3 2) by (assumption || lia || apply length_init_cond).
    unfold init_cond, S_vec, S_max, S_min, FD_K, FD_K2. simpl.
    replace (0 * 2) with 0 by ring.
    rewrite Rleb_true by lra. rewrite Rmax_left by lra. simpl. lra. }
  exists f', Offset', (FD_price_of 0 3 f).
  split; [exact Hs|]. split; [exact E0|]. split; [exact E1|]. split.
  - intros E. rewrite E in E1. lra.
  - rewrite LowExercisePrice_calc_FD_passed
      by (unfold FD_preconditions; simpl; repeat split; (lra || auto)).
    change (FD_shape (getattr (npaths (px_spec self)) 3%Z)
              (getattr (nsteps (px_spec self)) 3%Z))
      with (Ok (3%nat, 2%nat) : result (nat * nat)).
    cbn [bind fst snd].
    change (FD_price _ _ _ _ _ _ _ _) with (FD_price false 0 0.3 1 0 0 3 2).
    unfold FD_price. rewrite Hf. reflexivity.
Qed.

Lemma FD_violation_iff (self : OptionValuation) :
  FD_violation self <-> ~ FD_preconditions self.
Proof.
  unfold FD_violation, FD_preconditions. split.
  - intros Hv (Hr & Hvol & HK & HT & HS & Hrf).
    destruct Hv as [[H1 H2]|[H|[H|[H|[H|H]]]]]; try lra.
    destruct Hr; contradiction.
  - intros Hnot.
    destruct (string_dec (right self) "call") as [Hc|Hc];
      [|destruct (string_dec (right self) "put") as [Hp|Hp]; [|now left]];
      right;
      (destruct (Rlt_dec 0 (vol (ref self))); [|left; lra]); right;
      (destruct (Rlt_dec 0 (K self)); [|left; lra]); right;
      (destruct (Rlt_dec 0 (T self)); [|left; lra]); right;
      (destruct (Rle_dec 0 (S0 (ref self))); [|left; lra]); right;
      (destruct (Rle_dec 0 (rf_r self)); [|lra]);
      exfalso; apply Hnot; repeat split; auto.
Qed.

(** C6, as the code has it.  [_calc_FD] fails with an assertion error, at
    its first statements and with no result, exactly when one of the six
    asserted preconditions is violated: the right is neither call nor put,
    the volatility, the strike or the maturity is not strictly positive, the
    underlying price or the rate is negative.  The step and path counts are
    not asserted: when the six preconditions hold, counts that give no grid
    ([npaths < 3] or [nsteps < 2]) make the call fail with another
    exception. *)
Theorem C6_assertions (self : OptionValuation) :
  (is_AssertionError (LowExercisePrice_calc_FD self) <-> FD_violation self)
  /\ (FD_preconditions self ->
      (getattr (npaths (px_spec self)) 3 < 3)%Z
      \/ (getattr (nsteps (px_spec self)) 3 < 2)%Z ->
      exists e, LowExercisePrice_calc_FD self = Raise e
                /\ forall msg, e <> AssertionError msg).
Proof.
  split; [rewrite FD_violation_iff; split|].
  - intros [msg Hmsg] Hpre.
    rewrite (LowExercisePrice_calc_FD_passed self Hpre) in Hmsg.
    destruct (FD_shape _ _) as [shape|e] eqn:Es; cbn [bind] in Hmsg.
    + destruct (FD_price _ _ _ _ _ _ _ _) as [out|e] eqn:Ep; cbn [bind] in Hmsg;
        [discriminate|].
      injection Hmsg as ->. apply FD_price_raises in Ep. discriminate.
    + injection Hmsg as ->. now apply (FD_shape_not_assertion _ _ _ Es msg).
  - apply LowExercisePrice_calc_FD_failed.
  - intros Hpre Hcount.
    rewrite (LowExercisePrice_calc_FD_passed self Hpre).
    destruct (FD_shape _ _) as [[P Tn]|e] eqn:Es; cbn [bind].
    + exfalso. revert Es. unfold FD_shape.
      repeat match goal with
             | |- context [(?a =? ?b)%Z] => destruct (Z.eqb_spec a b)
             | |- context [(?a <? ?b)%Z] => destruct (Z.ltb_spec a b)
             end; try discriminate.
      intros _. lia.
    + exists e. split; [reflexivity|]. apply (FD_shape_not_assertion _ _ _ Es).
Qed.

Lemma C6_assertions_witness :
  let self :=
    {| ref := {| S0 := 5; vol := 0.3; q := 0 |};
       right := "call"; K := 1 / 100; T := 4; rf_r := 0.1;
       px_spec := new_PriceSpec FD (Some 0%Z) (Some 10%Z) false |} in
  exists e, LowExercisePrice_calc_FD self = Raise e
            /\ forall msg, e <> AssertionError msg.
Proof.
  intros self.
  apply (proj2 (C6_assertions self)).
  - unfold FD_preconditions. simpl. repeat split; (lra || auto).
  - simpl. lia.
Defined.

Lemma C6_assertions_counterexample :
  let self :=
    {| ref := {| S0 := 5; vol := 0.3; q := 0 |};
       right := "call"; K := 1 / 100; T := 4; rf_r := 0.1;
       px_spec := new_PriceSpec FD (Some 0%Z) (Some 10%Z) false |} in
  (getattr (nsteps (px_spec self)) 3 <= 0)%Z
  /\ LowExercisePrice_calc_FD self = Raise IndexError
  /\ ~ is_AssertionError (LowExercisePrice_calc_FD self).
Proof.
  intros self.
  assert (Hpre : FD_preconditions self)
    by (unfold FD_preconditions; simpl; repeat split; (lra || auto)).
  assert (E : LowExercisePrice_calc_FD self = Raise IndexError)
    by (rewrite (LowExercisePrice_calc_FD_passed self Hpre); reflexivity).
  split; [simpl; lia|]. split; [exact E|].
  rewrite E. intros [msg H]. discriminate H.
Qed.

(** ** The strike and the right of a LowExercisePrice call *)

(** C10.  [LowExercisePrice.calc_px] sets the strike to 0.01 and the right
    to call before it dispatches, so its result does not depend on the strike
    or the right of the object it is called on; the lattice method reads
    neither attribute (its payoff has the strike 0.01 written in it), and the
    finite-difference method computes with the constants [K = 0.01] and
    [K2 = 0] whatever the positive strike of the object. *)
Theorem C10_strike_and_right_ignored (self : OptionValuation) (k : R) (rt : string)
  (m : Method) (ns np : option Z) (kh : bool) :
  LowExercisePrice_calc_px (set_K_right self k rt) m ns np kh
  = LowExercisePrice_calc_px self m ns np kh
  /\ (forall o, LowExercisePrice_calc_px self m ns np kh = Ok o ->
        K o = 1 / 100 /\ right o = "call"%string)
  /\ price_of (LowExercisePrice_calc_LT (set_K_right self k rt))
     = price_of (LowExercisePrice_calc_LT self)
  /\ FD_K = 1 / 100 /\ FD_K2 = 0
  /\ (0 < k -> 0 < K self ->
      price_of (LowExercisePrice_calc_FD (set_K_right self k (right self)))
      = price_of (LowExercisePrice_calc_FD self)).
Proof.
  split; [reflexivity|]. split; [|split; [|split; [reflexivity|split; [reflexivity|]]]].
  - intros o. unfold LowExercisePrice_calc_px.
    destruct m; cbn [LowExercisePrice_calc_BS LowExercisePrice_calc_MC].
    + intros H; injection H as <-. split; reflexivity.
    + unfold LowExercisePrice_calc_LT. cbn [px_spec set_px_spec set_K_right].
      destruct (LT_specs _ _) as [sp|e]; [|discriminate]. cbn [bind].
      destruct (LowExercisePrice_LT_price _ _ _ _) as [[[out St] Ot]|e];
        [|discriminate].
      cbn [bind]. intros H; injection H as <-. split; reflexivity.
    + intros H; injection H as <-. split; reflexivity.
    + unfold LowExercisePrice_calc_FD, LowExercisePrice_calc_FD_with.
      do 6 (destruct (py_assert _ _); [cbn [bind]|discriminate]).
      destruct (FD_shape _ _) as [shape|e]; [cbn [bind]|discriminate].
      destruct (FD_price _ _ _ _ _ _ _ _) as [out|e]; [cbn [bind]|discriminate].
      intros H; injection H as <-. split; reflexivity.
  - unfold LowExercisePrice_calc_LT, price_of.
    change (LT_specs (set_K_right self k rt)) with (LT_specs self).
    cbn [px_spec ref set_K_right].
    destruct (LT_specs self _) as [sp|e]; [|reflexivity]. cbn [bind].
    destruct (LowExercisePrice_LT_price _ _ _ _) as [[[out St] Ot]|e]; reflexivity.
  - intros Hk HK.
    unfold LowExercisePrice_calc_FD, LowExercisePrice_calc_FD_with, price_of.
    cbn [px_spec ref right K T rf_r set_K_right].
    rewrite (Rltb_true 0 k), (Rltb_true 0 (K self)) by assumption.
    do 2 (destruct (py_assert _ _); [cbn [bind]|reflexivity]).
    cbn [py_assert bind].
    do 3 (destruct (py_assert _ _); [cbn [bind]|reflexivity]).
    destruct (FD_shape _ _) as [shape|e]; [cbn [bind]|reflexivity].
    destruct (FD_price _ _ _ _ _ _ _ _) as [out|e]; reflexivity.
Qed.

Lemma C10_strike_and_right_ignored_witness :
  let self :=
    {| ref := {| S0 := 5; vol := 0.3; q := 0 |};
       right := "put"; K := 7; T := 4; rf_r := 0.1;
       px_spec := new_PriceSpec BS None None false |} in
  LowExercisePrice_calc_px (set_K_right self 3 "call") LT (Some 4%Z) None false
  = LowExercisePrice_calc_px self LT (Some 4%Z) None false.
Proof.
  intros self.
  exact (proj1 (C10_strike_and_right_ignored self 3 "call" LT (Some 4%Z) None false)).
Defined.

(** ** Signs *)

Lemma roll_O_nonneg (sp : LatticeSpecs) (O_ : list R) :
  0 <= p sp <= 1 -> 0 <= df_dt sp ->
  (forall j, 0 <= nth j O_ 0) -> forall j, 0 <= nth j (roll_O sp O_) 0.
Proof.
  intros Hp Hdf HO j.
  destruct (Nat.lt_ge_cases (S j) (length O_)) as [Hj|Hj].
  - rewrite nth_roll_O by assumption.
    pose proof (HO j). pose proof (HO (S j)).
    apply Rmult_le_pos; [assumption|].
    apply Rplus_le_le_0_compat; apply Rmult_le_pos; lra.
  - rewrite nth_overflow by (rewrite length_roll_O; lia). lra.
Qed.

Lemma iter_roll_O_nonneg (sp : LatticeSpecs) (O_ : list R) (k : nat) :
  0 <= p sp <= 1 -> 0 <= df_dt sp ->
  (forall j, 0 <= nth j O_ 0) -> forall j, 0 <= nth j (Nat.iter k (roll_O sp) O_) 0.
Proof.
  intros Hp Hdf HO. induction k as [|k IH]; [exact HO|].
  simpl. now apply roll_O_nonneg.
Qed.

Lemma European_O_nonneg (S_ : list R) (k sgn : R) (j : nat) :
  0 <= nth j (European_O S_ k sgn) 0.
Proof.
  rewrite European_O_map.
  destruct (Nat.lt_ge_cases j (length S_)) as [Hj|Hj].
  - rewrite nth_map_R by assumption. apply Rmax_r.
  - rewrite nth_overflow by (rewrite length_map; lia). lra.
Qed.

Lemma nth_levels_nonneg (sp : LatticeSpecs) (n : nat) (O_ : list R) :
  0 <= p sp <= 1 -> 0 <= df_dt sp -> (forall j, 0 <= nth j O_ 0) ->
  forall i j, 0 <= nth j (nth i (levels (roll_O sp) n O_ ++ [O_]) []) 0.
Proof.
  intros Hp Hdf HO i j.
  destruct (Nat.le_gt_cases i n) as [Hi|Hi].
  - rewrite nth_levels by assumption. now apply iter_roll_O_nonneg.
  - rewrite (nth_overflow (levels _ _ _ ++ _)) by (rewrite length_levels; lia).
    destruct j; simpl; lra.
Qed.

Lemma C_nonneg (n i : nat) : 0 <= C n i.
Proof.
  unfold C. apply Rlt_le, Rdiv_lt_0_compat; [apply INR_fact_lt_0|].
  apply Rmult_lt_0_compat; apply INR_fact_lt_0.
Qed.

Lemma binomial_sum_nonneg (n : nat) (pr : R) (a : nat -> R) :
  0 <= pr <= 1 -> (forall i, 0 <= a i) -> 0 <= binomial_sum n pr a.
Proof.
  intros Hp Ha. unfold binomial_sum. apply cond_pos_sum. intros i.
  apply Rmult_le_pos; [|apply Ha].
  apply Rmult_le_pos; [|apply pow_le; lra].
  apply Rmult_le_pos; [apply C_nonneg|apply pow_le; lra].
Qed.

Lemma math_log_inv (x y : R) : math_log x = Ok y -> 0 < x.
Proof.
  unfold math_log, Rleb. destruct (Rle_dec x 0); [discriminate|]. intros _. lra.
Qed.

Lemma np_log_inv (x y : R) : np_log x = Ok y -> 0 < x.
Proof.
  unfold np_log, Rleb. destruct (Rle_dec x 0); [discriminate|]. intros _. lra.
Qed.

(** Every price that the body of [_calc_LT] returns, and every entry of the
    value tree that it stores, is non-negative. *)
Lemma European_LT_price_nonneg sp s0 k sgn n kh out S_tree O_tree :
  0 <= p sp <= 1 -> 0 <= df_dt sp -> 0 <= df_T sp ->
  European_LT_price sp s0 k sgn n kh = Ok (out, S_tree, O_tree) ->
  0 <= out
  /\ forall t, O_tree = Some t -> forall i j, 0 <= nth j (nth i t []) 0.
Proof.
  intros Hp Hdf HdfT. destruct kh.
  - rewrite European_LT_price_keep. intros H; injection H as <- _ <-.
    split.
    + apply iter_roll_O_nonneg; auto using European_O_nonneg.
    + intros t Ht; injection Ht as <-.
      apply nth_levels_nonneg; auto using European_O_nonneg.
  - intros H. assert (Hp' : 0 < p sp < 1).
    { unfold European_LT_price in H.
      destruct (math_log (p sp)) as [lp|] eqn:E1; [|discriminate].
      cbn [bind] in H.
      destruct (math_log (1 - p sp)) as [l1p|] eqn:E2; [|discriminate].
      apply math_log_inv in E1, E2. lra. }
    rewrite European_LT_price_collapse in H by assumption.
    injection H as <- _ <-. split; [|discriminate].
    apply Rmult_le_pos; [assumption|].
    apply binomial_sum_nonneg; auto using European_O_nonneg.
Qed.

Lemma LowExercisePrice_LT_price_nonneg sp s0 n kh out S_tree O_tree :
  0 <= p sp <= 1 -> 0 <= df_dt sp -> 0 <= df_T sp ->
  LowExercisePrice_LT_price sp s0 n kh = Ok (out, S_tree, O_tree) ->
  0 <= out
  /\ forall t, O_tree = Some t -> forall i j, 0 <= nth j (nth i t []) 0.
Proof.
  intros Hp Hdf HdfT. destruct kh.
  - rewrite LowExercisePrice_LT_price_keep, LowExercisePrice_O_European.
    intros H; injection H as <- _ <-.
    split.
    + apply iter_roll_O_nonneg; auto using European_O_nonneg.
    + intros t Ht; injection Ht as <-.
      apply nth_levels_nonneg; auto using European_O_nonneg.
  - intros H. assert (Hp' : 0 < p sp < 1).
    { unfold LowExercisePrice_LT_price in H.
      destruct (np_log (p sp)) as [lp|] eqn:E1; [|discriminate].
      cbn [bind] in H.
      destruct (np_log (1 - p sp)) as [l1p|] eqn:E2; [|discriminate].
      apply np_log_inv in E1, E2. lra. }
    rewrite LowExercisePrice_LT_price_collapse, LowExercisePrice_O_European in H
      by assumption.
    injection H as <- _ <-. split; [|discriminate].
    apply Rmult_le_pos; [assumption|].
    apply binomial_sum_nonneg; auto using European_O_nonneg.
Qed.

(** The terminal and boundary values of the finite-difference grid. *)
Lemma float_of_bool_nonneg (b : bool) : 0 <= float_of_bool b.
Proof. destruct b; simpl; lra. Qed.

Lemma FD_conditions_nonneg (is_call : bool) (s0 ttm r : R)
  (px_paths time_steps i : nat) :
  0 <= nth i (init_cond is_call s0 px_paths) 0
  /\ 0 <= nth i (upper_bound is_call s0 ttm r px_paths time_steps) 0
  /\ 0 <= nth i (lower_bound is_call s0 ttm r px_paths time_steps) 0.
Proof.
  assert (Hmap : forall (g : R -> R) (l : list R) k,
             (forall x, 0 <= g x) -> 0 <= nth k (map g l) 0).
  { intros g l k Hg. destruct (Nat.lt_ge_cases k (length l)).
    - rewrite nth_map_R by assumption. apply Hg.
    - rewrite nth_overflow by (rewrite length_map; lia). lra. }
  assert (Hrep : forall n k, 0 <= nth k (repeat 0 n) 0).
  { intros n k. destruct (Nat.lt_ge_cases k n).
    - rewrite nth_repeat_lt by assumption. lra.
    - rewrite nth_overflow by (rewrite repeat_length; lia). lra. }
  unfold init_cond, upper_bound, lower_bound.
  destruct is_call; repeat split; try apply Hrep; apply Hmap; intros x;
    repeat apply Rmult_le_pos;
    auto using Rmax_r, float_of_bool_nonneg, Rlt_le, exp_pos.
Qed.

(** C7, as the code has it.  Under the lattice invariant [0 <= p <= 1] and
    non-negative discount factors, every price that [_calc_LT] computes (in
    either mode and either class) and every entry of the value tree at every
    step is non-negative.  In the finite-difference grid the terminal column
    and the two boundary rows are non-negative. *)
Theorem C7_nonnegative (sp : LatticeSpecs) (s0 k sgn : R) (n : nat) (kh : bool) :
  0 <= p sp <= 1 -> 0 <= df_dt sp -> 0 <= df_T sp ->
  (forall out S_tree O_tree,
      European_LT_price sp s0 k sgn n kh = Ok (out, S_tree, O_tree) ->
      0 <= out
      /\ forall t, O_tree = Some t -> forall i j, 0 <= nth j (nth i t []) 0)
  /\ (forall out S_tree O_tree,
        LowExercisePrice_LT_price sp s0 n kh = Ok (out, S_tree, O_tree) ->
        0 <= out
        /\ forall t, O_tree = Some t -> forall i j, 0 <= nth j (nth i t []) 0)
  /\ (forall is_call s0' sigma ttm r qd px_paths time_steps f,
        (3 <= px_paths)%nat -> (2 <= time_steps)%nat ->
        FD_grid is_call s0' sigma ttm r qd px_paths time_steps = Ok f ->
        forall j i, (j < px_paths)%nat -> (i < time_steps)%nat ->
          j = 0%nat \/ j = FD_M px_paths \/ i = FD_N time_steps ->
          0 <= get f j i).
Proof.
  intros Hp Hdf HdfT. split; [|split].
  - intros out S_tree O_tree. now apply European_LT_price_nonneg.
  - intros out S_tree O_tree. now apply LowExercisePrice_LT_price_nonneg.
  - intros is_call s0' sigma ttm r qd px_paths time_steps f HP HT Hgrid j i Hj Hi Hcase.
    destruct (FD_grid_boundary is_call s0' sigma ttm r qd px_paths time_steps
                HP HT f Hgrid j i Hj Hi) as (H0 & HM & HN).
    destruct (FD_conditions_nonneg is_call s0' ttm r px_paths time_steps i)
      as (_ & Hub & Hlb).
    destruct (FD_conditions_nonneg is_call s0' ttm r px_paths time_steps j)
      as (Hinit & _ & _).
    destruct (Nat.eq_dec j 0) as [E0|E0]; [now rewrite (H0 E0)|].
    destruct (Nat.eq_dec j (FD_M px_paths)) as [EM|EM]; [now rewrite (HM EM)|].
    destruct Hcase as [?|[?|EN]]; try contradiction.
    rewrite (HN ltac:(unfold FD_M in *; lia) EN). exact Hinit.
Qed.

Lemma C7_nonnegative_witness :
  let sp := {| u := 2; d := 1 / 2; p := 1 / 2; df_dt := 1 / 2; df_T := 1 / 4 |} in
  0 <= nth 0 (Nat.iter 2 (roll_O sp) (European_O (European_S sp 42 2) 40 1)) 0.
Proof.
  intros sp.
  assert (Hp : 0 <= p sp <= 1) by (simpl; lra).
  assert (Hdf : 0 <= df_dt sp) by (simpl; lra).
  assert (HdfT : 0 <= df_T sp) by (simpl; lra).
  exact (proj1 (proj1 (C7_nonnegative sp 42 40 1 2 true Hp Hdf HdfT) _ _ _
                  (European_LT_price_keep sp 42 40 1 2))).
Defined.

(** A call on a stock that pays a dividend yield of 10%, with 10% volatility
    and no interest, twelve years to maturity, on the coarsest grid
    ([npaths = 3], [nsteps = 2]): the interior value of the grid at time 0,
    which is the price, is negative. *)
Lemma C7_nonnegative_counterexample :
  exists f v,
    FD_grid true 1 0.1 12 0 0.1 3 2 = Ok f
    /\ get f 1 0 < 0
    /\ FD_price true 1 0.1 12 0 0.1 3 2 = Ok v
    /\ v < 0.
Proof.
  assert (HP : (3 <= 3)%nat) by lia.
  assert (HT : (2 <= 2)%nat) by lia.
  assert (Hdom : FD_dominant 0.1 12 0 0.1 3 2)
    by (apply FD_dominant_single; (lia || lra)).
  destruct (FD_grid_total true 1 0.1 12 0 0.1 3 2 HP HT Hdom) as [f Hf].
  pose proof (FD_scheme_single true 1 0.1 12 0 0.1 3 2 HP HT f Hf 0
                eq_refl ltac:(unfold FD_N; lia)) as E.
  destruct (FD_grid_boundary true 1 0.1 12 0 0.1 3 2 HP HT f Hf 2 0
              ltac:(lia) ltac:(lia)) as (_ & H2 & _).
  destruct (FD_grid_boundary true 1 0.1 12 0 0.1 3 2 HP HT f Hf 1 1
              ltac:(lia) ltac:(lia)) as (_ & _ & H1).
  specialize (H2 eq_refl).
  specialize (H1 ltac:(unfold FD_M; lia) eq_refl).
  rewrite nth_lower_bound_call in H2 by (lia || lra).
  replace (- 0 * (12 - nth 0 (t_vec 12 2) 0)) with 0 in H2 by ring.
  rewrite exp_0, Rmax_left in H2 by lra.
  assert (Hinit : nth 1 (init_cond true 1 3) 0 = 0.99).
  { unfold init_cond, S_vec, S_min, S_max, FD_K, FD_K2. simpl.
    rewrite Rleb_true by lra. rewrite Rmax_left by lra. simpl. lra. }
  rewrite Hinit in H1. simpl Nat.add in E. rewrite H1, H2 in E.
  unfold b_coef, c_coef, d_t in E. simpl in E.
  assert (Hneg : get f 1 0 < 0) by lra.
  exists f, (get f 1 0). split; [exact Hf|]. split; [exact Hneg|].
  split; [|exact Hneg].
  unfold FD_price. rewrite Hf. cbn [bind]. f_equal.
  destruct (FD_grid_spec true 1 0.1 12 0 0.1 3 2 HP HT f Hf) as ([[Lf _] _] & _ & _).
  destruct f as [|r0 [|r1 [|r2 [|r3 f]]]]; try discriminate Lf.
  unfold FD_price_of, S_vec, S_min, S_max, col, get. simpl.
  rewrite Rltb_false by lra. rewrite Rltb_false by lra. rewrite Rltb_true by lra.
  field.
Qed.

(** ** The tree price as a binomial expectation *)

Lemma binomial_sum_ext (n : nat) (pr : R) (a b : nat -> R) :
  (forall i, (i <= n)%nat -> a i = b i) ->
  binomial_sum n pr a = binomial_sum n pr b.
Proof.
  intros H. unfold binomial_sum. apply sum_eq. intros i Hi. now rewrite H.
Qed.

(** The weights [C(n,i) p^i (1-p)^(n-i)] add up to one. *)
Lemma binomial_sum_const (n : nat) (pr c : R) :
  binomial_sum n pr (fun _ => c) = c.
Proof.
  unfold binomial_sum.
  rewrite <- (scal_sum (fun i => C n i * pr ^ i * (1 - pr) ^ (n - i)) n c).
  rewrite <- binomial. replace (pr + (1 - pr)) with 1 by ring.
  rewrite pow1. ring.
Qed.

Lemma binomial_sum_lin (n : nat) (pr : R) (a b : nat -> R) (x y : R) :
  binomial_sum n pr (fun i => x * a i + y * b i)
  = x * binomial_sum n pr a + y * binomial_sum n pr b.
Proof.
  unfold binomial_sum.
  apply (sum_lincomb (fun i => C n i * pr ^ i * (1 - pr) ^ (n - i))).
Qed.

Lemma binomial_sum_le (n : nat) (pr : R) (a b : nat -> R) :
  0 <= pr <= 1 -> (forall i, (i <= n)%nat -> a i <= b i) ->
  binomial_sum n pr a <= binomial_sum n pr b.
Proof.
  intros Hp H. unfold binomial_sum. apply sum_Rle. intros i Hi.
  apply Rmult_le_compat_l; [|now apply H].
  apply Rmult_le_pos; [|apply pow_le; lra].
  apply Rmult_le_pos; [apply C_nonneg|apply pow_le; lra].
Qed.

(** The binomial theorem: the expected terminal price is the initial price
    times the [n]-th power of the one-step growth. *)
Lemma binomial_sum_node_price (sp : LatticeSpecs) (s0 : R) (n : nat) :
  binomial_sum n (p sp) (node_price sp s0 n) = s0 * growth sp ^ n.
Proof.
  unfold growth. rewrite binomial, scal_sum. unfold binomial_sum.
  apply sum_eq. intros i Hi. unfold node_price.
  rewrite !Rpow_mult_distr. ring.
Qed.

Lemma nth_European_O (sp : LatticeSpecs) (s0 k sgn : R) (n i : nat) :
  (i <= n)%nat ->
  nth i (European_O (European_S sp s0 n) k sgn) 0
  = payoff (node_price sp s0 n i) k sgn.
Proof.
  intros Hi. rewrite European_O_map, European_S_map, map_map.
  rewrite nth_map_seq by lia. reflexivity.
Qed.

(** The price of the full-history walk and of the collapse, both as the
    discounted binomial expectation of the terminal payoffs. *)
Lemma European_LT_out_keep (sp : LatticeSpecs) (s0 k sgn : R) (n : nat) :
  LT_out (European_LT_price sp s0 k sgn n true)
  = Ok (df_dt sp ^ n
        * binomial_sum n (p sp) (fun i => payoff (node_price sp s0 n i) k sgn)).
Proof.
  rewrite European_LT_price_keep. unfold LT_out. simpl. f_equal.
  rewrite nth_iter_roll_O
    by (rewrite length_European_O, length_European_S; lia).
  f_equal. apply binomial_sum_ext. intros i Hi. simpl.
  now apply nth_European_O.
Qed.

Lemma European_LT_out_collapse (sp : LatticeSpecs) (s0 k sgn : R) (n : nat) :
  0 < p sp < 1 ->
  LT_out (European_LT_price sp s0 k sgn n false)
  = Ok (df_T sp
        * binomial_sum n (p sp) (fun i => payoff (node_price sp s0 n i) k sgn)).
Proof.
  intros Hp. rewrite European_LT_price_collapse by assumption.
  unfold LT_out. simpl. do 2 f_equal. apply binomial_sum_ext. intros i Hi.
  now apply nth_European_O.
Qed.

Lemma European_LT_out (sp : LatticeSpecs) (s0 k sgn : R) (n : nat) (keep : bool) :
  keep = true \/ 0 < p sp < 1 ->
  LT_out (European_LT_price sp s0 k sgn n keep)
  = Ok (LT_discount sp n keep
        * binomial_sum n (p sp) (fun i => payoff (node_price sp s0 n i) k sgn)).
Proof.
  intros H. destruct keep.
  - apply European_LT_out_keep.
  - destruct H as [H|H]; [discriminate|]. now apply European_LT_out_collapse.
Qed.

(** The tree of [LowExercisePrice] is the tree of a [European] call struck
    at 0.01: same price, same stored trees. *)
Lemma LowExercisePrice_LT_price_European (sp : LatticeSpecs) (s0 : R) (n : nat)
  (keep : bool) :
  keep = true \/ 0 < p sp < 1 ->
  LowExercisePrice_LT_price sp s0 n keep
  = European_LT_price sp s0 (1 / 100) 1 n keep.
Proof.
  intros H. destruct keep.
  - rewrite LowExercisePrice_LT_price_keep, European_LT_price_keep.
    now rewrite LowExercisePrice_O_European, LowExercisePrice_S_European.
  - destruct H as [H|H]; [discriminate|].
    rewrite LowExercisePrice_LT_price_collapse, European_LT_price_collapse
      by assumption.
    now rewrite LowExercisePrice_O_European.
Qed.

Lemma payoff_scale (lam s k sgn : R) :
  0 <= lam -> payoff (lam * s) (lam * k) sgn = lam * payoff s k sgn.
Proof.
  intros H. unfold payoff. rewrite <- (Rmult_0_r lam) at 1.
  rewrite <- RmaxRmult by assumption. f_equal. ring.
Qed.

Lemma payoff_parity (s k : R) : payoff s k 1 - payoff s k (-1) = s - k.
Proof. unfold payoff, Rmax. repeat destruct (Rle_dec _ _); lra. Qed.

Lemma payoff_strike (s k k' : R) :
  k <= k' ->
  0 <= payoff s k 1 - payoff s k' 1 <= k' - k
  /\ 0 <= payoff s k' (-1) - payoff s k (-1) <= k' - k.
Proof. intros H. unfold payoff, Rmax. repeat destruct (Rle_dec _ _); lra. Qed.

Lemma payoff_call_bounds (s k : R) :
  0 <= s -> 0 <= k -> s - k <= payoff s k 1 <= s.
Proof. intros Hs Hk. unfold payoff, Rmax. destruct (Rle_dec _ _); lra. Qed.

Lemma node_price_scale (sp : LatticeSpecs) (lam s0 : R) (n i : nat) :
  node_price sp (lam * s0) n i = lam * node_price sp s0 n i.
Proof. unfold node_price. ring. Qed.

Lemma node_price_nonneg (sp : LatticeSpecs) (s0 : R) (n i : nat) :
  0 <= u sp -> 0 <= d sp -> 0 <= s0 -> 0 <= node_price sp s0 n i.
Proof.
  intros Hu Hd Hs. unfold node_price.
  apply Rmult_le_pos; [|assumption].
  apply Rmult_le_pos; apply pow_le; assumption.
Qed.

Lemma binomial_sum_scale (n : nat) (pr x : R) (a : nat -> R) :
  binomial_sum n pr (fun i => x * a i) = x * binomial_sum n pr a.
Proof.
  rewrite (binomial_sum_ext n pr _ (fun i => x * a i + 0 * a i))
    by (intros; ring).
  rewrite binomial_sum_lin. ring.
Qed.

Lemma binomial_sum_minus (n : nat) (pr : R) (a b : nat -> R) :
  binomial_sum n pr (fun i => a i - b i)
  = binomial_sum n pr a - binomial_sum n pr b.
Proof.
  rewrite (binomial_sum_ext n pr _ (fun i => 1 * a i + (-1) * b i))
    by (intros; ring).
  rewrite binomial_sum_lin. ring.
Qed.

(** After [k] backward steps, price [j] is [d^k] times the price [k] places
    above it. *)
Lemma nth_iter_roll_S (sp : LatticeSpecs) (S_ : list R) (k j : nat) :
  (j + k < length S_)%nat ->
  nth j (Nat.iter k (roll_S sp) S_) 0 = d sp ^ k * nth (j + k) S_ 0.
Proof.
  revert j; induction k as [|k IH]; intros j H.
  - simpl. rewrite Nat.add_0_r. ring.
  - simpl Nat.iter. rewrite nth_roll_S by (rewrite length_iter_roll_S; lia).
    rewrite IH by lia. replace (S j + k)%nat with (j + S k)%nat by lia.
    simpl pow. ring.
Qed.

(** Every node of the stored price tree. *)
Lemma nth_levels_roll_S (sp : LatticeSpecs) (s0 : R) (n i j : nat) :
  (j <= i)%nat -> (i <= n)%nat ->
  nth j (nth i (levels (roll_S sp) n (European_S sp s0 n)
                ++ [European_S sp s0 n]) []) 0
  = s0 * d sp ^ (i - j) * u sp ^ j * (u sp * d sp) ^ (n - i).
Proof.
  intros Hj Hi. rewrite nth_levels by assumption.
  rewrite nth_iter_roll_S by (rewrite length_European_S; lia).
  rewrite European_S_map, nth_map_seq by lia.
  replace (n - (j + (n - i)))%nat with (i - j)%nat by lia.
  rewrite Rpow_mult_distr, pow_add. ring.
Qed.

(** The lattice constants of [LT_specs] make the one-step growth the carry
    [e^((r-q) dt)]. *)
Lemma CRR_growth (self : OptionValuation) (n : Z) (sp : LatticeSpecs) :
  LT_specs self n = Ok sp ->
  growth sp = exp ((rf_r self - q (ref self)) * (T self / IZR n))
  /\ u sp * d sp = 1.
Proof.
  intros H. destruct (LT_specs_inv _ _ _ H) as (Hn & Hv & HT).
  rewrite LT_specs_Ok in H by assumption. injection H as <-.
  unfold growth. simpl.
  set (dt := T self / IZR n).
  assert (Hdt : 0 < dt).
  { unfold dt. apply Rdiv_lt_0_compat; [assumption|]. apply IZR_lt. lia. }
  assert (Hs : 0 < sqrt dt) by (apply sqrt_lt_R0; assumption).
  set (U := exp (vol (ref self) * sqrt dt)).
  assert (HU : 1 < U).
  { unfold U. rewrite <- exp_0. apply exp_increasing.
    apply Rmult_lt_0_compat; assumption. }
  assert (HD : 1 / U < 1).
  { apply (Rmult_lt_reg_r U); [lra|]. unfold Rdiv.
    rewrite Rmult_assoc, Rinv_l by lra. lra. }
  split; field; repeat split; nra.
Qed.

Lemma parity_sum (sp : LatticeSpecs) (s0 k : R) (n : nat) :
  binomial_sum n (p sp) (fun i => payoff (node_price sp s0 n i) k 1)
  - binomial_sum n (p sp) (fun i => payoff (node_price sp s0 n i) k (-1))
  = s0 * growth sp ^ n - k.
Proof.
  rewrite <- binomial_sum_minus.
  rewrite (binomial_sum_ext n (p sp) _ (fun i => node_price sp s0 n i - k))
    by (intros; apply payoff_parity).
  rewrite binomial_sum_minus, binomial_sum_const.
  now rewrite <- binomial_sum_node_price.
Qed.

(** ** Error behaviour of the two modes *)

(** X4.  The full-history walk of [European._calc_LT] returns for every
    lattice; the collapse takes [math.log(p)] and [math.log(1 - p)] and so
    returns exactly when [0 < p < 1], raising [ValueError] otherwise. *)
Theorem European_LT_price_returns (sp : LatticeSpecs) (s0 k sgn : R) (n : nat) :
  (exists r, European_LT_price sp s0 k sgn n true = Ok r)
  /\ ((exists r, European_LT_price sp s0 k sgn n false = Ok r) <-> 0 < p sp < 1)
  /\ (European_LT_price sp s0 k sgn n false = Raise ValueError
      <-> (p sp <= 0 \/ 1 <= p sp)).
Proof.
  split; [rewrite European_LT_price_keep; eexists; reflexivity|].
  unfold European_LT_price, math_log, Rleb.
  destruct (Rle_dec (p sp) 0) as [H0|H0];
    [|destruct (Rle_dec (1 - p sp) 0) as [H1|H1]]; simpl.
  - split; split; try (intros [r Hr]; discriminate); try lra; auto.
  - split; split; try (intros [r Hr]; discriminate); try lra; auto.
  - split; split; try discriminate; try lra.
    intros _. eexists; reflexivity.
Qed.

(** ** Scaling *)

(** X5.  The tree price of [European._calc_LT] is homogeneous of degree one
    in the pair (underlying price, strike): scaling both by [lam >= 0] scales
    the price by [lam], in either mode. *)
Theorem European_LT_homogeneous (sp : LatticeSpecs) (s0 k sgn lam : R) (n : nat)
  (keep : bool) :
  0 <= lam -> keep = true \/ 0 < p sp < 1 ->
  exists x,
    LT_out (European_LT_price sp s0 k sgn n keep) = Ok x
    /\ LT_out (European_LT_price sp (lam * s0) (lam * k) sgn n keep)
       = Ok (lam * x).
Proof.
  intros Hl Hk. rewrite !European_LT_out by assumption.
  eexists; split; [reflexivity|]. f_equal.
  rewrite (binomial_sum_ext n (p sp) _
             (fun i => lam * payoff (node_price sp s0 n i) k sgn)).
  - rewrite binomial_sum_scale. ring.
  - intros i Hi. rewrite node_price_scale. now apply payoff_scale.
Qed.

Lemma European_LT_homogeneous_witness :
  let sp := {| u := 2; d := 1 / 2; p := 1 / 2; df_dt := 1 / 2; df_T := 1 / 4 |} in
  exists x,
    LT_out (European_LT_price sp 10 8 1 2 true) = Ok x
    /\ LT_out (European_LT_price sp (3 * 10) (3 * 8) 1 2 true) = Ok (3 * x).
Proof.
  intros sp.
  apply (European_LT_homogeneous sp 10 8 1 3 2 true); [lra|now left].
Defined.

(** ** Put-call parity on the lattice *)

(** X6.  On every lattice the call price and the put price of
    [European._calc_LT] differ by the discounted forward minus strike:
    [C - P = D * (S0 * (p*u + (1-p)*d)^n - K)], where [D] is [df_dt^n] in
    full-history mode and [df_T] in collapse mode. *)
Theorem European_LT_put_call_parity (sp : LatticeSpecs) (s0 k : R) (n : nat)
  (keep : bool) :
  keep = true \/ 0 < p sp < 1 ->
  exists c pt,
    LT_out (European_LT_price sp s0 k 1 n keep) = Ok c
    /\ LT_out (European_LT_price sp s0 k (-1) n keep) = Ok pt
    /\ c - pt = LT_discount sp n keep * (s0 * growth sp ^ n - k).
Proof.
  intros Hk. rewrite !European_LT_out by assumption.
  do 2 eexists. split; [reflexivity|]. split; [reflexivity|].
  rewrite <- parity_sum. ring.
Qed.

Lemma European_LT_put_call_parity_witness :
  let sp := {| u := 2; d := 1 / 2; p := 1 / 2; df_dt := 1 / 2; df_T := 1 / 4 |} in
  exists c pt,
    LT_out (European_LT_price sp 10 8 1 2 false) = Ok c
    /\ LT_out (European_LT_price sp 10 8 (-1) 2 false) = Ok pt
    /\ c - pt = LT_discount sp 2 false * (10 * growth sp ^ 2 - 8).
Proof.
  intros sp.
  apply (European_LT_put_call_parity sp 10 8 2 false). right. simpl. lra.
Defined.

(** X7.  With the lattice constants of [LT_specs] the tree prices of
    [European._calc_LT] satisfy put-call parity exactly, for every number of
    steps: [C - P = S0*e^(-q T) - K*e^(-r T)]. *)
Theorem European_LT_parity_CRR (self : OptionValuation) (sp : LatticeSpecs)
  (kh : bool) :
  LT_specs self (getattr (nsteps (px_spec self)) 3%Z) = Ok sp ->
  kh = true \/ 0 < p sp < 1 ->
  exists c pt,
    price_of (European_calc_LT
                (with_keep_hist (set_K_right self (K self) "call") kh))
    = Ok (Some c)
    /\ price_of (European_calc_LT
                   (with_keep_hist (set_K_right self (K self) "put") kh))
       = Ok (Some pt)
    /\ c - pt = S0 (ref self) * exp (- q (ref self) * T self)
                - K self * exp (- rf_r self * T self).
Proof.
  intros Hsp Hk.
  pose proof (European_calc_LT_price (set_K_right self (K self) "call")
                sp 1 kh Hsp eq_refl) as Ec.
  pose proof (European_calc_LT_price (set_K_right self (K self) "put")
                sp (-1) kh Hsp eq_refl) as Ep.
  cbn [set_K_right ref K px_spec] in Ec, Ep.
  rewrite European_LT_out in Ec, Ep by assumption. simpl bind in Ec, Ep.
  do 2 eexists. split; [exact Ec|]. split; [exact Ep|].
  rewrite <- Rmult_minus_distr_l, parity_sum.
  assert (HD : LT_discount sp (Z.to_nat (getattr (nsteps (px_spec self)) 3%Z)) kh
               = exp (- rf_r self * T self)).
  { pose proof (LT_specs_discount _ _ _ Hsp) as Hd.
    destruct (LT_specs_inv _ _ _ Hsp) as (Hn & Hv & HT).
    assert (E : df_T sp = exp (- rf_r self * T self)).
    { rewrite LT_specs_Ok in Hsp by assumption. now injection Hsp as <-. }
    destruct kh; simpl; congruence. }
  destruct (CRR_growth _ _ _ Hsp) as [Hg _].
  destruct (LT_specs_inv _ _ _ Hsp) as (Hn & Hv & HT).
  rewrite HD, Hg, exp_pow_INR.
  rewrite INR_IZR_INZ, Z2Nat.id by lia.
  replace (IZR (getattr (nsteps (px_spec self)) 3%Z)
           * ((rf_r self - q (ref self))
              * (T self / IZR (getattr (nsteps (px_spec self)) 3%Z))))
    with ((rf_r self - q (ref self)) * T self)
    by (field; apply not_0_IZR; lia).
  replace (exp (- q (ref self) * T self))
    with (exp (- rf_r self * T self) * exp ((rf_r self - q (ref self)) * T self))
    by (rewrite <- exp_plus; f_equal; ring).
  ring.
Qed.

Lemma European_LT_parity_CRR_witness :
  let self :=
    {| ref := {| S0 := 42; vol := 0.2; q := 0 |};
       right := "call"; K := 40; T := 0.5; rf_r := 0.1;
       px_spec := new_PriceSpec LT (Some 2%Z) None false |} in
  exists c pt,
    price_of (European_calc_LT
                (with_keep_hist (set_K_right self (K self) "call") true))
    = Ok (Some c)
    /\ price_of (European_calc_LT
                   (with_keep_hist (set_K_right self (K self) "put") true))
       = Ok (Some pt)
    /\ c - pt = S0 (ref self) * exp (- q (ref self) * T self)
                - K self * exp (- rf_r self * T self).
Proof.
  intros self.
  assert (Hn : (1 <= getattr (nsteps (px_spec self)) 3)%Z) by (simpl; lia).
  assert (Hv : 0 < vol (ref self)) by (simpl; lra).
  assert (HT : 0 < T self) by (simpl; lra).
  exact (European_LT_parity_CRR self _ true (LT_specs_Ok self _ Hn Hv HT)
           (or_introl eq_refl)).
Defined.

(** ** Dependence on the strike *)

(** X8.  On a lattice with [0 <= p <= 1] and a non-negative discount the call
    price of [European._calc_LT] does not increase with the strike and the
    put price does not decrease, and neither moves by more than the
    discounted change of the strike. *)
Theorem European_LT_strike_monotone (sp : LatticeSpecs) (s0 k k' : R) (n : nat)
  (keep : bool) :
  0 <= p sp <= 1 -> keep = true \/ 0 < p sp < 1 ->
  0 <= LT_discount sp n keep -> k <= k' ->
  exists c c' pt pt',
    LT_out (European_LT_price sp s0 k 1 n keep) = Ok c
    /\ LT_out (European_LT_price sp s0 k' 1 n keep) = Ok c'
    /\ LT_out (European_LT_price sp s0 k (-1) n keep) = Ok pt
    /\ LT_out (European_LT_price sp s0 k' (-1) n keep) = Ok pt'
    /\ 0 <= c - c' <= LT_discount sp n keep * (k' - k)
    /\ 0 <= pt' - pt <= LT_discount sp n keep * (k' - k).
Proof.
  intros Hp Hk HD Hkk. rewrite !European_LT_out by assumption.
  do 4 eexists. do 4 (split; [reflexivity|]).
  set (D := LT_discount sp n keep) in *.
  set (a := fun sgn x i => payoff (node_price sp s0 n i) x sgn).
  change (0 <= D * binomial_sum n (p sp) (a 1 k)
               - D * binomial_sum n (p sp) (a 1 k') <= D * (k' - k)
          /\ 0 <= D * binomial_sum n (p sp) (a (-1) k')
                  - D * binomial_sum n (p sp) (a (-1) k) <= D * (k' - k)).
  assert (Hs : forall i, 0 <= a 1 k i - a 1 k' i <= k' - k
                         /\ 0 <= a (-1) k' i - a (-1) k i <= k' - k)
    by (intros i; unfold a; now apply payoff_strike).
  assert (Hup : forall f g, (forall i, f i <= g i + (k' - k)) ->
                  binomial_sum n (p sp) f
                  <= binomial_sum n (p sp) g + (k' - k)).
  { intros f g H.
    apply Rle_trans
      with (binomial_sum n (p sp) (fun i => 1 * g i + 1 * (k' - k))).
    - apply binomial_sum_le; [assumption|]. intros i _. specialize (H i). lra.
    - rewrite (binomial_sum_lin n (p sp) g (fun _ => k' - k)).
      rewrite binomial_sum_const. lra. }
  assert (C1 : binomial_sum n (p sp) (a 1 k') <= binomial_sum n (p sp) (a 1 k))
    by (apply binomial_sum_le; [assumption|]; intros i _; specialize (Hs i); lra).
  assert (C2 : binomial_sum n (p sp) (a 1 k)
               <= binomial_sum n (p sp) (a 1 k') + (k' - k))
    by (apply Hup; intros i; specialize (Hs i); lra).
  assert (P1 : binomial_sum n (p sp) (a (-1) k)
               <= binomial_sum n (p sp) (a (-1) k'))
    by (apply binomial_sum_le; [assumption|]; intros i _; specialize (Hs i); lra).
  assert (P2 : binomial_sum n (p sp) (a (-1) k')
               <= binomial_sum n (p sp) (a (-1) k) + (k' - k))
    by (apply Hup; intros i; specialize (Hs i); lra).
  clearbody D. repeat split; nra.
Qed.

Lemma European_LT_strike_monotone_witness :
  let sp := {| u := 2; d := 1 / 2; p := 1 / 2; df_dt := 1 / 2; df_T := 1 / 4 |} in
  exists c c' pt pt',
    LT_out (European_LT_price sp 10 8 1 2 false) = Ok c
    /\ LT_out (European_LT_price sp 10 9 1 2 false) = Ok c'
    /\ LT_out (European_LT_price sp 10 8 (-1) 2 false) = Ok pt
    /\ LT_out (European_LT_price sp 10 9 (-1) 2 false) = Ok pt'
    /\ 0 <= c - c' <= LT_discount sp 2 false * (9 - 8)
    /\ 0 <= pt' - pt <= LT_discount sp 2 false * (9 - 8).
Proof.
  intros sp.
  apply (European_LT_strike_monotone sp 10 8 9 2 false); simpl; lra.
Defined.

(** ** The two classes *)

(** X9.  [LowExercisePrice._calc_LT] stores what [European._calc_LT] stores
    for a call struck at 0.01 on the same underlying: the same price, the
    same lattice constants and, with history, the same two trees. *)
Theorem LowExercisePrice_LT_is_European_call (self : OptionValuation)
  (sp : LatticeSpecs) :
  LT_specs self (getattr (nsteps (px_spec self)) 3%Z) = Ok sp ->
  getattr (keep_hist (px_spec self)) false = true \/ 0 < p sp < 1 ->
  exists a b,
    LowExercisePrice_calc_LT self = Ok a
    /\ European_calc_LT (set_K_right self (1 / 100) "call") = Ok b
    /\ px (px_spec a) = px (px_spec b)
    /\ px (px_spec a) <> None
    /\ px_LT_specs (px_spec a) = px_LT_specs (px_spec b)
    /\ ref_tree (px_spec a) = ref_tree (px_spec b)
    /\ opt_tree (px_spec a) = opt_tree (px_spec b).
Proof.
  intros Hsp Hk. unfold LowExercisePrice_calc_LT, European_calc_LT.
  change (LT_specs (set_K_right self (1 / 100) "call")) with (LT_specs self).
  cbn [set_K_right ref K px_spec]. rewrite Hsp.
  change (signCP (set_K_right self (1 / 100) "call")) with (Some 1).
  simpl bind. rewrite LowExercisePrice_LT_price_European by assumption.
  destruct (European_LT_price sp (S0 (ref self)) (1 / 100) 1 _ _)
    as [[[out St] Ot]|e] eqn:E.
  - simpl. do 2 eexists. split; [reflexivity|]. split; [reflexivity|].
    simpl. repeat split. discriminate.
  - exfalso.
    pose proof (European_LT_out sp (S0 (ref self)) (1 / 100) 1
                  (Z.to_nat (getattr (nsteps (px_spec self)) 3%Z))
                  _ Hk) as Ho.
    rewrite E in Ho. discriminate.
Qed.

Lemma LowExercisePrice_LT_is_European_call_witness :
  let self :=
    {| ref := {| S0 := 5; vol := 0.3; q := 0.02 |};
       right := "put"; K := 40; T := 2; rf_r := 0.1;
       px_spec := new_PriceSpec LT (Some 4%Z) None true |} in
  exists a b,
    LowExercisePrice_calc_LT self = Ok a
    /\ European_calc_LT (set_K_right self (1 / 100) "call") = Ok b
    /\ px (px_spec a) = px (px_spec b)
    /\ px (px_spec a) <> None
    /\ px_LT_specs (px_spec a) = px_LT_specs (px_spec b)
    /\ ref_tree (px_spec a) = ref_tree (px_spec b)
    /\ opt_tree (px_spec a) = opt_tree (px_spec b).
Proof.
  intros self.
  assert (Hn : (1 <= getattr (nsteps (px_spec self)) 3)%Z) by (simpl; lia).
  assert (Hv : 0 < vol (ref self)) by (simpl; lra).
  assert (HT : 0 < T self) by (simpl; lra).
  exact (LowExercisePrice_LT_is_European_call self _
           (LT_specs_Ok self _ Hn Hv HT) (or_introl eq_refl)).
Defined.

(** ** The stored price tree *)

(** X10.  When [u * d = 1] the price tree that [_calc_LT] stores with
    [keep_hist], built backwards from the terminal prices by [d * S[1:i+1]],
    is the recombining tree: step [i] holds [S0 * d^(i-j) * u^j] for
    [j = 0..i], and its root is [S0].  Both classes store the same tree. *)
Theorem ref_tree_recombines (sp : LatticeSpecs) (s0 k sgn : R) (n : nat) :
  u sp * d sp = 1 ->
  exists out O_tree out' O_tree' S_tree,
    European_LT_price sp s0 k sgn n true = Ok (out, Some S_tree, O_tree)
    /\ LowExercisePrice_LT_price sp s0 n true = Ok (out', Some S_tree, O_tree')
    /\ (forall i j, (j <= i)%nat -> (i <= n)%nat ->
          nth j (nth i S_tree []) 0 = s0 * d sp ^ (i - j) * u sp ^ j)
    /\ nth 0 (nth 0 S_tree []) 0 = s0.
Proof.
  intros Hud.
  rewrite European_LT_price_keep, LowExercisePrice_LT_price_keep.
  rewrite LowExercisePrice_S_European.
  do 5 eexists. split; [reflexivity|]. split; [reflexivity|].
  assert (H : forall i j, (j <= i)%nat -> (i <= n)%nat ->
            nth j (nth i (levels (roll_S sp) n (European_S sp s0 n)
                          ++ [European_S sp s0 n]) []) 0
            = s0 * d sp ^ (i - j) * u sp ^ j).
  { intros i j Hj Hi. rewrite nth_levels_roll_S by assumption.
    rewrite Hud, pow1. ring. }
  split; [exact H|].
  rewrite (H 0%nat 0%nat) by lia. simpl. ring.
Qed.

Lemma ref_tree_recombines_witness :
  let sp := {| u := 2; d := 1 / 2; p := 1 / 2; df_dt := 1 / 2; df_T := 1 / 4 |} in
  exists out O_tree out' O_tree' S_tree,
    European_LT_price sp 10 8 1 2 true = Ok (out, Some S_tree, O_tree)
    /\ LowExercisePrice_LT_price sp 10 2 true = Ok (out', Some S_tree, O_tree')
    /\ (forall i j, (j <= i)%nat -> (i <= 2)%nat ->
          nth j (nth i S_tree []) 0 = 10 * d sp ^ (i - j) * u sp ^ j)
    /\ nth 0 (nth 0 S_tree []) 0 = 10.
Proof.
  intros sp. apply (ref_tree_recombines sp 10 8 1 2). simpl. lra.
Defined.

(** ** Bounds of the low exercise price option *)

(** X11.  On a lattice with non-negative [u], [d] and discount and with
    [0 <= p <= 1], the tree price of [LowExercisePrice._calc_LT] for
    [S0 >= 0] lies between the discounted forward less the discounted 0.01
    and the discounted forward:
    [D*(S0*g^n - 0.01) <= price <= D*S0*g^n] with [g = p*u + (1-p)*d]. *)
Theorem LowExercisePrice_LT_bounds (sp : LatticeSpecs) (s0 : R) (n : nat)
  (keep : bool) :
  0 <= u sp -> 0 <= d sp -> 0 <= p sp <= 1 -> 0 <= s0 ->
  keep = true \/ 0 < p sp < 1 -> 0 <= LT_discount sp n keep ->
  exists v,
    LT_out (LowExercisePrice_LT_price sp s0 n keep) = Ok v
    /\ LT_discount sp n keep * (s0 * growth sp ^ n - 1 / 100) <= v
    /\ v <= LT_discount sp n keep * (s0 * growth sp ^ n).
Proof.
  intros Hu Hd Hp Hs Hk HD.
  rewrite LowExercisePrice_LT_price_European, European_LT_out by assumption.
  eexists. split; [reflexivity|].
  assert (Hb : forall i, node_price sp s0 n i - 1 / 100
                         <= payoff (node_price sp s0 n i) (1 / 100) 1
                         <= node_price sp s0 n i).
  { intros i. apply payoff_call_bounds; [|lra].
    now apply node_price_nonneg. }
  rewrite <- binomial_sum_node_price.
  split.
  - rewrite <- (binomial_sum_const n (p sp) (1 / 100)) at 1.
    rewrite <- binomial_sum_minus.
    apply Rmult_le_compat_l; [assumption|].
    apply binomial_sum_le; [assumption|]. intros i _. apply Hb.
  - apply Rmult_le_compat_l; [assumption|].
    apply binomial_sum_le; [assumption|]. intros i _. apply Hb.
Qed.

Lemma LowExercisePrice_LT_bounds_witness :
  let sp := {| u := 2; d := 1 / 2; p := 1 / 2; df_dt := 1 / 2; df_T := 1 / 4 |} in
  exists v,
    LT_out (LowExercisePrice_LT_price sp 10 2 false) = Ok v
    /\ LT_discount sp 2 false * (10 * growth sp ^ 2 - 1 / 100) <= v
    /\ v <= LT_discount sp 2 false * (10 * growth sp ^ 2).
Proof.
  intros sp. apply (LowExercisePrice_LT_bounds sp 10 2 false); simpl; lra.
Defined.

(** ** The analytic method *)

Lemma sqrt_zero_iff (x : R) : 0 <= x -> (sqrt x = 0 <-> x = 0).
Proof.
  intros H. split; intros E.
  - now apply sqrt_eq_0.
  - subst x. apply sqrt_0.
Qed.

(** What [_calc_BS] stores on the inputs on which it returns. *)
Lemma European_calc_BS_Ok (N : R -> R) (self : OptionValuation) :
  K self <> 0 -> 0 < S0 (ref self) / K self -> 0 < T self ->
  vol (ref self) <> 0 ->
  let x1 := (ln (S0 (ref self) / K self)
             + (rf_r self + vol (ref self) ^ 2 / 2) * T self)
            / (vol (ref self) * sqrt (T self)) in
  let x2 := x1 - vol (ref self) * sqrt (T self) in
  let c := S0 (ref self) * exp (- q (ref self) * T self) * N x1
           - K self * exp (- rf_r self * T self) * N x2 in
  let pt := - S0 (ref self) * exp (- q (ref self) * T self) * N (- x1)
            + K self * exp (- rf_r self * T self) * N (- x2) in
  European_calc_BS N self
  = Ok (set_px_spec self
          (add_BS (px_spec self)
             (match signCP self with
              | Some s => if Reqb s 1 then Some c
                          else if Reqb s (-1) then Some pt else None
              | None => None
              end) "standard; Hull p.335" c pt x1 x2)).
Proof.
  intros HK Hr HT Hv x1 x2 c pt.
  assert (Hsq : sqrt (T self) <> 0)
    by (intros E; apply sqrt_eq_0 in E; lra).
  unfold European_calc_BS.
  rewrite py_div_Ok by assumption. cbn [bind].
  rewrite math_log_Ok by assumption. cbn [bind].
  rewrite math_sqrt_Ok by lra. cbn [bind].
  rewrite py_div_Ok by (apply Rmult_integral_contrapositive_currified; assumption).
  reflexivity.
Qed.

Ltac bs_done :=
  repeat match goal with
         | H : exists _, _ |- _ => destruct H
         end;
  first [ reflexivity | eexists; reflexivity | discriminate | assumption
        | tauto | lra | exfalso; intuition (discriminate || lra) ].

(** The five ways through the arithmetic of [_calc_BS]. *)
Lemma European_calc_BS_cases (N : R -> R) (self : OptionValuation) :
  (K self = 0 /\ European_calc_BS N self = Raise ZeroDivisionError)
  \/ (K self <> 0 /\ S0 (ref self) / K self <= 0
      /\ European_calc_BS N self = Raise ValueError)
  \/ (K self <> 0 /\ 0 < S0 (ref self) / K self /\ T self < 0
      /\ European_calc_BS N self = Raise ValueError)
  \/ (K self <> 0 /\ 0 < S0 (ref self) / K self /\ 0 <= T self
      /\ (T self = 0 \/ vol (ref self) = 0)
      /\ European_calc_BS N self = Raise ZeroDivisionError)
  \/ (K self <> 0 /\ 0 < S0 (ref self) / K self /\ 0 < T self
      /\ vol (ref self) <> 0 /\ exists o, European_calc_BS N self = Ok o).
Proof.
  destruct (Req_dec_T (K self) 0) as [HK|HK].
  { left. split; [assumption|]. unfold European_calc_BS, py_div, Reqb.
    destruct (Req_dec_T (K self) 0); [reflexivity|contradiction]. }
  right. destruct (Rle_dec (S0 (ref self) / K self) 0) as [Hr|Hr].
  { left. repeat split; try assumption. unfold European_calc_BS.
    rewrite py_div_Ok by assumption. cbn [bind]. unfold math_log, Rleb.
    destruct (Rle_dec _ _); [reflexivity|contradiction]. }
  right. destruct (Rlt_dec (T self) 0) as [HT|HT].
  { left. repeat split; try assumption; try lra. unfold European_calc_BS.
    rewrite py_div_Ok by assumption. cbn [bind].
    rewrite math_log_Ok by lra. cbn [bind]. unfold math_sqrt, Rltb.
    destruct (Rlt_dec _ _); [reflexivity|contradiction]. }
  right. assert (HT0 : 0 <= T self) by lra.
  pose proof (sqrt_zero_iff (T self) HT0) as Hsq.
  destruct (Req_dec_T (vol (ref self) * sqrt (T self)) 0) as [Hz|Hz].
  { left. repeat split; try assumption; try lra.
    - apply Rmult_integral in Hz. tauto.
    - unfold European_calc_BS.
      rewrite py_div_Ok by assumption. cbn [bind].
      rewrite math_log_Ok by lra. cbn [bind].
      rewrite math_sqrt_Ok by assumption. cbn [bind].
      unfold py_div, Reqb.
      destruct (Req_dec_T _ _); [reflexivity|contradiction]. }
  right.
  assert (Hv : vol (ref self) <> 0) by (intros E; apply Hz; rewrite E; ring).
  assert (Hs : T self <> 0) by (intros E; apply Hz; rewrite (proj2 Hsq E); ring).
  repeat split; try assumption; try lra.
  eexists. apply European_calc_BS_Ok; try assumption; lra.
Qed.

(** X1.  [European._calc_BS] validates nothing itself; its arithmetic
    decides.  It returns exactly when [K <> 0], [S0/K > 0], [T > 0] and
    [vol <> 0] (a negative volatility or a negative pair [S0], [K] is
    accepted); it raises [ZeroDivisionError] when [K = 0], when [T = 0] or
    when [vol = 0], and [ValueError] (from [math.log] or [math.sqrt]) when
    [S0/K <= 0] or [T < 0]. *)
Theorem European_BS_domain (N : R -> R) (self : OptionValuation) :
  ((exists o, European_calc_BS N self = Ok o)
   <-> K self <> 0 /\ 0 < S0 (ref self) / K self /\ 0 < T self
       /\ vol (ref self) <> 0)
  /\ (European_calc_BS N self = Raise ZeroDivisionError
      <-> K self = 0
          \/ (0 < S0 (ref self) / K self /\ 0 <= T self
              /\ (T self = 0 \/ vol (ref self) = 0)))
  /\ (European_calc_BS N self = Raise ValueError
      <-> K self <> 0 /\ (S0 (ref self) / K self <= 0 \/ T self < 0)).
Proof.
  destruct (European_calc_BS_cases N self)
    as [(HK & E)|[(HK & Hr & E)|[(HK & Hr & HT & E)
        |[(HK & Hr & HT & Hz & E)|(HK & Hr & HT & Hv & o & E)]]]];
    rewrite E; repeat split; intros; bs_done.
Qed.

(** X2.  The analytic prices are homogeneous of degree one in the pair
    (underlying price, strike): when [_calc_BS] returns, it also returns
    after both are multiplied by [lam <> 0], with the same [d1] and [d2] and
    with [px_call], [px_put] and [px] multiplied by [lam]. *)
Theorem European_BS_homogeneous (N : R -> R) (self o : OptionValuation)
  (lam : R) :
  lam <> 0 -> European_calc_BS N self = Ok o ->
  exists o',
    European_calc_BS N (rescaled self lam) = Ok o'
    /\ d1 (px_spec o') = d1 (px_spec o) /\ d2 (px_spec o') = d2 (px_spec o)
    /\ px_call (px_spec o') = option_map (Rmult lam) (px_call (px_spec o))
    /\ px_put (px_spec o') = option_map (Rmult lam) (px_put (px_spec o))
    /\ px (px_spec o') = option_map (Rmult lam) (px (px_spec o)).
Proof.
  intros Hl H.
  destruct (European_calc_BS_cases N self)
    as [(HK & E)|[(HK & Hr & E)|[(HK & Hr & HT & E)
        |[(HK & Hr & HT & Hz & E)|(HK & Hr & HT & Hv & _)]]]];
    try (rewrite E in H; discriminate).
  pose proof (European_calc_BS_Ok N self HK Hr HT Hv) as E1. cbv zeta in E1.
  rewrite E1 in H. injection H as <-.
  assert (Er : lam * S0 (ref self) / (lam * K self) = S0 (ref self) / K self)
    by (field; split; assumption).
  assert (HK' : K (rescaled self lam) <> 0)
    by (simpl; apply Rmult_integral_contrapositive_currified; assumption).
  assert (Hr' : 0 < S0 (ref (rescaled self lam)) / K (rescaled self lam))
    by (simpl; rewrite Er; assumption).
  pose proof (European_calc_BS_Ok N (rescaled self lam) HK' Hr' HT Hv) as E2.
  cbv zeta in E2. eexists. split; [exact E2|].
  change (signCP (rescaled self lam)) with (signCP self).
  cbn [rescaled set_px_spec add_BS px_spec d1 d2 px_call px_put px ref S0 K T
       vol q rf_r option_map].
  rewrite Er. cbn [pow].
  split; [reflexivity|]. split; [reflexivity|].
  split; [f_equal; ring|]. split; [f_equal; ring|].
  destruct (signCP self) as [s|]; [|reflexivity].
  destruct (Reqb s 1); [simpl; f_equal; ring|].
  destruct (Reqb s (-1)); [simpl; f_equal; ring|reflexivity].
Qed.

Lemma European_BS_homogeneous_witness :
  let N := fun x => 1 / 2 + atan x / PI in
  let self :=
    {| ref := {| S0 := 42; vol := 0.2; q := 0 |};
       right := "put"; K := 40; T := 0.5; rf_r := 0.1;
       px_spec := new_PriceSpec BS None None false |} in
  exists o o',
    European_calc_BS N self = Ok o
    /\ European_calc_BS N (rescaled self 100) = Ok o'
    /\ d1 (px_spec o') = d1 (px_spec o) /\ d2 (px_spec o') = d2 (px_spec o)
    /\ px_call (px_spec o') = option_map (Rmult 100) (px_call (px_spec o))
    /\ px_put (px_spec o') = option_map (Rmult 100) (px_put (px_spec o))
    /\ px (px_spec o') = option_map (Rmult 100) (px (px_spec o)).
Proof.
  intros N self.
  assert (HK : K self <> 0) by (simpl; lra).
  assert (Hr : 0 < S0 (ref self) / K self) by (simpl; lra).
  assert (HT : 0 < T self) by (simpl; lra).
  assert (Hv : vol (ref self) <> 0) by (simpl; lra).
  assert (Hl : 100 <> 0) by lra.
  pose proof (European_calc_BS_Ok N self HK Hr HT Hv) as E. cbv zeta in E.
  destruct (European_BS_homogeneous N self _ 100 Hl E) as (o' & H).
  eexists. exists o'. split; [exact E|exact H].
Defined.

(** X3.  For every [N] with values in [[0, 1]] and non-negative [S0] and
    [K], the call price that [_calc_BS] stores is at most the discounted
    underlying price [S0*e^(-q T)] and the put price at most the discounted
    strike [K*e^(-r T)]; neither is below the negative of the other bound. *)
Theorem European_BS_price_bounds (N : R -> R) (self o : OptionValuation) :
  (forall x, 0 <= N x <= 1) -> 0 <= S0 (ref self) -> 0 <= K self ->
  European_calc_BS N self = Ok o ->
  exists c pt,
    px_call (px_spec o) = Some c /\ px_put (px_spec o) = Some pt
    /\ - (K self * exp (- rf_r self * T self)) <= c
       <= S0 (ref self) * exp (- q (ref self) * T self)
    /\ - (S0 (ref self) * exp (- q (ref self) * T self)) <= pt
       <= K self * exp (- rf_r self * T self).
Proof.
  intros HN HS HK0 H.
  destruct (European_calc_BS_cases N self)
    as [(HK & E)|[(HK & Hr & E)|[(HK & Hr & HT & E)
        |[(HK & Hr & HT & Hz & E)|(HK & Hr & HT & Hv & _)]]]];
    try (rewrite E in H; discriminate).
  pose proof (European_calc_BS_Ok N self HK Hr HT Hv) as E1. cbv zeta in E1.
  rewrite E1 in H. injection H as <-.
  do 2 eexists. split; [reflexivity|]. split; [reflexivity|].
  set (x1 := (ln _ + _) / _). set (x2 := x1 - _).
  assert (HA : 0 <= S0 (ref self) * exp (- q (ref self) * T self))
    by (apply Rmult_le_pos; [assumption|apply Rlt_le, exp_pos]).
  assert (HB : 0 <= K self * exp (- rf_r self * T self))
    by (apply Rmult_le_pos; [assumption|apply Rlt_le, exp_pos]).
  pose proof (HN x1) as H1. pose proof (HN x2) as H2.
  pose proof (HN (- x1)) as H3. pose proof (HN (- x2)) as H4.
  set (A := S0 (ref self) * exp (- q (ref self) * T self)) in *.
  set (B := K self * exp (- rf_r self * T self)) in *.
  replace (- S0 (ref self) * exp (- q (ref self) * T self) * N (- x1))
    with (- (A * N (- x1))) by (unfold A; ring).
  clearbody A B x1 x2. repeat split; nra.
Qed.

Lemma European_BS_price_bounds_witness :
  let N := fun x => 1 / 2 + atan x / PI in
  let self :=
    {| ref := {| S0 := 42; vol := 0.2; q := 0 |};
       right := "call"; K := 40; T := 0.5; rf_r := 0.1;
       px_spec := new_PriceSpec BS None None false |} in
  exists o c pt,
    European_calc_BS N self = Ok o
    /\ px_call (px_spec o) = Some c /\ px_put (px_spec o) = Some pt
    /\ - (K self * exp (- rf_r self * T self)) <= c
       <= S0 (ref self) * exp (- q (ref self) * T self)
    /\ - (S0 (ref self) * exp (- q (ref self) * T self)) <= pt
       <= K self * exp (- rf_r self * T self).
Proof.
  intros N self.
  assert (HK : K self <> 0) by (simpl; lra).
  assert (Hr : 0 < S0 (ref self) / K self) by (simpl; lra).
  assert (HT : 0 < T self) by (simpl; lra).
  assert (Hv : vol (ref self) <> 0) by (simpl; lra).
  assert (HS : 0 <= S0 (ref self)) by (simpl; lra).
  assert (HK0 : 0 <= K self) by (simpl; lra).
  assert (HN : forall x, 0 <= N x <= 1).
  { intros x. unfold N. pose proof (atan_bound x) as Hb.
    pose proof PI_RGT_0 as Hpi.
    assert (E : atan x / PI = atan x * / PI) by reflexivity.
    assert (Hi : 0 < / PI) by (apply Rinv_0_lt_compat; lra).
    assert (Hpp : PI * / PI = 1) by (apply Rinv_r; lra).
    rewrite E. split; nra. }
  pose proof (European_calc_BS_Ok N self HK Hr HT Hv) as E. cbv zeta in E.
  destruct (European_BS_price_bounds N self _ HN HS HK0 E) as (c & pt & H).
  eexists. exists c, pt. split; [exact E|exact H].
Defined.

(** ** The grid vectors and the interpolation *)

(** Sample [j] of [np.linspace(a, b, num)]. *)
Lemma nth_linspace (a b : R) (num j : nat) :
  (2 <= num)%nat -> (j < num)%nat ->
  nth j (linspace a b num) 0 = INR j * ((b - a) / INR (num - 1)) + a.
Proof.
  intros HP Hj. unfold linspace.
  destruct num as [|[|m]]; try lia.
  replace (S (S m) - 1)%nat with (S m) by lia.
  assert (Hm : INR (S m) <> 0) by (apply not_0_INR; lia).
  destruct (Nat.lt_ge_cases j (S m)) as [Hlt|Hge].
  - rewrite app_nth1 by (rewrite length_map, length_seq; lia).
    now rewrite nth_map_seq by lia.
  - assert (j = S m) by lia. subst j.
    rewrite app_nth2 by (rewrite length_map, length_seq; lia).
    rewrite length_map, length_seq, Nat.sub_diag. cbn [nth]. field. assumption.
Qed.

Lemma nth_S_vec (s0 : R) (px_paths j : nat) :
  (2 <= px_paths)%nat -> (j < px_paths)%nat ->
  nth j (S_vec s0 px_paths) 0 = INR j * (s0 * 2 / INR (px_paths - 1)).
Proof.
  intros HP Hj. unfold S_vec, S_min, S_max. rewrite nth_linspace by assumption.
  unfold Rdiv. ring.
Qed.

Lemma nth_t_vec (ttm : R) (time_steps i : nat) :
  (2 <= time_steps)%nat -> (i < time_steps)%nat ->
  nth i (t_vec ttm time_steps) 0 = INR i * (ttm / INR (time_steps - 1)).
Proof.
  intros HP Hj. unfold t_vec. rewrite nth_linspace by assumption.
  unfold Rdiv. ring.
Qed.

Lemma increasing_S_vec (s0 : R) (px_paths : nat) :
  0 < s0 -> (2 <= px_paths)%nat -> increasing (S_vec s0 px_paths).
Proof.
  intros Hs HP i j Hij Hj. rewrite length_S_vec in Hj.
  rewrite !nth_S_vec by lia.
  apply Rmult_lt_compat_r; [|apply lt_INR; assumption].
  apply Rdiv_lt_0_compat; [lra|]. apply lt_0_INR. lia.
Qed.

Lemma increasing_tl (x0 : R) (xp : list R) :
  increasing (x0 :: xp) -> increasing xp.
Proof.
  intros H i j Hij Hj. apply (H (S i) (S j)); simpl; lia.
Qed.

Lemma increasing_head (x0 : R) (xp : list R) (k : nat) :
  increasing (x0 :: xp) -> (k < length xp)%nat -> x0 < nth k xp 0.
Proof.
  intros H Hk. apply (H 0%nat (S k)); simpl; lia.
Qed.

Lemma interp_scan_step (x x0 x1 f0 f1 : R) (xp fp : list R) :
  interp_scan x (x0 :: x1 :: xp) (f0 :: f1 :: fp)
  = if Rltb x x1 then (f1 - f0) / (x1 - x0) * (x - x0) + f0
    else interp_scan x (x1 :: xp) (f1 :: fp).
Proof. reflexivity. Qed.

(** At a sample, [np.interp] returns the value given there. *)
Lemma interp_scan_node (xp : list R) :
  forall (fp : list R) (k : nat),
    length fp = length xp -> (k < length xp)%nat -> increasing xp ->
    interp_scan (nth k xp 0) xp fp = nth k fp 0.
Proof.
  induction xp as [|x0 xp IH]; intros fp k L Hk Hinc; [simpl in Hk; lia|].
  destruct fp as [|f0 fp]; [discriminate|].
  destruct xp as [|x1 xp].
  - destruct fp; [|discriminate]. simpl in Hk.
    assert (k = 0%nat) by lia. subst k. reflexivity.
  - destruct fp as [|f1 fp]; [discriminate|].
    pose proof (increasing_head x0 (x1 :: xp) 0 Hinc ltac:(simpl; lia)) as H01.
    cbn [nth] in H01.
    destruct k as [|k].
    + cbn [nth]. rewrite interp_scan_step, Rltb_true by assumption.
      field. lra.
    + change (nth (S k) (x0 :: x1 :: xp) 0) with (nth k (x1 :: xp) 0).
      change (nth (S k) (f0 :: f1 :: fp) 0) with (nth k (f1 :: fp) 0).
      assert (Hge : x1 <= nth k (x1 :: xp) 0).
      { destruct k as [|k]; [simpl; lra|].
        apply Rlt_le.
        apply (increasing_head x1 xp k (increasing_tl _ _ Hinc)).
        simpl in Hk. lia. }
      rewrite interp_scan_step, Rltb_false by assumption.
      apply IH; [simpl in *; lia|simpl in *; lia|].
      now apply increasing_tl in Hinc.
Qed.

Lemma interp_node (xp fp : list R) (k : nat) :
  length fp = length xp -> (k < length xp)%nat -> increasing xp ->
  interp (nth k xp 0) xp fp = nth k fp 0.
Proof.
  intros L Hk Hinc. unfold interp.
  destruct xp as [|x0 xp]; [simpl in Hk; lia|].
  destruct fp as [|f0 fp]; [discriminate|].
  assert (Hge : x0 <= nth k (x0 :: xp) 0).
  { destruct k as [|k]; [simpl; lra|]. apply Rlt_le.
    apply (increasing_head x0 xp k Hinc). simpl in Hk. lia. }
  rewrite Rltb_false by assumption.
  now apply interp_scan_node.
Qed.

(** The middle sample of an odd number of price levels is [S0], and the
    interpolation at [S0] reads the grid there. *)
Lemma FD_price_of_mid (s0 : R) (px_paths time_steps k : nat) (f : matrix) :
  0 < s0 -> (1 <= k)%nat -> px_paths = (2 * k + 1)%nat ->
  shaped px_paths time_steps f ->
  nth k (S_vec s0 px_paths) 0 = s0 /\ FD_price_of s0 px_paths f = get f k 0.
Proof.
  intros Hs Hk HP Hsh.
  assert (E : nth k (S_vec s0 px_paths) 0 = s0).
  { rewrite nth_S_vec by lia.
    replace (px_paths - 1)%nat with (2 * k)%nat by lia.
    rewrite mult_INR. simpl INR.
    assert (INR k <> 0) by (apply not_0_INR; lia). field. assumption. }
  split; [exact E|]. unfold FD_price_of.
  pose proof (shaped_length _ _ _ Hsh) as Lf.
  replace (interp s0 (S_vec s0 px_paths) (col f 0))
    with (interp (nth k (S_vec s0 px_paths) 0) (S_vec s0 px_paths) (col f 0))
    by (now rewrite E).
  rewrite interp_node.
  - apply nth_col. lia.
  - now rewrite length_col, length_S_vec.
  - rewrite length_S_vec. lia.
  - apply increasing_S_vec; [assumption|lia].
Qed.

(** X12.  With an odd number of price levels [npaths = 2k + 1] and
    [S0 > 0] the underlying price is the middle sample of
    [S_vec = linspace(0, 2*S0, npaths)], so the interpolation at the end of
    [_calc_FD] returns the grid value [f_px[k, 0]] itself; with the default
    [npaths = 3] that is the one interior level. *)
Theorem FD_price_at_node (is_call : bool) (s0 sigma ttm r qd : R)
  (px_paths time_steps k : nat) (f : matrix) :
  (2 <= time_steps)%nat -> 0 < s0 -> (1 <= k)%nat ->
  px_paths = (2 * k + 1)%nat ->
  FD_grid is_call s0 sigma ttm r qd px_paths time_steps = Ok f ->
  nth k (S_vec s0 px_paths) 0 = s0
  /\ FD_price is_call s0 sigma ttm r qd px_paths time_steps = Ok (get f k 0).
Proof.
  intros HT Hs Hk HP Hgrid.
  assert (HP3 : (3 <= px_paths)%nat) by lia.
  destruct (FD_grid_spec is_call s0 sigma ttm r qd px_paths time_steps HP3 HT
              f Hgrid) as ([Hsh _] & _ & _).
  destruct (FD_price_of_mid s0 px_paths time_steps k f Hs Hk HP Hsh) as [E Ep].
  split; [exact E|].
  unfold FD_price. rewrite Hgrid. cbn [bind]. now rewrite Ep.
Qed.

Lemma FD_price_at_node_witness :
  exists f,
    FD_grid true 5 0.4 4 0.1 0 11 4 = Ok f
    /\ nth 5 (S_vec 5 11) 0 = 5
    /\ FD_price true 5 0.4 4 0.1 0 11 4 = Ok (get f 5 0).
Proof.
  assert (HP : (3 <= 11)%nat) by lia.
  assert (HT : (2 <= 4)%nat) by lia.
  destruct (FD_grid_total true 5 0.4 4 0.1 0 11 4 HP HT) as [f Hf].
  - apply FD_dominant_drift; try lia; try lra.
    rewrite Rabs_pos_eq; simpl; lra.
  - exists f. split; [exact Hf|].
    apply (FD_price_at_node true 5 0.4 4 0.1 0 11 4 5 f); try lia; try lra.
    exact Hf.
Defined.

(** ** The boundary values of the final grid *)

Lemma nth_init_cond_call (s0 : R) (px_paths j : nat) :
  (2 <= px_paths)%nat -> (j < px_paths)%nat -> 0 <= s0 ->
  nth j (init_cond true s0 px_paths) 0
  = Rmax (INR j * (s0 * 2 / INR (px_paths - 1)) - 1 / 100) 0.
Proof.
  intros HP Hj Hs. unfold init_cond.
  rewrite nth_map_R by (now rewrite length_S_vec).
  rewrite nth_S_vec by assumption. unfold FD_K, FD_K2.
  rewrite Rleb_true; [simpl; ring|].
  apply Rmult_le_pos; [apply pos_INR|].
  apply Rmult_le_pos; [lra|]. apply Rlt_le, Rinv_0_lt_compat, lt_0_INR. lia.
Qed.

(** X13.  The grid that [_calc_FD] ends with for a call with [S0 >= 0] has
    [npaths] rows and [nsteps] columns and still holds the conditions set
    before the loop: zero on the row of price 0, the discounted payoff
    [max(2*S0 - 0.01, 0) * e^(-r*(T - t_i))] on the row of price [2*S0], and
    the payoff [max(S_j - 0.01, 0)] with [S_j = j*2*S0/M] in the column of
    maturity. *)
Theorem FD_call_grid_boundary (s0 sigma ttm r qd : R)
  (px_paths time_steps : nat) (f : matrix) :
  (3 <= px_paths)%nat -> (2 <= time_steps)%nat -> 0 <= s0 ->
  FD_grid true s0 sigma ttm r qd px_paths time_steps = Ok f ->
  shaped px_paths time_steps f
  /\ (forall i, (i < time_steps)%nat ->
        get f 0 i = 0
        /\ get f (px_paths - 1) i
           = Rmax (s0 * 2 - 1 / 100) 0
             * exp (- r * (ttm - INR i * (ttm / INR (time_steps - 1)))))
  /\ (forall j, (j < px_paths)%nat ->
        get f j (time_steps - 1)
        = Rmax (INR j * (s0 * 2 / INR (px_paths - 1)) - 1 / 100) 0).
Proof.
  intros HP HT Hs Hgrid.
  destruct (FD_grid_spec true s0 sigma ttm r qd px_paths time_steps HP HT
              f Hgrid) as ([Hsh _] & _ & _).
  pose proof (FD_grid_boundary true s0 sigma ttm r qd px_paths time_steps
                HP HT f Hgrid) as Hb.
  assert (Hrows : forall i, (i < time_steps)%nat ->
            get f 0 i = 0
            /\ get f (px_paths - 1) i
               = Rmax (s0 * 2 - 1 / 100) 0
                 * exp (- r * (ttm - INR i * (ttm / INR (time_steps - 1))))).
  { intros i Hi. split.
    - destruct (Hb 0%nat i ltac:(lia) Hi) as (H0 & _ & _).
      rewrite (H0 eq_refl). apply nth_upper_bound_call.
    - destruct (Hb (px_paths - 1)%nat i ltac:(lia) Hi) as (_ & HM & _).
      rewrite (HM eq_refl), nth_lower_bound_call by (assumption || lia).
      now rewrite nth_t_vec by assumption. }
  split; [exact Hsh|]. split; [exact Hrows|].
  intros j Hj.
  assert (HN : INR (time_steps - 1) <> 0) by (apply not_0_INR; lia).
  assert (HM : INR (px_paths - 1) <> 0) by (apply not_0_INR; lia).
  destruct (Nat.eq_dec j 0) as [->|Hj0];
    [|destruct (Nat.eq_dec j (px_paths - 1)) as [->|HjM]].
  - rewrite (proj1 (Hrows (time_steps - 1)%nat ltac:(lia))).
    simpl INR. rewrite Rmax_right; lra.
  - rewrite (proj2 (Hrows (time_steps - 1)%nat ltac:(lia))).
    replace (ttm - INR (time_steps - 1) * (ttm / INR (time_steps - 1)))
      with 0 by (field; assumption).
    rewrite Rmult_0_r, exp_0.
    replace (INR (px_paths - 1) * (s0 * 2 / INR (px_paths - 1)))
      with (s0 * 2) by (field; assumption).
    ring.
  - destruct (Hb j (time_steps - 1)%nat Hj ltac:(lia)) as (_ & _ & Hin).
    rewrite Hin by (unfold FD_M, FD_N; lia || reflexivity).
    now apply nth_init_cond_call; try lia.
Qed.

Lemma FD_call_grid_boundary_witness :
  exists f,
    FD_grid true 5 0.4 4 0.1 0 11 4 = Ok f
    /\ shaped 11 4 f
    /\ (forall i, (i < 4)%nat ->
          get f 0 i = 0
          /\ get f (11 - 1) i
             = Rmax (5 * 2 - 1 / 100) 0
               * exp (- (0.1) * (4 - INR i * (4 / INR (4 - 1)))))
    /\ (forall j, (j < 11)%nat ->
          get f j (4 - 1)
          = Rmax (INR j * (5 * 2 / INR (11 - 1)) - 1 / 100) 0).
Proof.
  assert (HP : (3 <= 11)%nat) by lia.
  assert (HT : (2 <= 4)%nat) by lia.
  destruct (FD_grid_total true 5 0.4 4 0.1 0 11 4 HP HT) as [f Hf].
  - apply FD_dominant_drift; try lia; try lra.
    rewrite Rabs_pos_eq; simpl; lra.
  - exists f. split; [exact Hf|].
    apply (FD_call_grid_boundary 5 0.4 4 0.1 0 11 4 f HP HT); [lra|exact Hf].
Defined.

(** ** The counts of steps and of price levels *)

Lemma FD_shape_valid (px_paths time_steps : Z) :
  (3 <= px_paths)%Z -> (2 <= time_steps)%Z ->
  FD_shape px_paths time_steps = Ok (Z.to_nat px_paths, Z.to_nat time_steps).
Proof.
  intros HP HT. unfold FD_shape.
  repeat match goal with
         | |- context [(?a =? ?b)%Z] => destruct (Z.eqb_spec a b); try lia
         | |- context [(?a <? ?b)%Z] => destruct (Z.ltb_spec a b); try lia
         end.
  reflexivity.
Qed.

(** X14.  [_calc_FD] divides by [npaths - 1] and by [nsteps - 1] before it
    builds the grid: once the assertions have passed it raises
    [ZeroDivisionError] exactly when [npaths = 1] or [nsteps = 1]. *)
Theorem LowExercisePrice_calc_FD_zero_division (self : OptionValuation) :
  FD_preconditions self ->
  (LowExercisePrice_calc_FD self = Raise ZeroDivisionError
   <-> getattr (npaths (px_spec self)) 3%Z = 1%Z
       \/ getattr (nsteps (px_spec self)) 3%Z = 1%Z).
Proof.
  intros Hpre. rewrite (LowExercisePrice_calc_FD_passed self Hpre).
  set (np := getattr (npaths (px_spec self)) 3%Z).
  set (ns := getattr (nsteps (px_spec self)) 3%Z).
  unfold FD_shape.
  destruct (Z.eqb_spec (np - 1) 0); [cbn [bind]; split; [lia|reflexivity]|].
  destruct (Z.eqb_spec (ns - 1) 0); [cbn [bind]; split; [lia|reflexivity]|].
  assert (Hno : ~ (np = 1%Z \/ ns = 1%Z)) by lia.
  destruct (Z.ltb_spec np 0); [cbn [bind]; split; [discriminate|tauto]|].
  destruct (Z.ltb_spec ns 0); [cbn [bind]; split; [discriminate|tauto]|].
  destruct (Z.eqb_spec ns 0); [cbn [bind]; split; [discriminate|tauto]|].
  destruct (Z.eqb_spec np 0); [cbn [bind]; split; [discriminate|tauto]|].
  destruct (Z.eqb_spec np 2); [cbn [bind]; split; [discriminate|tauto]|].
  cbn [bind fst snd].
  destruct (FD_price _ _ _ _ _ _ _ _) as [out|e] eqn:Ep; cbn [bind].
  - split; [discriminate|tauto].
  - apply FD_price_raises in Ep. subst e. split; [discriminate|tauto].
Qed.

Lemma LowExercisePrice_calc_FD_zero_division_witness :
  let self :=
    {| ref := {| S0 := 5; vol := 0.3; q := 0 |};
       right := "call"; K := 1 / 100; T := 4; rf_r := 0.1;
       px_spec := new_PriceSpec FD (Some 1%Z) (Some 10%Z) false |} in
  LowExercisePrice_calc_FD self = Raise ZeroDivisionError.
Proof.
  intros self.
  apply (proj2 (LowExercisePrice_calc_FD_zero_division self
                  ltac:(unfold FD_preconditions; simpl; repeat split;
                        (lra || auto)))).
  right. reflexivity.
Defined.

(** X15.  [_calc_FD] returns the object with a price added whenever the
    six asserted preconditions hold, [nsteps >= 2] and either the grid has
    the default three price levels or it has more and [|r - q| <= vol^2]:
    the matrix [B] is then row dominant and no solve fails. *)
Theorem LowExercisePrice_calc_FD_returns (self : OptionValuation) :
  FD_preconditions self ->
  (2 <= getattr (nsteps (px_spec self)) 3)%Z ->
  getattr (npaths (px_spec self)) 3%Z = 3%Z
  \/ ((3 <= getattr (npaths (px_spec self)) 3)%Z
      /\ Rabs (rf_r self - q (ref self)) <= vol (ref self) ^ 2) ->
  exists v,
    LowExercisePrice_calc_FD self
    = Ok (set_px_spec self (add_FD (px_spec self) v "Implicit Method")).
Proof.
  intros Hpre Hns Hnp.
  rewrite (LowExercisePrice_calc_FD_passed self Hpre).
  destruct Hpre as (_ & Hv & _ & HT & _ & Hr).
  set (np := getattr (npaths (px_spec self)) 3%Z) in *.
  set (ns := getattr (nsteps (px_spec self)) 3%Z) in *.
  assert (HP3 : (3 <= np)%Z) by (destruct Hnp as [->|[H _]]; lia).
  rewrite FD_shape_valid by assumption. cbn [bind fst snd].
  assert (HP : (3 <= Z.to_nat np)%nat) by lia.
  assert (HS : (2 <= Z.to_nat ns)%nat) by lia.
  assert (Hdom : FD_dominant (vol (ref self)) (T self) (rf_r self) (q (ref self))
                   (Z.to_nat np) (Z.to_nat ns)).
  { destruct Hnp as [E|[_ Hd]].
    - apply FD_dominant_single; try assumption. rewrite E. reflexivity.
    - apply FD_dominant_drift; assumption. }
  destruct (FD_grid_total (String.eqb (right self) "call") (S0 (ref self))
              (vol (ref self)) (T self) (rf_r self) (q (ref self))
              (Z.to_nat np) (Z.to_nat ns) HP HS Hdom) as [f Hf].
  unfold FD_price. rewrite Hf. cbn [bind]. eexists. reflexivity.
Qed.

Lemma LowExercisePrice_calc_FD_returns_witness :
  let self :=
    {| ref := {| S0 := 5; vol := 0.3; q := 0.2 |};
       right := "call"; K := 1 / 100; T := 4; rf_r := 0.1;
       px_spec := new_PriceSpec FD None None false |} in
  exists v,
    LowExercisePrice_calc_FD self
    = Ok (set_px_spec self (add_FD (px_spec self) v "Implicit Method")).
Proof.
  intros self.
  apply (LowExercisePrice_calc_FD_returns self).
  - unfold FD_preconditions. simpl. repeat split; (lra || auto).
  - simpl. lia.
  - left. reflexivity.
Defined.

(** ** A put on the default grid *)

(** With three price levels the one interior value of a put stays zero:
    the payoff of the put is zero at every positive price, the boundary at
    [2*S0] is zero, and the boundary at price 0 never enters the system. *)
Lemma FD_put_interior_zero (s0 sigma ttm r qd : R) (time_steps : nat)
  (f : matrix) :
  (2 <= time_steps)%nat -> 0 < s0 -> 0 <= r -> 0 < ttm ->
  FD_grid false s0 sigma ttm r qd 3 time_steps = Ok f ->
  forall i, (i < time_steps)%nat -> get f 1 i = 0.
Proof.
  intros HT Hs Hr Ht Hgrid.
  assert (HP : (3 <= 3)%nat) by lia.
  pose proof (FD_grid_boundary false s0 sigma ttm r qd 3 time_steps HP HT
                f Hgrid) as Hb.
  pose proof (FD_scheme_single false s0 sigma ttm r qd 3 time_steps HP HT
                f Hgrid) as Hsch.
  assert (Hrow2 : forall i, (i < time_steps)%nat -> get f 2 i = 0).
  { intros i Hi. destruct (Hb 2%nat i ltac:(lia) Hi) as (_ & HM & _).
    rewrite (HM eq_refl). unfold lower_bound. now apply nth_repeat_lt. }
  assert (Hterm : get f 1 (time_steps - 1) = 0).
  { destruct (Hb 1%nat (time_steps - 1)%nat ltac:(lia) ltac:(lia))
      as (_ & _ & Hin).
    rewrite Hin by (unfold FD_M, FD_N; lia || reflexivity).
    unfold init_cond. rewrite nth_map_R by (rewrite length_S_vec; lia).
    rewrite nth_S_vec by lia. simpl Nat.sub. simpl INR. unfold FD_K2.
    rewrite Rleb_false by lra. simpl. ring. }
  assert (Hb1 : 0 < b_coef sigma ttm r time_steps 1).
  { unfold b_coef, d_t. simpl INR.
    assert (0 < INR (time_steps - 1)) by (apply lt_0_INR; lia).
    assert (0 < ttm / INR (time_steps - 1)) by (now apply Rdiv_lt_0_compat).
    assert (0 <= sigma ^ 2 * 1 ^ 2 + r) by nra.
    nra. }
  assert (Hdown : forall k, (k <= time_steps - 1)%nat ->
            get f 1 (time_steps - 1 - k) = 0).
  { induction k as [|k IH]; intros Hk.
    - now rewrite Nat.sub_0_r.
    - pose proof (Hsch (time_steps - 1 - S k)%nat eq_refl
                    ltac:(unfold FD_N; lia)) as E.
      replace (time_steps - 1 - S k + 1)%nat with (time_steps - 1 - k)%nat in E
        by lia.
      rewrite IH, Hrow2 in E by lia.
      rewrite Rmult_0_r, Rplus_0_r in E.
      apply Rmult_integral in E. destruct E as [E|E]; [lra|exact E]. }
  intros i Hi.
  replace i with (time_steps - 1 - (time_steps - 1 - i))%nat by lia.
  apply Hdown. lia.
Qed.

(** X16.  Called on a put (which [calc_px] never does) with the default
    three price levels, [_calc_FD] stores the price 0 for every [S0 > 0],
    whatever the volatility, the rates and the maturity. *)
Theorem LowExercisePrice_calc_FD_put_default (self : OptionValuation) :
  FD_preconditions self -> right self = "put"%string -> 0 < S0 (ref self) ->
  getattr (npaths (px_spec self)) 3%Z = 3%Z ->
  (2 <= getattr (nsteps (px_spec self)) 3)%Z ->
  LowExercisePrice_calc_FD self
  = Ok (set_px_spec self (add_FD (px_spec self) 0 "Implicit Method")).
Proof.
  intros Hpre Hput Hs Hnp Hns.
  rewrite (LowExercisePrice_calc_FD_passed self Hpre).
  destruct Hpre as (_ & Hv & _ & HT & _ & Hr).
  rewrite Hnp, Hput.
  set (ns := getattr (nsteps (px_spec self)) 3%Z) in *.
  rewrite FD_shape_valid by lia. cbn [bind fst snd].
  change (String.eqb "put" "call") with false.
  change (Z.to_nat 3) with 3%nat.
  assert (HP : (3 <= 3)%nat) by lia.
  assert (HS : (2 <= Z.to_nat ns)%nat) by lia.
  destruct (FD_grid_total false (S0 (ref self)) (vol (ref self)) (T self)
              (rf_r self) (q (ref self)) 3 (Z.to_nat ns) HP HS) as [f Hf].
  { apply FD_dominant_single; try assumption. reflexivity. }
  destruct (FD_grid_spec false (S0 (ref self)) (vol (ref self)) (T self)
              (rf_r self) (q (ref self)) 3 (Z.to_nat ns) HP HS f Hf)
    as ([Hsh _] & _ & _).
  destruct (FD_price_of_mid (S0 (ref self)) 3 (Z.to_nat ns) 1 f Hs
              ltac:(lia) eq_refl Hsh) as [_ Ep].
  unfold FD_price. rewrite Hf. cbn [bind]. rewrite Ep.
  rewrite (FD_put_interior_zero _ _ _ _ _ _ f HS Hs Hr HT Hf) by lia.
  reflexivity.
Qed.

Lemma LowExercisePrice_calc_FD_put_default_witness :
  let self :=
    {| ref := {| S0 := 5; vol := 0.3; q := 0.2 |};
       right := "put"; K := 40; T := 4; rf_r := 0.1;
       px_spec := new_PriceSpec FD (Some 5%Z) None false |} in
  LowExercisePrice_calc_FD self
  = Ok (set_px_spec self (add_FD (px_spec self) 0 "Implicit Method")).
Proof.
  intros self.
  apply (LowExercisePrice_calc_FD_put_default self).
  - unfold FD_preconditions. simpl. repeat split; (lra || auto).
  - reflexivity.
  - simpl. lra.
  - reflexivity.
  - simpl. lia.
Defined.

(** ** The dispatch and the methods without a body *)

Lemma European_calc_LT_px (self o : OptionValuation) :
  European_calc_LT self = Ok o -> px (px_spec o) <> None.
Proof.
  unfold European_calc_LT.
  destruct (LT_specs self _) as [sp|e]; cbn [bind]; [|discriminate].
  destruct (signCP self) as [sgn|]; cbn [bind]; [|discriminate].
  destruct (European_LT_price _ _ _ _ _ _) as [[[out St] Ot]|e]; cbn [bind];
    [|discriminate].
  intros H. injection H as <-. discriminate.
Qed.

Lemma LowExercisePrice_calc_LT_px (self o : OptionValuation) :
  LowExercisePrice_calc_LT self = Ok o ->
  px (px_spec o) <> None /\ K o = K self /\ right o = right self.
Proof.
  unfold LowExercisePrice_calc_LT.
  destruct (LT_specs self _) as [sp|e]; cbn [bind]; [|discriminate].
  destruct (LowExercisePrice_LT_price _ _ _ _) as [[[out St] Ot]|e];
    cbn [bind]; [|discriminate].
  intros H. injection H as <-. repeat split. discriminate.
Qed.

Lemma LowExercisePrice_calc_FD_px (self o : OptionValuation) :
  LowExercisePrice_calc_FD self = Ok o ->
  px (px_spec o) <> None /\ K o = K self /\ right o = right self.
Proof.
  unfold LowExercisePrice_calc_FD, LowExercisePrice_calc_FD_with. intros H.
  repeat match type of H with
         | context [py_assert ?c _] =>
             destruct c; cbn [py_assert bind] in H; [|discriminate]
         end.
  destruct (FD_shape _ _) as [shape|e]; cbn [bind] in H; [|discriminate].
  destruct (FD_price _ _ _ _ _ _ _ _) as [out|e]; cbn [bind] in H;
    [|discriminate].
  injection H as <-. repeat split. discriminate.
Qed.

Lemma signCP_cases (self : OptionValuation) :
  signCP self = Some 1 \/ signCP self = Some (-1) \/ signCP self = None.
Proof.
  unfold signCP. destruct (String.eqb _ _); [now left|].
  destruct (String.eqb _ _); [right; now left|right; now right].
Qed.

(** X17.  Which methods of [European.calc_px] price.  [_calc_MC] and
    [_calc_FD] return the object as they got it: the call succeeds and stores
    no price.  When [calc_px] returns, a price is stored exactly for the
    method LT and for the method BS on a right that has a sign. *)
Theorem European_calc_px_prices (N : R -> R) (self o : OptionValuation)
  (m : Method) (ns np : option Z) (kh : bool) :
  European_calc_px N self m ns np kh = Ok o ->
  (px (px_spec o) <> None
   <-> (m = BS /\ signCP self <> None) \/ m = LT)
  /\ (m = MC \/ m = FD -> o = set_px_spec self (new_PriceSpec m ns np kh)).
Proof.
  unfold European_calc_px. intros H. destruct m.
  - split; [|intros [E|E]; discriminate].
    set (self' := set_px_spec self (new_PriceSpec BS ns np kh)) in *.
    destruct (European_calc_BS_cases N self')
      as [(HK & E)|[(HK & Hr & E)|[(HK & Hr & HT & E)
          |[(HK & Hr & HT & Hz & E)|(HK & Hr & HT & Hv & _)]]]];
      try (rewrite E in H; discriminate).
    pose proof (European_calc_BS_Ok N self' HK Hr HT Hv) as E1.
    cbv zeta in E1. rewrite E1 in H. injection H as <-.
    change (signCP self') with (signCP self).
    cbn [set_px_spec add_BS px_spec px].
    destruct (signCP_cases self) as [Es|[Es|Es]]; rewrite Es.
    + unfold Reqb. destruct (Req_dec_T 1 1); [|lra].
      split; [intros _; left; split; [reflexivity|discriminate]|discriminate].
    + unfold Reqb. destruct (Req_dec_T (-1) 1); [lra|].
      destruct (Req_dec_T (-1) (-1)); [|lra].
      split; [intros _; left; split; [reflexivity|discriminate]|discriminate].
    + split; [intros Hn; now elim Hn|].
      intros [[_ Hn]|Hn]; [now elim Hn|discriminate].
  - split; [|intros [E|E]; discriminate].
    apply European_calc_LT_px in H. split; [now right|intros _; exact H].
  - unfold European_calc_MC in H. injection H as <-.
    split; [|reflexivity]. cbn [set_px_spec new_PriceSpec px_spec px].
    split; [intros Hn; now elim Hn|intros [[E _]|E]; discriminate].
  - unfold European_calc_FD in H. injection H as <-.
    split; [|reflexivity]. cbn [set_px_spec new_PriceSpec px_spec px].
    split; [intros Hn; now elim Hn|intros [[E _]|E]; discriminate].
Qed.

Lemma European_calc_px_prices_witness :
  let N := fun x => 1 / 2 + atan x / PI in
  let self :=
    {| ref := {| S0 := 42; vol := 0.2; q := 0 |};
       right := "call"; K := 40; T := 0.5; rf_r := 0.1;
       px_spec := new_PriceSpec BS None None false |} in
  let o := set_px_spec self (new_PriceSpec MC (Some 5%Z) None false) in
  European_calc_px N self MC (Some 5%Z) None false = Ok o
  /\ (px (px_spec o) <> None
      <-> (MC = BS /\ signCP self <> None) \/ MC = LT)
  /\ (MC = MC \/ MC = FD
      -> o = set_px_spec self (new_PriceSpec MC (Some 5%Z) None false)).
Proof.
  intros N self o. split; [reflexivity|].
  apply (European_calc_px_prices N self o MC (Some 5%Z) None false).
  reflexivity.
Defined.

(** X18.  Which methods of [LowExercisePrice.calc_px] price.  [_calc_BS]
    and [_calc_MC] return the object as they got it.  When [calc_px]
    returns, a price is stored exactly for the methods LT and FD, and the
    object returned always has [K = 0.01] and [right = 'call']. *)
Theorem LowExercisePrice_calc_px_prices (self o : OptionValuation)
  (m : Method) (ns np : option Z) (kh : bool) :
  LowExercisePrice_calc_px self m ns np kh = Ok o ->
  (px (px_spec o) <> None <-> m = LT \/ m = FD)
  /\ K o = 1 / 100 /\ right o = "call"%string
  /\ (m = BS \/ m = MC ->
      o = set_px_spec (set_K_right self (1 / 100) "call")
            (new_PriceSpec m ns np kh)).
Proof.
  unfold LowExercisePrice_calc_px. intros H. destruct m.
  - unfold LowExercisePrice_calc_BS in H. injection H as <-.
    cbn [set_px_spec set_K_right new_PriceSpec px_spec px K right].
    repeat split; try (intros Hn; now elim Hn).
  - apply LowExercisePrice_calc_LT_px in H. destruct H as (Hp & HK & Hr).
    rewrite HK, Hr. cbn [set_px_spec set_K_right K right].
    repeat split; auto. intros [E|E]; discriminate.
  - unfold LowExercisePrice_calc_MC in H. injection H as <-.
    cbn [set_px_spec set_K_right new_PriceSpec px_spec px K right].
    repeat split; try (intros Hn; now elim Hn).
  - apply LowExercisePrice_calc_FD_px in H. destruct H as (Hp & HK & Hr).
    rewrite HK, Hr. cbn [set_px_spec set_K_right K right].
    repeat split; auto. intros [E|E]; discriminate.
Qed.

Lemma LowExercisePrice_calc_px_prices_witness :
  let self :=
    {| ref := {| S0 := 5; vol := 0.3; q := 0.2 |};
       right := "put"; K := 40; T := 4; rf_r := 0.1;
       px_spec := new_PriceSpec LT None None false |} in
  let o := set_px_spec (set_K_right self (1 / 100) "call")
             (new_PriceSpec BS None (Some 7%Z) true) in
  LowExercisePrice_calc_px self BS None (Some 7%Z) true = Ok o
  /\ (px (px_spec o) <> None <-> BS = LT \/ BS = FD)
  /\ K o = 1 / 100 /\ right o = "call"%string
  /\ (BS = BS \/ BS = MC ->
      o = set_px_spec (set_K_right self (1 / 100) "call")
            (new_PriceSpec BS None (Some 7%Z) true)).
Proof.
  intros self o. split; [reflexivity|].
  apply (LowExercisePrice_calc_px_prices self o BS None (Some 7%Z) true).
  reflexivity.
Defined.

(** ** Every node of the value tree *)

(** X19.  Every node of the value tree that [_calc_LT] stores with
    [keep_hist] is the discounted binomial expectation of the terminal
    payoffs that can still be reached from it: node [j] of step [i] holds
    [df_dt^(n-i) * sum_l C(n-i,l) p^l (1-p)^(n-i-l) * payoff(S_n[j+l])].
    [LowExercisePrice] stores the tree of the call struck at 0.01. *)
Theorem opt_tree_nodes (sp : LatticeSpecs) (s0 k sgn : R) (n : nat) :
  (exists out S_tree O_tree,
     European_LT_price sp s0 k sgn n true = Ok (out, S_tree, Some O_tree)
     /\ forall i j, (j <= i)%nat -> (i <= n)%nat ->
          nth j (nth i O_tree []) 0
          = df_dt sp ^ (n - i)
            * binomial_sum (n - i) (p sp)
                (fun l => payoff (node_price sp s0 n (j + l)) k sgn))
  /\ (exists out S_tree O_tree,
        LowExercisePrice_LT_price sp s0 n true = Ok (out, S_tree, Some O_tree)
        /\ forall i j, (j <= i)%nat -> (i <= n)%nat ->
             nth j (nth i O_tree []) 0
             = df_dt sp ^ (n - i)
               * binomial_sum (n - i) (p sp)
                   (fun l => payoff (node_price sp s0 n (j + l)) (1 / 100) 1)).
Proof.
  assert (H : forall k' sgn' i j, (j <= i)%nat -> (i <= n)%nat ->
            nth j (nth i (levels (roll_O sp) n
                            (European_O (European_S sp s0 n) k' sgn')
                          ++ [European_O (European_S sp s0 n) k' sgn']) []) 0
            = df_dt sp ^ (n - i)
              * binomial_sum (n - i) (p sp)
                  (fun l => payoff (node_price sp s0 n (j + l)) k' sgn')).
  { intros k' sgn' i j Hj Hi. rewrite nth_levels by assumption.
    rewrite nth_iter_roll_O
      by (rewrite length_European_O, length_European_S; lia).
    f_equal. apply binomial_sum_ext. intros l Hl.
    apply nth_European_O. lia. }
  split.
  - rewrite European_LT_price_keep. do 3 eexists.
    split; [reflexivity|]. apply H.
  - rewrite LowExercisePrice_LT_price_keep, LowExercisePrice_O_European.
    do 3 eexists. split; [reflexivity|]. apply H.
Qed.

(** ** Dependence on the underlying price *)

Lemma payoff_spot (s s' k : R) :
  s <= s' ->
  0 <= payoff s' k 1 - payoff s k 1 <= s' - s
  /\ 0 <= payoff s k (-1) - payoff s' k (-1) <= s' - s.
Proof. intros H. unfold payoff, Rmax. repeat destruct (Rle_dec _ _); lra. Qed.

(** X20.  On a lattice with [u, d >= 0], [0 <= p <= 1] and a non-negative
    discount [D], raising the underlying price from [S0] to [S0' >= S0]
    raises the call price of [European._calc_LT] and lowers the put price,
    each by at most [D * g^n * (S0' - S0)] with [g = p*u + (1-p)*d]. *)
Theorem European_LT_spot_monotone (sp : LatticeSpecs) (s0 s0' k : R) (n : nat)
  (keep : bool) :
  0 <= u sp -> 0 <= d sp -> 0 <= p sp <= 1 -> keep = true \/ 0 < p sp < 1 ->
  0 <= LT_discount sp n keep -> s0 <= s0' ->
  exists c c' pt pt',
    LT_out (European_LT_price sp s0 k 1 n keep) = Ok c
    /\ LT_out (European_LT_price sp s0' k 1 n keep) = Ok c'
    /\ LT_out (European_LT_price sp s0 k (-1) n keep) = Ok pt
    /\ LT_out (European_LT_price sp s0' k (-1) n keep) = Ok pt'
    /\ 0 <= c' - c <= LT_discount sp n keep * (growth sp ^ n * (s0' - s0))
    /\ 0 <= pt - pt' <= LT_discount sp n keep * (growth sp ^ n * (s0' - s0)).
Proof.
  intros Hu Hd Hp Hk HD Hss. rewrite !European_LT_out by assumption.
  do 4 eexists. do 4 (split; [reflexivity|]).
  set (D := LT_discount sp n keep) in *.
  set (a := fun sgn x i => payoff (node_price sp x n i) k sgn).
  change (0 <= D * binomial_sum n (p sp) (a 1 s0')
               - D * binomial_sum n (p sp) (a 1 s0)
          <= D * (growth sp ^ n * (s0' - s0))
          /\ 0 <= D * binomial_sum n (p sp) (a (-1) s0)
                  - D * binomial_sum n (p sp) (a (-1) s0')
             <= D * (growth sp ^ n * (s0' - s0))).
  assert (Hnode : forall i, node_price sp s0 n i <= node_price sp s0' n i).
  { intros i. unfold node_price. apply Rmult_le_compat_l; [|assumption].
    apply Rmult_le_pos; apply pow_le; assumption. }
  assert (Hs : forall i,
            0 <= a 1 s0' i - a 1 s0 i
            <= node_price sp s0' n i - node_price sp s0 n i
            /\ 0 <= a (-1) s0 i - a (-1) s0' i
               <= node_price sp s0' n i - node_price sp s0 n i)
    by (intros i; unfold a; apply payoff_spot, Hnode).
  assert (Hgap : binomial_sum n (p sp)
                   (fun i => node_price sp s0' n i - node_price sp s0 n i)
                 = growth sp ^ n * (s0' - s0)).
  { rewrite binomial_sum_minus, !binomial_sum_node_price. ring. }
  assert (Hup : forall f g,
            (forall i, f i <= g i + (node_price sp s0' n i - node_price sp s0 n i)) ->
            binomial_sum n (p sp) f
            <= binomial_sum n (p sp) g + growth sp ^ n * (s0' - s0)).
  { intros f g H. rewrite <- Hgap.
    apply Rle_trans
      with (binomial_sum n (p sp)
              (fun i => 1 * g i
                        + 1 * (node_price sp s0' n i - node_price sp s0 n i))).
    - apply binomial_sum_le; [assumption|]. intros i _. specialize (H i). lra.
    - rewrite (binomial_sum_lin n (p sp) g
                 (fun i => node_price sp s0' n i - node_price sp s0 n i)).
      lra. }
  assert (C1 : binomial_sum n (p sp) (a 1 s0) <= binomial_sum n (p sp) (a 1 s0'))
    by (apply binomial_sum_le; [assumption|]; intros i _; specialize (Hs i); lra).
  assert (C2 : binomial_sum n (p sp) (a 1 s0')
               <= binomial_sum n (p sp) (a 1 s0) + growth sp ^ n * (s0' - s0))
    by (apply Hup; intros i; specialize (Hs i); lra).
  assert (P1 : binomial_sum n (p sp) (a (-1) s0')
               <= binomial_sum n (p sp) (a (-1) s0))
    by (apply binomial_sum_le; [assumption|]; intros i _; specialize (Hs i); lra).
  assert (P2 : binomial_sum n (p sp) (a (-1) s0)
               <= binomial_sum n (p sp) (a (-1) s0') + growth sp ^ n * (s0' - s0))
    by (apply Hup; intros i; specialize (Hs i); lra).
  set (G := growth sp ^ n * (s0' - s0)) in *.
  clearbody D G. repeat split; nra.
Qed.

Lemma European_LT_spot_monotone_witness :
  let sp := {| u := 2; d := 1 / 2; p := 1 / 2; df_dt := 1 / 2; df_T := 1 / 4 |} in
  exists c c' pt pt',
    LT_out (European_LT_price sp 10 8 1 2 false) = Ok c
    /\ LT_out (European_LT_price sp 11 8 1 2 false) = Ok c'
    /\ LT_out (European_LT_price sp 10 8 (-1) 2 false) = Ok pt
    /\ LT_out (European_LT_price sp 11 8 (-1) 2 false) = Ok pt'
    /\ 0 <= c' - c <= LT_discount sp 2 false * (growth sp ^ 2 * (11 - 10))
    /\ 0 <= pt - pt' <= LT_discount sp 2 false * (growth sp ^ 2 * (11 - 10)).
Proof.
  intros sp.
  apply (European_LT_spot_monotone sp 10 11 8 2 false); simpl; lra.
Defined.

(** ** A low exercise price option in the money at every terminal node *)

(** X21.  When every terminal price of the lattice is at least 0.01, which
    holds for [0 <= d <= u] and [S0 * d^n >= 0.01], the maximum in the payoff
    of [LowExercisePrice._calc_LT] never binds and the tree price is the
    discounted forward less the discounted 0.01:
    [price = D * (S0 * (p*u + (1-p)*d)^n - 0.01)]. *)
Theorem LowExercisePrice_LT_in_the_money (sp : LatticeSpecs) (s0 : R) (n : nat)
  (keep : bool) :
  0 <= d sp <= u sp -> 0 <= s0 -> 1 / 100 <= s0 * d sp ^ n ->
  keep = true \/ 0 < p sp < 1 ->
  LT_out (LowExercisePrice_LT_price sp s0 n keep)
  = Ok (LT_discount sp n keep * (s0 * growth sp ^ n - 1 / 100)).
Proof.
  intros Hdu Hs Hitm Hk.
  rewrite LowExercisePrice_LT_price_European, European_LT_out by assumption.
  do 2 f_equal.
  assert (Hnode : forall i, (i <= n)%nat -> 1 / 100 <= node_price sp s0 n i).
  { intros i Hi. apply Rle_trans with (s0 * d sp ^ n); [assumption|].
    unfold node_price. replace n with ((n - i) + i)%nat at 1 by lia.
    rewrite pow_add.
    assert (Hd : 0 <= d sp ^ (n - i)) by (apply pow_le; lra).
    assert (Hpow : d sp ^ i <= u sp ^ i) by (apply pow_incr; lra).
    replace (s0 * (d sp ^ (n - i) * d sp ^ i))
      with (d sp ^ (n - i) * s0 * d sp ^ i) by ring.
    replace (d sp ^ (n - i) * u sp ^ i * s0)
      with (d sp ^ (n - i) * s0 * u sp ^ i) by ring.
    apply Rmult_le_compat_l; [apply Rmult_le_pos|]; assumption. }
  rewrite (binomial_sum_ext n (p sp) _ (fun i => node_price sp s0 n i - 1 / 100)).
  - rewrite binomial_sum_minus, binomial_sum_const.
    now rewrite binomial_sum_node_price.
  - intros i Hi. unfold payoff. specialize (Hnode i Hi).
    rewrite Rmax_left by lra. ring.
Qed.

Lemma LowExercisePrice_LT_in_the_money_witness :
  let sp := {| u := 2; d := 1 / 2; p := 1 / 2; df_dt := 1 / 2; df_T := 1 / 4 |} in
  LT_out (LowExercisePrice_LT_price sp 10 2 false)
  = Ok (LT_discount sp 2 false * (10 * growth sp ^ 2 - 1 / 100)).
Proof.
  intros sp.
  apply (LowExercisePrice_LT_in_the_money sp 10 2 false); simpl; lra.
Defined.
